(** * Ladybirds: a shallow embedding of the mapper's core data structures

  This development embeds, function by function, the parts of the Ladybirds
  sources that the specification makes claims about:

  - [Range] and [Space]            (src/range.h, src/range.cpp)
  - [SpaceDivision]                (src/spacedivision.h)
  - [OccupationChart]              (src/gen/occupationchart.h)
  - [ReachabilityMatrix]           (src/graph/graph-extra.h)
  - [Pass]                         (src/lua/pass.cpp)
  - [BaseType]                     (src/basetype.cpp)
  - [BankAssignment]               (src/opt/bankassignment.cpp)
  - [MetaKernelSeq]                (src/metakernelseq.cpp)

  and the functions next to them that these call or that use them:

  - [Product], [FlattenIndex], [UnflattenIndex]   (src/tools.cpp)
  - [Gcd], [PeriodicWindowOverlap]                (src/diophant.cpp)
  - [MinElementIf], [MaxElementIf]                (src/gen/multicritcmp.h)
  - [MsgUI::Error], [MsgUI::Warning]              (src/msgui.cpp)
  - [Anchor::CalcByteOffset]                      (src/dependency.cpp)

  Conventions.  The C++ type [int]/[long] is embedded as [Z]; the source
  never relies on wrap-around (signed overflow is undefined there), so the
  arithmetic is the mathematical one.  A failed [assert], an exception and
  a dereference of an iterator that does not point to an element are all
  rendered as [None].  Pointers that are only compared are rendered as
  handles (natural numbers or small inductive types). *)

From Stdlib Require Import ZArith List Lia Bool String.
From stdpp Require Import gmap strings list pretty sorting.

Local Open Scope Z_scope.

(* ===================================================================== *)
(** * Ranges (src/range.h) *)
(* ===================================================================== *)

Module Range.

(** [class Range { int Begin_; int End_; }], the half-open interval
    [Begin_, End_). *)
Record t : Type := mk { Begin_ : Z; End_ : Z }.

#[global] Instance eq_dec : EqDecision t.
Proof. solve_decision. Defined.

(** The class invariant asserted by every constructor. *)
Definition valid (r : t) : Prop := Begin_ r <= End_ r.

Definition BeginEnd (b e : Z) : t := mk b e.
Definition FirstLast (f l : Z) : t := mk f (l + 1).
Definition BeginCount (b c : Z) : t := mk b (b + c).
Definition Empty : t := mk 0 0.

Definition begin (r : t) : Z := Begin_ r.
Definition first (r : t) : Z := Begin_ r.
Definition size (r : t) : Z := End_ r - Begin_ r.
Definition IsEmpty (r : t) : bool := End_ r <=? Begin_ r.

Definition Overlaps (a r : t) : bool :=
  (Begin_ a <? End_ r) && (Begin_ r <? End_ a).

(** [a.Contains(r)]: [r] is contained in [a]. *)
Definition Contains (a r : t) : bool :=
  (Begin_ a <=? Begin_ r) && (End_ r <=? End_ a).

(** [operator |=] *)
Definition union (a r : t) : t :=
  if IsEmpty a then r
  else if negb (IsEmpty r)
       then mk (Z.min (Begin_ a) (Begin_ r)) (Z.max (End_ a) (End_ r))
       else a.

(** [operator &=] *)
Definition inter (a r : t) : t :=
  let b := Z.max (Begin_ a) (Begin_ r) in
  mk b (Z.max b (Z.min (End_ a) (End_ r))).

(** [Range::Remove] *)
Definition Remove (a r : t) : t :=
  if Begin_ r <=? Begin_ a
  then mk (Z.max (Begin_ a) (Z.min (End_ a) (End_ r))) (End_ a)
  else if End_ a <=? End_ r
       then mk (Begin_ a) (Z.min (End_ a) (Z.max (Begin_ a) (Begin_ r)))
       else a.

(** [operator +=] and [operator -=] *)
Definition shift (r : t) (offset : Z) : t :=
  mk (Begin_ r + offset) (End_ r + offset).
Definition unshift (r : t) (offset : Z) : t := shift r (- offset).

(** [RangeSubtract(from, sub, result)]: the list holds the 0, 1 or 2
    ranges written to [result]. *)
Definition RangeSubtract (from sub : t) : list t :=
  if Begin_ from <? Begin_ sub then
    if End_ sub <? End_ from
    then [BeginEnd (Begin_ from) (Begin_ sub); BeginEnd (End_ sub) (End_ from)]
    else if End_ from <=? Begin_ sub
         then [from]
         else [BeginEnd (Begin_ from) (Begin_ sub)]
  else
    if End_ from <=? End_ sub then []
    else if End_ sub <=? Begin_ from
         then [from]
         else [BeginEnd (End_ sub) (End_ from)].

(** The integers a range denotes. *)
Definition mem (x : Z) (r : t) : Prop := Begin_ r <= x < End_ r.

End Range.

(* ===================================================================== *)
(** * Spaces (src/range.h, src/range.cpp) *)
(* ===================================================================== *)

Module Space.

(** [class Space : private std::vector<Range>] *)
Abbreviation t := (list Range.t).

(** [Space(const std::vector<int> & dimensions)] *)
Definition of_dims (dims : list Z) : t := map (Range.BeginCount 0) dims.

Definition Dimensions (s : t) : nat := length s.

(** [std::equal(begin(), end(), other.begin(), p)] for a pure [p]. *)
Fixpoint all2 (p : Range.t -> Range.t -> bool) (a b : t) : bool :=
  match a, b with
  | x :: a', y :: b' => p x y && all2 p a' b'
  | _, _ => true
  end.

Definition Contains (a other : t) : bool := all2 Range.Contains a other.
Definition Overlaps (a other : t) : bool := all2 Range.Overlaps a other.
Definition IsEmpty (s : t) : bool := existsb Range.IsEmpty s.

Definition GetVolume (s : t) : Z :=
  fold_left (fun i r => i * Range.size r) s 1.

Definition Clear (s : t) : t :=
  map (fun rg => Range.BeginCount (Range.begin rg) 0) s.

(** The loop of [operator &=]: [std::equal] stops at the first pair whose
    intersection is empty; the ranges behind it are left as they are. *)
Fixpoint inter_loop (a s : t) : t * bool :=
  match a, s with
  | x :: a', y :: s' =>
      let x' := Range.inter x y in
      if Range.IsEmpty x' then (x' :: a', false)
      else let '(r, ok) := inter_loop a' s' in (x' :: r, ok)
  | _, _ => (a, true)
  end.

Definition inter (a s : t) : t :=
  let '(r, ok) := inter_loop a s in if ok then r else Clear r.

(** [operator |=] *)
Fixpoint union (a s : t) : t :=
  match a, s with
  | x :: a', y :: s' => Range.union x y :: union a' s'
  | _, _ => a
  end.

(** [Space::Remove]: [std::mismatch] looks for the first dimension in which
    [s] does not contain [a]; [std::equal] then checks the dimensions behind
    it; only if all of those are contained, the range found is trimmed. *)
Fixpoint Remove (a s : t) : t :=
  match a, s with
  | x :: a', y :: s' =>
      if Range.Contains y x then x :: Remove a' s'
      else if all2 (fun a0 b0 => Range.Contains b0 a0) a' s'
           then Range.Remove x y :: a'
           else a
  | _, _ => a
  end.

Fixpoint Displace (a : t) (d : list Z) : t :=
  match a, d with
  | x :: a', o :: d' => Range.shift x o :: Displace a' d'
  | _, _ => a
  end.

Fixpoint DisplaceNeg (a : t) (d : list Z) : t :=
  match a, d with
  | x :: a', o :: d' => Range.unshift x o :: DisplaceNeg a' d'
  | _, _ => a
  end.

Definition GetOrigin (s : t) : list Z := map Range.begin s.
Definition GetDimensions (s : t) : list Z := map Range.size s.

Definition GetEffectiveDimensions (s : t) : list Z :=
  filter (fun sz => 1 < sz) (map Range.size s).

(** The points a space denotes: one coordinate per dimension. *)
Definition mem (p : list Z) (s : t) : Prop := Forall2 Range.mem p s.

End Space.

(* ===================================================================== *)
(** * Index arithmetic (src/tools.h, src/tools.cpp) *)
(* ===================================================================== *)

Module Tools.

(** [Product(begin, end)]: [std::accumulate] with [std::multiplies]. *)
Definition Product (vec : list Z) : Z := fold_left Z.mul vec 1.







End Tools.

(* ===================================================================== *)
(** * Periodic windows (src/diophant.h, src/diophant.cpp) *)
(* ===================================================================== *)

Module Diophant.

(** [Modulo(a, b)]; the operator [%] is not defined for a divisor zero. *)
Definition Modulo (a b : Z) : option Z :=
  if b =? 0 then None
  else
    let remainder := Z.rem a b in
    Some (if remainder <? 0 then remainder + b else remainder).

(** The loop [while(true)] of [Gcd]; [fuel] bounds the number of rounds.
    Both divisors are different from zero when they are used: [i2] by the
    assertion in front of the loop or by the test of the round before,
    [i1] by the test just passed. *)
Fixpoint Gcd_loop (fuel : nat) (i1 i2 : Z) : option Z :=
  match fuel with
  | O => None
  | S fuel' =>
      let i1 := Z.rem i1 i2 in
      if i1 =? 0 then Some i2
      else
        let i2 := Z.rem i2 i1 in
        if i2 =? 0 then Some i1
        else Gcd_loop fuel' i1 i2
  end.

(** [Gcd(i1, i2)]; [i2] gets smaller in every round, so [i2] rounds are
    enough. *)
Definition Gcd (i1 i2 : Z) : option Z :=
  if (0 <? i1) && (0 <? i2) then Gcd_loop (Z.to_nat i2) i1 i2 else None.

(** [PeriodicWindowOverlap(wnd1, period1, wnd2, period2, offset)];
    [Range::BeginEnd(0, period)] asserts [0 <= period]. *)
Definition PeriodicWindowOverlap (wnd1 : Range.t) (period1 : Z)
           (wnd2 : Range.t) (period2 : Z) (offset : Z) : option bool :=
  if negb ((0 <=? period1) && Range.Contains (Range.BeginEnd 0 period1) wnd1) then None
  else if negb ((0 <=? period2) && Range.Contains (Range.BeginEnd 0 period2) wnd2) then None
  else
    match Gcd period1 period2 with
    | None => None
    | Some gcd =>
        let lb := Range.Begin_ wnd1 - Range.End_ wnd2 - offset in
        let ub := Range.End_ wnd1 - Range.Begin_ wnd2 - offset in
        match Modulo lb gcd with
        | None => None
        | Some m => Some (gcd <? m + (ub - lb))
        end
    end.

End Diophant.


(* ===================================================================== *)
(** * Space divisions (src/spacedivision.h) *)
(* ===================================================================== *)

Module SpaceDivision.

Section Division.

Context {A : Type} `{EqDecision A}.

(** [Sections_] is a [std::unordered_multimap<AssignType, Space>]; its
    iteration order is unspecified, the list fixes one. *)
Record t : Type := mk {
  FullSpace_ : Space.t;
  Sections_ : list (A * Space.t)
}.

(** [SpaceDivision(Space fullspace)] *)
Definition create (fullspace : Space.t) : t := mk fullspace [].

Definition GetSectionCount (d : t) : nat := length (Sections_ d).

(** [Space::Overlaps], [operator&=] and [operator|=] assert that both
    operands have the same number of dimensions. *)
Definition same_dims (s : Space.t) (l : list (A * Space.t)) : bool :=
  forallb (fun e => Nat.eqb (length (snd e)) (length s)) l.

(** [FindOverlaps]: the entries whose space overlaps [s]. *)
Definition FindOverlaps (s : Space.t) (d : t) : option (list (A * Space.t)) :=
  if same_dims s (Sections_ d)
  then Some (List.filter (fun e => Space.Overlaps (snd e) s) (Sections_ d))
  else None.

(** The body of [TrimSection] after the entry has been erased: the loop
    over the dimensions [i].  [done] holds [trim[0..i)], already replaced by
    the intersections; every range of [RangeSubtract(trim[i], remove[i])]
    yields one entry [done ++ diff :: trim(i..)]. *)
Fixpoint TrimLoop (assign : A) (done trim remove : Space.t) : list (A * Space.t) :=
  match trim, remove with
  | ti :: trim', ri :: remove' =>
      let intersec := Range.inter ti ri in
      map (fun diff => (assign, done ++ diff :: trim')) (Range.RangeSubtract ti ri)
      ++ TrimLoop assign (done ++ [intersec]) trim' remove'
  | _, _ => []
  end.

(** [TrimSection(ittrim, remove)] for the entry [e] that [ittrim] points
    to: the entries that take its place. *)
Definition TrimSection (e : A * Space.t) (remove : Space.t) : list (A * Space.t) :=
  TrimLoop (fst e) [] (snd e) remove.

(** [AssignSection].  The iterators of [FindOverlaps(sec)] are collected
    before the loop, so exactly the entries that overlap [sec] are trimmed;
    each is replaced by its fragments. *)
Definition AssignSection (sec : Space.t) (assign : A) (d : t) : option t :=
  if negb (Nat.eqb (length (FullSpace_ d)) (length sec)) then None
  else
    let sec := Space.inter sec (FullSpace_ d) in
    if Space.IsEmpty sec then Some d
    else if negb (same_dims sec (Sections_ d)) then None
    else
      Some (mk (FullSpace_ d)
               (flat_map (fun e => if Space.Overlaps (snd e) sec
                                   then TrimSection e sec else [e])
                         (Sections_ d)
                ++ [(assign, sec)])).

(** [Unassign]: [Sections_.erase(unassign)] removes every entry of the key. *)
Definition Unassign (unassign : A) (d : t) : t :=
  mk (FullSpace_ d)
     (List.filter (fun e => negb (bool_decide (fst e = unassign))) (Sections_ d)).

(** [SubDivision] *)
Definition SubDivision (subspace : Space.t) (d : t) : option t :=
  if negb (Nat.eqb (length subspace) (length (FullSpace_ d))) then None
  else if negb (same_dims subspace (Sections_ d)) then None
  else
    Some (mk subspace
             (flat_map (fun secpair =>
                          let s := Space.inter (snd secpair) subspace in
                          if Space.IsEmpty s then [] else [(fst secpair, s)])
                       (Sections_ d))).

(** [GetEnvelope] *)
Definition GetEnvelope (find : A) (d : t) : Space.t :=
  match List.filter (fun e => bool_decide (fst e = find)) (Sections_ d) with
  | [] => Space.Clear (FullSpace_ d)
  | e :: rg => fold_left (fun ret it => Space.union ret (snd it)) rg (snd e)
  end.

(** The mutating operations of the class, for sequences of calls. *)
Inductive op : Type :=
| OpAssignSection (sec : Space.t) (assign : A)
| OpUnassign (unassign : A)
| OpSubDivision (subspace : Space.t).

Definition apply (o : op) (d : t) : option t :=
  match o with
  | OpAssignSection sec assign => AssignSection sec assign d
  | OpUnassign unassign => Some (Unassign unassign d)
  | OpSubDivision subspace => SubDivision subspace d
  end.

Fixpoint run (ops : list op) (d : t) : option t :=
  match ops with
  | [] => Some d
  | o :: ops' => match apply o d with
                 | Some d' => run ops' d'
                 | None => None
                 end
  end.

End Division.

Arguments t A : clear implicits.
Arguments op A : clear implicits.

End SpaceDivision.

(* ===================================================================== *)
(** * Occupation charts (src/gen/occupationchart.h) *)
(* ===================================================================== *)

Module OccupationChart.

(** [std::map<Time, T>] with [Time = T = long]: the entries in increasing
    order of their keys. *)
Abbreviation Entries := (list (Z * Z)).

Record t : Type := mk { Capacity_ : Z; Entries_ : Entries }.

(** [OccupationChart(long capacity)] *)
Definition create (capacity : Z) : t := mk capacity [(0, 0)].

(** An iterator is the key of the node it points to; [None] is [end()].
    Nodes of a [std::map] keep their identity when other nodes are inserted
    or erased, and so do these. *)
Abbreviation iterator := (option Z).

Definition lower_bound (k : Z) (l : Entries) : iterator :=
  option_map fst (List.find (fun e => k <=? fst e) l).

Definition upper_bound (k : Z) (l : Entries) : iterator :=
  option_map fst (List.find (fun e => k <? fst e) l).

(** [it->second] for an iterator that points to a node. *)
Definition second (k : Z) (l : Entries) : option Z :=
  option_map snd (List.find (fun e => fst e =? k) l).

(** Is the node with key [k] in front of [it]? *)
Definition before (k : Z) (it : iterator) : bool :=
  match it with
  | Some k' => k <? k'
  | None => true
  end.

(** [std::prev(it)->second]; [None] when [it] is [begin()], where the source
    reads through an iterator that points to no element. *)
Definition prev_second (it : iterator) (l : Entries) : option Z :=
  option_map snd (last (List.filter (fun e => before (fst e) it) l)).

(** [Entries_.emplace_hint(hint, k, v)]: nothing happens if the key exists. *)
Fixpoint emplace (k v : Z) (l : Entries) : Entries :=
  match l with
  | [] => [(k, v)]
  | (k', v') :: l' =>
      if k <? k' then (k, v) :: l
      else if k =? k' then l
      else (k', v') :: emplace k v l'
  end.

Definition erase (k : Z) (l : Entries) : Entries :=
  List.filter (fun e => negb (fst e =? k)) l.

(** [operator[]] *)
Definition sample (c : t) (time : Z) : option Z :=
  if time <? 0 then None
  else prev_second (upper_bound time (Entries_ c)) (Entries_ c).

(** The loop [for(it = itfrom; it != itto; ++it)] of [Occupy].  [None]: some
    entry went over the capacity; the [do ... while(it-- != itfrom)] loop has
    then taken [occ] off every entry touched so far, and nothing is changed. *)
Fixpoint occupy_loop (cap occ kfrom : Z) (itto : iterator) (l : Entries)
  : option Entries :=
  match l with
  | [] => Some []
  | (k, v) :: l' =>
      if (kfrom <=? k) && before k itto then
        if cap <? v + occ then None
        else option_map (cons (k, v + occ)) (occupy_loop cap occ kfrom itto l')
      else option_map (cons (k, v)) (occupy_loop cap occ kfrom itto l')
  end.

(** The same loop in [Unoccupy]: an entry may not drop below zero. *)
Fixpoint unoccupy_loop (occ kfrom : Z) (itto : iterator) (l : Entries)
  : option Entries :=
  match l with
  | [] => Some []
  | (k, v) :: l' =>
      if (kfrom <=? k) && before k itto then
        if v - occ <? 0 then None
        else option_map (cons (k, v - occ)) (unoccupy_loop occ kfrom itto l')
      else option_map (cons (k, v)) (unoccupy_loop occ kfrom itto l')
  end.

(** [if(it->first != key) emplace_hint(it, key, val);
     else if(it->second == std::prev(it)->second) erase(it);]
    The call with [itto] also emplaces when [itto == end()]. *)
Definition settle (it : iterator) (key val : Z) (l : Entries) : option Entries :=
  match it with
  | None => Some (emplace key val l)
  | Some k =>
      if negb (k =? key) then Some (emplace key val l)
      else
        match second k l, prev_second it l with
        | Some v, Some pv => Some (if v =? pv then erase k l else l)
        | _, _ => None
        end
  end.

(** [Occupy(from, to, occ)] *)
Definition Occupy (from to occ : Z) (c : t) : option (bool * t) :=
  let cap := Capacity_ c in
  let l := Entries_ c in
  if negb ((0 <=? from) && (from <? to)) then None
  else
    match lower_bound from l with
    | None => None
    | Some kfrom =>
        let itto := upper_bound from l in
        match prev_second itto l, second kfrom l with
        | Some toval, Some vfrom =>
            let fromval := vfrom + occ in
            if negb (kfrom =? from) && (cap <? fromval) then Some (false, c)
            else
              match occupy_loop cap occ kfrom itto l with
              | None => Some (false, c)
              | Some l1 =>
                  match settle (Some kfrom) from fromval l1 with
                  | None => None
                  | Some l2 =>
                      match settle itto to toval l2 with
                      | None => None
                      | Some l3 => Some (true, mk cap l3)
                      end
                  end
              end
        | _, _ => None
        end
    end.

(** [Unoccupy(from, to, occ)] *)
Definition Unoccupy (from to occ : Z) (c : t) : option (bool * t) :=
  let cap := Capacity_ c in
  let l := Entries_ c in
  if negb ((0 <=? from) && (from <? to)) then None
  else
    match lower_bound from l with
    | None => None
    | Some kfrom =>
        let itto := lower_bound to l in
        match prev_second itto l, second kfrom l with
        | Some toval, Some vfrom =>
            let fromval := vfrom - occ in
            if negb (kfrom =? from) && (fromval <? cap) then Some (false, c)
            else
              match unoccupy_loop occ kfrom itto l with
              | None => Some (false, c)
              | Some l1 =>
                  match settle (Some kfrom) from fromval l1 with
                  | None => None
                  | Some l2 =>
                      match settle itto to toval l2 with
                      | None => None
                      | Some l3 => Some (true, mk cap l3)
                      end
                  end
              end
        | _, _ => None
        end
    end.

End OccupationChart.


(* ===================================================================== *)
(** * Reachability (src/graph/graph-extra.h) *)
(* ===================================================================== *)

Module Graph.

(** A graph as the functions below see it: the nodes in the order in which
    [g.Nodes()] yields them (a node is named by its ID), and the edges in
    the order of [g.Edges()], each with its source and its target. *)
Record t : Type := mk {
  Nodes : list nat;
  Edges : list (nat * nat)
}.

(** Every edge joins two nodes of the graph ([EmplaceEdge] asserts it), and
    every node is listed once. *)
Definition wf (g : t) : Prop :=
  NoDup (Nodes g) /\
  forall e, e ∈ Edges g -> fst e ∈ Nodes g /\ snd e ∈ Nodes g.

(** [ItemMap<ItemSet>]: a set of nodes for every node. *)
Abbreviation ItemMap := (gmap nat (gset nat)).

(** [ret[n]] *)
Definition at_ (ret : ItemMap) (n : nat) : gset nat := default ∅ (ret !! n).

(** [g.GetNodeMap(g.GetNodeSet())]: every node is mapped to the empty set. *)
Definition GetNodeMap (g : t) : ItemMap :=
  list_to_map (map (fun n => (n, ∅)) (Nodes g)).

(** [AdjacencyMatrix] *)
Definition AdjacencyMatrix (g : t) : ItemMap :=
  fold_left (fun ret edge => <[fst edge := at_ ret (fst edge) ∪ {[snd edge]}]> ret)
            (Edges g) (GetNodeMap g).

(** The inner loop of [ReachabilityMatrix]:
    [for(auto & n2 : g.Nodes()) if(ret[n1].Contains(n2)) ret[n1] |= ret[n2];] *)
Definition reach_inner (nodes : list nat) (n1 : nat) (ret : ItemMap) : ItemMap :=
  fold_left (fun ret n2 =>
               if bool_decide (n2 ∈ at_ ret n1)
               then <[n1 := at_ ret n1 ∪ at_ ret n2]> ret
               else ret)
            nodes ret.

(** [ReachabilityMatrix] *)
Definition ReachabilityMatrix (g : t) : ItemMap :=
  fold_left (fun ret n1 => reach_inner (Nodes g) n1 ret)
            (Nodes g) (AdjacencyMatrix g).

(** [v] can be reached from [u] by following at least one edge. *)
Inductive reachable (g : t) : nat -> nat -> Prop :=
| reach_edge u v : (u, v) ∈ Edges g -> reachable g u v
| reach_step u w v : (u, w) ∈ Edges g -> reachable g w v -> reachable g u v.

End Graph.

(* ===================================================================== *)
(** * Passes (src/lua/pass.cpp) *)
(* ===================================================================== *)

Module Pass.

Section Passes.

(** Everything in [impl::Program] besides [PassesPerformed]. *)
Context {Data : Type}.

Record Program : Type := mkProgram {
  PassesPerformed : gset string;
  ProgramData : Data
}.

(** [class Pass]; [Function_] may change the whole program. *)
Record t : Type := mk {
  Name_ : string;
  Function_ : Program -> bool * Program;
  Requires_ : list string;
  Destroys_ : list string
}.

(** How a call from Lua ends: [luaL_error] does not return to its caller,
    it unwinds to the interpreter with the message. *)
Inductive outcome (R : Type) : Type :=
| Returned (r : R) (prog : Program)
| LuaError (msg : string) (prog : Program).
Arguments Returned {R} r prog.
Arguments LuaError {R} msg prog.

Definition missing_message (name req : string) : string :=
  ("While trying to apply pass '" ++ name ++ "': Results of pass '" ++ req
   ++ "' are needed but not available. "
   ++ "Either this pass has not been applied, or its results have been destroyed by another pass.")%string.

(** The first loop of [CheckDependencies]: the first requirement that is not
    in the set, if any. *)
Definition first_missing (p : t) (prog : Program) : option string :=
  List.find (fun req => negb (bool_decide (req ∈ PassesPerformed prog))) (Requires_ p).

(** The second loop of [CheckDependencies]. *)
Definition erase_destroyed (p : t) (prog : Program) : Program :=
  fold_left (fun pr dest => mkProgram (PassesPerformed pr ∖ {[dest]}) (ProgramData pr))
            (Destroys_ p) prog.

Definition CheckDependencies (p : t) (prog : Program) : outcome unit :=
  match first_missing p prog with
  | Some req => LuaError (missing_message (Name_ p) req) prog
  | None => Returned tt (erase_destroyed p prog)
  end.

(** [FinishImpl] *)
Definition FinishImpl (p : t) (prog : Program) (success : bool) : Program :=
  if success
  then mkProgram (PassesPerformed prog ∪ {[Name_ p]}) (ProgramData prog)
  else prog.

(** [Finish(lua, prog, bool success)]: the value pushed and the program. *)
Definition Finish (p : t) (prog : Program) (success : bool) : outcome bool :=
  Returned success (FinishImpl p prog success).

(** [Pass::Run] *)
Definition Run (p : t) (prog : Program) : outcome bool :=
  match CheckDependencies p prog with
  | LuaError msg prog' => LuaError msg prog'
  | Returned _ prog1 =>
      let '(res, prog2) := Function_ p prog1 in
      Finish p prog2 res
  end.

End Passes.

Arguments Program Data : clear implicits.
Arguments t Data : clear implicits.
Arguments outcome Data R : clear implicits.
Arguments Returned {Data R} r prog.
Arguments LuaError {Data R} msg prog.

End Pass.

(* ===================================================================== *)
(** * The message sink (src/msgui.cpp) *)
(* ===================================================================== *)

Module MsgUI.

Inductive classification : Type := Error_ | Warning_.

#[global] Instance classification_eq_dec : EqDecision classification.
Proof. solve_decision. Defined.

Section UI.

(** The messages of the module that writes to the sink. *)
Context {M : Type}.

Record t : Type := mk {
  NumErrors_ : Z;
  Output_ : list (classification * M)
}.

Definition limit : Z := 1000.

(** [MsgUI::Error]: prints, then leaves the process through [exit(1)] once
    more than [limit] errors were counted ([None]). *)
Definition Error (m : M) (ui : t) : option t :=
  let n := NumErrors_ ui + 1 in
  if limit <? n then None
  else Some (mk n (Output_ ui ++ [(Error_, m)])).

(** [MsgUI::Warning] *)
Definition Warning (m : M) (ui : t) : t :=
  mk (NumErrors_ ui) (Output_ ui ++ [(Warning_, m)]).

End UI.

Arguments t M : clear implicits.

End MsgUI.

(* ===================================================================== *)
(** * Base types (src/basetype.h, src/basetype.cpp) *)
(* ===================================================================== *)

Module BaseType.

(** [class BaseType { std::string Name; int Size; }] *)
Record t : Type := mk { Name : string; Size : Z }.

(** [IsCompatible] *)
Definition IsCompatible (a bt : t) : bool := Size bt =? Size a.


(** A [const BaseType *]: [0] is the null pointer, the object that
    [make_unique] creates as the [n]-th one lives at address [n]. *)
Abbreviation ptr := nat.

(** The function-local static [typemap] with the objects it owns.
    [objects] lists them in the order of their creation. *)
Record TypeMap : Type := mkTypeMap {
  objects : list t;
  table : gmap string ptr
}.

(** [*p] *)
Definition deref (tm : TypeMap) (p : ptr) : option t :=
  match p with
  | O => None
  | S i => objects tm !! i
  end.

(** [typemap.emplace(name, make_unique<BaseType>(name, size))]: the object is
    created in any case; the map takes it only if the name is new. *)
Definition emplace (name : string) (size : Z) (tm : TypeMap) : TypeMap * ptr :=
  let p := S (length (objects tm)) in
  match table tm !! name with
  | Some q => (mkTypeMap (objects tm ++ [mk name size]) (table tm), q)
  | None => (mkTypeMap (objects tm ++ [mk name size]) (<[name := p]> (table tm)), p)
  end.



(** What [FromString] can see and change: the static map ([None] before the
    first call) and the message sink. *)
Record state : Type := mkState {
  typemap : option TypeMap;
  ui : MsgUI.t string
}.



End BaseType.


(* ===================================================================== *)
(** * Bank assignment (src/opt/bankassignment.cpp, src/gen/multicritcmp.h) *)
(* ===================================================================== *)

Module BankAssignment.

Definition InitialBankCapacity : Z := 116 * 1024.

(** A [BufferNode] together with the fields of the [Buffer] it points to
    that the assignment reads and writes.  A node is named by its position
    in [upBufferGraph_->Nodes()]. *)
Record BufferNode : Type := mkNode {
  ID : Z;
  Size : Z;
  MemBank : Z;
  Ignore : bool;
  AccessTaskCount : Z
}.

Record BufferEdge : Type := mkEdge {
  Source : nat;
  Target : nat;
  Penalty : Z;
  GroupPenalty : Z;
  Reward : Z
}.

(** The messages of [gMsgUI.Error] and [gMsgUI.Warning]:
    - "Buffer is too big to fit in any memory bank (%ld Bytes)."
    - "Insufficient memory on the target platform. Program demands %ld Bytes."
    - "Program is using more than 90%% of the memory on the platform. ..."
    - "Not all buffers could be mapped to memory banks. Printing final
       assignment status:" *)
Inductive message : Type :=
| BufferTooBig (size : Z)
| InsufficientMemory (totalsize : Z)
| NinetyPercent
| NotAllMapped.

(** The messages of [gMsgUI.Verbose]. *)
Inductive verbose : Type :=
| Removing (id : Z) (tasks neighbours penalty size : Z)
| Assignment (id bank penalty reward groupreward remaining : Z)
| FailedToAssign (id : Z)
| StartingOver (correction : Z)
| BankUsageHeader
| BankUsage (id used capacity : Z).

(** What [PrintAssignmentInfo] prints: for every bank its buffers, each as
    [T<id>=<size>], and the free space; then the buffers without a bank,
    their total size and the free space of all banks. *)
Record report : Type := mkReport {
  PerBank : list (Z * list (Z * Z) * Z);
  Unassigned : list (Z * Z);
  UnassignedTotal : Z;
  AllFree : Z
}.

(** Everything [AssignBanks] changes. *)
Record state : Type := mkState {
  Nodes : list BufferNode;
  UI : MsgUI.t message;
  VerboseOut : list verbose;
  Cerr : list report
}.

(** One bank in [AssignBanks]; [pGroup] points to [groups[ID % ngroups]]. *)
Record BankCharacteristics : Type := mkBank {
  BPenalty : Z;
  BGroupPenalty : Z;
  BReward : Z;
  Capacity : Z;
  FreeSpace : Z;
  BankID : Z
}.

Definition ngroups : Z := 2.

Section Graph.

(** The edges of the buffer graph, which [AssignBanks] only reads, and the
    number of banks. *)
Variable edges : list BufferEdge.
Variable BankCount_ : Z.

Definition ignored (nodes : list BufferNode) (n : nat) : bool :=
  match nodes !! n with
  | Some nd => Ignore nd
  | None => true
  end.

(** [CountPenaltyEdges]: the count returned and [penalties]. *)
Definition CountPenaltyEdges (nodes : list BufferNode) (pn : nat) : Z * Z :=
  let out := List.filter (fun e => Nat.eqb (Source e) pn
                                   && negb (ignored nodes (Target e))
                                   && (0 <? Penalty e)) edges in
  let inc := List.filter (fun e => Nat.eqb (Target e) pn
                                   && negb (ignored nodes (Source e))
                                   && (0 <? Penalty e)) edges in
  (Z.of_nat (length out) + Z.of_nat (length inc),
   fold_left (fun s e => s + Penalty e) (out ++ inc) 0).

(** [MultiCriteriaComparison::DoCompare]: the first criterion that is not
    zero decides, the last one in any case. *)
Fixpoint DoCompare (criteria : list Z) : Z :=
  match criteria with
  | [] => 0
  | [c] => c
  | c :: cs => if c =? 0 then DoCompare cs else c
  end.

Definition MultiCritCmp (criteria : list Z) : bool := DoCompare criteria <? 0.

(** [while(begin != end && !filter( *begin)) ++begin;], also the [find_if]
    of [MaxElementIf]: what is left of the range from the first element on
    that passes the filter. *)
Fixpoint skip_to {B : Type} (filter : B -> bool) (range : list B) : list B :=
  match range with
  | [] => []
  | b :: rest => if filter b then range else skip_to filter rest
  end.

(** The loop [while(++begin != end)] of [MinElementIf]. *)
Fixpoint min_loop (filter : nat -> bool) (cmp : nat -> nat -> bool)
         (rest : list nat) (smallest : nat) : nat :=
  match rest with
  | [] => smallest
  | k :: rest' =>
      if filter k && cmp k smallest
      then min_loop filter cmp rest' k
      else min_loop filter cmp rest' smallest
  end.

(** [MinElementIf] over the positions [range]; [None] is the end iterator. *)
Definition MinElementIf (filter : nat -> bool) (cmp : nat -> nat -> bool)
           (range : list nat) : option nat :=
  match skip_to filter range with
  | [] => None
  | b :: rest => Some (min_loop filter cmp rest b)
  end.

(** The loop of [MaxElementIf]. *)
Fixpoint max_loop {B : Type} (filter : B -> bool) (cmp : B -> B -> bool)
         (rest : list B) (greatest : B) : B :=
  match rest with
  | [] => greatest
  | k :: rest' =>
      if filter k && cmp greatest k
      then max_loop filter cmp rest' k
      else max_loop filter cmp rest' greatest
  end.

Definition MaxElementIf {B : Type} (filter : B -> bool) (cmp : B -> B -> bool)
           (range : list B) : option B :=
  match skip_to filter range with
  | [] => None
  | b :: rest => Some (max_loop filter cmp rest b)
  end.

(** [Neighbours] and [Penalty] of the [NodeCharacter] that stands at
    position [k].  [operator++] calls [update()] before it moves on, so
    behind the first node the two values are those of the node in front. *)
Definition character (nodes : list BufferNode) (k : nat) : Z * Z :=
  CountPenaltyEdges nodes (Nat.pred k).

Definition node_at (nodes : list BufferNode) (k : nat) : BufferNode :=
  default (mkNode 0 0 (-1) true 0) (nodes !! k).

(** [nodecmp(b1, b2)] *)
Definition nodecmp (correction : Z) (nodes : list BufferNode) (b1 b2 : nat) : bool :=
  let n1 := node_at nodes b1 in
  let n2 := node_at nodes b2 in
  MultiCritCmp
    [ - AccessTaskCount n1 - (- AccessTaskCount n2)
      + Z.quot (Z.shiftl (Size n1 - Size n2) correction) InitialBankCapacity;
      fst (character nodes b1) - fst (character nodes b2);
      snd (character nodes b1) - snd (character nodes b2);
      Size n1 - Size n2 ].

Definition set_Ignore (b : bool) (nd : BufferNode) : BufferNode :=
  mkNode (ID nd) (Size nd) (MemBank nd) b (AccessTaskCount nd).

Definition set_MemBank (bank : Z) (nd : BufferNode) : BufferNode :=
  mkNode (ID nd) (Size nd) bank (Ignore nd) (AccessTaskCount nd).

(** The first step: [count] times the least node that is not ignored goes
    onto the stack (its head is the top) and is ignored from then on.
    [None]: no such node, the source dereferences the end iterator. *)
Fixpoint remove_nodes (correction : Z) (count : nat)
         (nodes : list BufferNode) (stack : list nat) (vout : list verbose)
  : option (list BufferNode * list nat * list verbose) :=
  match count with
  | O => Some (nodes, stack, vout)
  | S count' =>
      match MinElementIf (fun k => negb (ignored nodes k)) (nodecmp correction nodes)
                         (seq 0 (length nodes)) with
      | None => None
      | Some k =>
          let nd := node_at nodes k in
          remove_nodes correction count'
            (alter (set_Ignore true) k nodes) (k :: stack)
            (vout ++ [Removing (ID nd - 1) (AccessTaskCount nd)
                                (fst (character nodes k)) (snd (character nodes k))
                                (Size nd)])
      end
  end.

(** The banks at the start of the second step. *)
Definition initial_banks : list BankCharacteristics :=
  map (fun i => mkBank 0 0 0
                  (if i =? 0 then 5 * 1024 else InitialBankCapacity)
                  (if i =? 0 then 5 * 1024 else InitialBankCapacity)
                  i)
      (map Z.of_nat (seq 0 (Z.to_nat BankCount_))).

(** The edges of [pn->Edges()], each with the node [pn2] at its other end. *)
Definition incident (pn : nat) : list (BufferEdge * nat) :=
  flat_map (fun e => (if Nat.eqb (Target e) pn
                      then [(e, if Nat.eqb (Source e) pn then Target e else Source e)]
                      else [])
                     ++ (if Nat.eqb (Source e) pn then [(e, Target e)] else []))
           edges.

(** The sums of the penalties and rewards of the edges to the buffers of
    every bank. *)
Definition sum_up (nodes : list BufferNode) (pn : nat)
           (banks : list BankCharacteristics) : list BankCharacteristics :=
  fold_left
    (fun bs en =>
       let '(e, pn2) := en in
       if ignored nodes pn2 then bs
       else
         let bankidx := MemBank (node_at nodes pn2) in
         if bankidx <? 0 then bs
         else alter (fun b => mkBank (BPenalty b + Penalty e)
                                     (BGroupPenalty b + GroupPenalty e)
                                     (BReward b + Reward e)
                                     (Capacity b) (FreeSpace b) (BankID b))
                    (Z.to_nat bankidx) bs)
    (incident pn)
    (map (fun b => mkBank 0 0 0 (Capacity b) (FreeSpace b) (BankID b)) banks).

(** [group.Penalty] and [group.Reward] of the group of bank [b]. *)
Definition group_of (banks : list BankCharacteristics) (b : BankCharacteristics) : Z * Z :=
  let members := List.filter (fun b' => BankID b' mod ngroups =? BankID b mod ngroups) banks in
  (fold_left (fun s b' => s + BGroupPenalty b') members 0,
   fold_left (fun s b' => s + BReward b') members 0).

(** [bankcmp(b1, b2)] *)
Definition bankcmp (banks : list BankCharacteristics) (b1 b2 : BankCharacteristics) : bool :=
  MultiCritCmp
    [ (- BPenalty b1 + BPenalty b2)
      + (- fst (group_of banks b1) + fst (group_of banks b2));
      BReward b1 - BReward b2
      + Z.quot ((snd (group_of banks b1) - snd (group_of banks b2)) * 3) 8;
      FreeSpace b1 - FreeSpace b2 ].

(** The second step: the nodes come back from the stack one by one and
    take the best bank that has room.  The result carries [ret]. *)
Fixpoint color_nodes (stack : list nat) (nodes : list BufferNode)
         (banks : list BankCharacteristics) (vout : list verbose) (ret : bool)
  : list BufferNode * list BankCharacteristics * list verbose * bool :=
  match stack with
  | [] => (nodes, banks, vout, ret)
  | pn :: stack' =>
      let nodes := alter (set_Ignore false) pn nodes in
      let banks := sum_up nodes pn banks in
      let buffersize := Size (node_at nodes pn) in
      match MaxElementIf (fun b => buffersize <=? FreeSpace b) (bankcmp banks)
                         (rev banks) with
      | Some it =>
          let it' := mkBank (BPenalty it) (BGroupPenalty it) (BReward it)
                            (Capacity it) (FreeSpace it - buffersize) (BankID it) in
          color_nodes stack'
            (alter (set_MemBank (BankID it)) pn nodes)
            (alter (fun _ => it') (Z.to_nat (BankID it)) banks)
            (vout ++ [Assignment (ID (node_at nodes pn) - 1) (BankID it) (BPenalty it)
                                 (BReward it) (snd (group_of banks it)) (FreeSpace it')])
            ret
      | None =>
          color_nodes stack'
            (alter (set_MemBank (-1)) pn nodes) banks
            (vout ++ [FailedToAssign (ID (node_at nodes pn) - 1)])
            false
      end
  end.

(** [PrintAssignmentInfo] *)
Definition PrintAssignmentInfo (nodes : list BufferNode) : report :=
  let printbank (bank : Z) :=
    map (fun nd => (ID nd - 1, Size nd))
        (List.filter (fun nd => MemBank nd =? bank) nodes) in
  let sum (l : list (Z * Z)) := fold_left (fun s x => s + snd x) l 0 in
  let perbank :=
    map (fun i => (i, printbank i, InitialBankCapacity - sum (printbank i)))
        (map Z.of_nat (seq 0 (Z.to_nat BankCount_))) in
  mkReport perbank (printbank (-1)) (sum (printbank (-1)))
           (fold_left (fun s x => s + snd x) perbank 0).

(** The initialization loop: every bank assignment is cleared, and every
    buffer that is larger than a bank is reported.  [None]: [MsgUI::Error]
    has left the process. *)
Fixpoint clear_and_check (nodes : list BufferNode) (ui : MsgUI.t message)
  : option (list BufferNode * bool * Z * MsgUI.t message) :=
  match nodes with
  | [] => Some ([], true, 0, ui)
  | nd :: nodes' =>
      match (if InitialBankCapacity <? Size nd
             then MsgUI.Error (BufferTooBig (Size nd)) ui
             else Some ui) with
      | None => None
      | Some ui1 =>
          match clear_and_check nodes' ui1 with
          | None => None
          | Some (cleared, ret, totalsize, ui2) =>
              Some (set_MemBank (-1) nd :: cleared,
                    ret && negb (InitialBankCapacity <? Size nd),
                    Size nd + totalsize, ui2)
          end
      end
  end.

(** One run through the body of [AssignBanks] up to the point where it
    either returns or calls itself.  [again] tells that it calls itself
    with [correction + 1]. *)
Definition attempt (correction : Z) (st : state) : option (bool * bool * state) :=
  match clear_and_check (Nodes st) (UI st) with
  | None => None
  | Some (nodes0, ret0, totalsize, ui0) =>
      if negb ret0 then
        Some (false, false, mkState nodes0 ui0 (VerboseOut st) (Cerr st))
      else if BankCount_ * InitialBankCapacity <? totalsize then
        match MsgUI.Error (InsufficientMemory totalsize) ui0 with
        | None => None
        | Some ui1 => Some (false, false, mkState nodes0 ui1 (VerboseOut st) (Cerr st))
        end
      else
        (* [totalsize > BankCount_*InitialBankCapacity*0.9], in exact arithmetic *)
        let ui1 := if (BankCount_ * InitialBankCapacity * 9 <? totalsize * 10)
                      && (correction =? 0)
                   then MsgUI.Warning NinetyPercent ui0 else ui0 in
        match remove_nodes correction (length nodes0) nodes0 [] (VerboseOut st) with
        | None => None
        | Some (nodes1, stack, vout1) =>
            if BankCount_ <=? 0 then None
            else
              let '(nodes2, banks, vout2, ret) :=
                color_nodes stack nodes1 initial_banks vout1 true in
              let usage := BankUsageHeader
                           :: map (fun b => BankUsage (BankID b) (Capacity b - FreeSpace b)
                                                      (Capacity b)) banks in
              if ret then
                Some (true, false, mkState nodes2 ui1 (vout2 ++ usage) (Cerr st))
              else if correction <? 10 then
                Some (false, true,
                      mkState nodes2 ui1 (vout2 ++ [StartingOver (correction + 1)]) (Cerr st))
              else
                match MsgUI.Error NotAllMapped ui1 with
                | None => None
                | Some ui2 =>
                    Some (false, false,
                          mkState nodes2 ui2 (vout2 ++ usage)
                                  (Cerr st ++ [PrintAssignmentInfo nodes2]))
                end
        end
  end.

(** The recursion of [AssignBanks]; it ends because the correction grows
    up to 10.  [fuel] bounds the depth. *)
Fixpoint AssignBanks_from (fuel : nat) (correction : Z) (st : state)
  : option (bool * state) :=
  match attempt correction st with
  | None => None
  | Some (ret, again, st') =>
      if again then
        match fuel with
        | O => None
        | S fuel' => AssignBanks_from fuel' (correction + 1) st'
        end
      else Some (ret, st')
  end.

(** [AssignBanks(correction)] *)
Definition AssignBanks (correction : Z) (st : state) : option (bool * state) :=
  AssignBanks_from (Z.to_nat (10 - correction)) correction st.

End Graph.

End BankAssignment.

(* ===================================================================== *)
(** * Packets, kernels and tasks (src/packet.h, src/kernel.h, src/task.h,
      src/dependency.h) *)
(* ===================================================================== *)

Module Packet.

Inductive AccessType : Type := invalid | in_ | out | inout | param.

#[global] Instance AccessType_eq_dec : EqDecision AccessType.
Proof. solve_decision. Defined.

Record t : Type := mk {
  Name_ : string;
  Access_ : AccessType;
  BaseType_ : BaseType.t;
  ArrayDims_ : list Z
}.

End Packet.

Module Kernel.

(** [Addr] stands for the address of the object: kernels are told apart by
    their pointers. *)
Record t : Type := mk {
  Addr : nat;
  Name : string;
  Packets : list Packet.t
}.

End Kernel.

(* ===================================================================== *)
(** * Dataflow resolution (src/metakernelseq.h, src/metakernelseq.cpp) *)
(* ===================================================================== *)

Module MetaKernelSeq.

(** A [const Packet *] that names a variable of the meta-kernel: an element
    of [Variables] or one of the packets of the meta-kernel itself. *)
Inductive VarRef : Type :=
| LocalVar (i : nat)
| KernelPacket (i : nat).

(** A [Task *]: the pseudo tasks [mk.Inputs] and [mk.Outputs], or the task
    made for the operation [k]. *)
Inductive TaskRef : Type :=
| Inputs
| Outputs
| OpTask (k : nat).

(** An [Iface *]: [&task->Ifaces[index]]. *)
Record IfaceRef : Type := mkIfaceRef { IfTask : TaskRef; IfIndex : nat }.

(** A [const KernelCall::Argument *]: the dummy in [mkargs] for the packet
    [i] of the meta-kernel, or [&Operations[k].Args_[j]]. *)
Inductive ArgRef : Type :=
| MkArg (i : nat)
| OpArg (k j : nat).

#[global] Instance VarRef_eq_dec : EqDecision VarRef.
Proof. solve_decision. Defined.
#[global] Instance TaskRef_eq_dec : EqDecision TaskRef.
Proof. solve_decision. Defined.
#[global] Instance IfaceRef_eq_dec : EqDecision IfaceRef.
Proof. solve_decision. Defined.
#[global] Instance ArgRef_eq_dec : EqDecision ArgRef.
Proof. solve_decision. Defined.

(** [Dependency::Anchor] and [Dependency] *)
Record Anchor : Type := mkAnchor { TheIface : IfaceRef; Index : Space.t }.
Record Dependency : Type := mkDependency { From : Anchor; To : Anchor }.

(** [Iface] and [Task], with the members that the resolution sets. *)
Record Iface : Type := mkIface {
  Packet_ : Packet.t;
  Dimensions_ : list Z;
  PosHint : Space.t;
  BufferHint : Z
}.

Record Task : Type := mkTask {
  Kernel_ : Kernel.t;
  TaskName : string;
  TaskParams_ : list Z;
  TaskDerivedParams_ : list Z;
  Ifaces : list Iface
}.

(** The descriptions that the constructor of [Argument] collects:
    - "Too many indexing operations."
    - "Out of bounds access for index %d of variable %s"
    - "Zero-sized range for index %d of variable %s" *)
Inductive arg_error : Type :=
| TooManyIndexing
| OutOfBounds (index : Z) (variable : string)
| ZeroSized (index : Z) (variable : string).

(** [KernelCall::Argument] *)
Record Argument : Type := mkArgument {
  Variable_ : VarRef;
  Indices_ : Space.t;
  RelevantDims_ : list nat;
  ResultingDim_ : list Z;
  ErrorDesc_ : list arg_error;
  Iface_ : option IfaceRef;
  BufferHint_ : Z
}.

Definition IsValid (arg : Argument) : bool :=
  match ErrorDesc_ arg with
  | [] => true
  | _ => false
  end.

(** The descriptions that the constructor of [KernelCall] collects:
    - "Wrong number of arguments."
    - "Incompatible base type for argument %d: Passed %s where %s was requested"
    - "Incompatible access type for argument %d: Passed %s where %s was requested"
    - "Incompatible block size for argument %d: Passed %s where %s was requested" *)
Inductive call_error : Type :=
| WrongNumberOfArguments
| IncompatibleBaseType (argument : Z) (passed requested : string)
| IncompatibleAccessType (argument : Z) (passed requested : Packet.AccessType)
| IncompatibleBlockSize (argument : Z) (passed requested : list Z).

(** [KernelCall] *)
Record KernelCall : Type := mkKernelCall {
  Callee_ : Kernel.t;
  Args_ : list Argument;
  Params_ : list Z;
  DerivedParams_ : list Z;
  CallErrorDesc_ : list call_error;
  Valid_ : bool
}.

(** What is appended to [errors]:
    - "Kernel call %s: Use of uninitialized variable %s as input
       (uninitialized in indices %s)"
    - "Kernel output '%s' is unspecified for indices %s" *)
Inductive error : Type :=
| UninitializedInput (task variable : string) (indices : Space.t)
| UnspecifiedOutput (packet : string) (indices : Space.t).

Section Resolution.

(** The objects that the pointers above point to: [Variables] of the
    sequence and [Packets] of the meta-kernel. *)
Variable Variables : list Packet.t.
Variable KernelPackets : list Packet.t.

Definition deref (v : VarRef) : option Packet.t :=
  match v with
  | LocalVar i => Variables !! i
  | KernelPacket i => KernelPackets !! i
  end.

(** The loop over the indices in the constructor of [Argument]:
    the descriptions and [ResultingDim_]. *)
Fixpoint check_indices (name : string) (i : Z) (indices : Space.t) (vdims : list Z)
  : list arg_error * list Z :=
  match indices, vdims with
  | r :: indices', vdim :: vdims' =>
      let '(errs, resdim) := check_indices name (i + 1) indices' vdims' in
      ((if Range.Contains (Range.BeginCount 0 vdim) r then []
        else [OutOfBounds (i + 1) name])
       ++ (if Range.size r =? 0 then [ZeroSized (i + 1) name] else [])
       ++ errs,
       (if (Range.size r =? 0) || (Range.size r =? 1) then []
        else [Range.size r]) ++ resdim)
  | _, _ => ([], [])
  end.

(** [Argument(variable, indices)].  [None]: the variable is no object, or
    [Range::BeginCount(0, vdims[i])] fails its assertion on a negative
    dimension. *)
Definition Argument_ctor (variable : VarRef) (indices : Space.t) : option Argument :=
  match deref variable with
  | None => None
  | Some var =>
      let vdims := Packet.ArrayDims_ var in
      if existsb (fun d => d <? 0) vdims then None
      else
        let oldsize := length indices in
        let '(errs0, indices1) :=
          if Nat.ltb (length vdims) oldsize
          then ([TooManyIndexing], take (length vdims) indices)
          else ([], indices ++ map (Range.BeginCount 0) (drop oldsize vdims)) in
        let '(errs, resdim) := check_indices (Packet.Name_ var) 0 indices1 vdims in
        Some (mkArgument variable indices1 [] resdim (errs0 ++ errs) None (-1))
  end.

(** [SetBufferHint] *)
Definition SetBufferHint (i : Z) (arg : Argument) : Argument :=
  mkArgument (Variable_ arg) (Indices_ arg) (RelevantDims_ arg) (ResultingDim_ arg)
             (ErrorDesc_ arg) (Iface_ arg) i.

Definition set_RelevantDims (rel : list nat) (arg : Argument) : Argument :=
  mkArgument (Variable_ arg) (Indices_ arg) rel (ResultingDim_ arg)
             (ErrorDesc_ arg) (Iface_ arg) (BufferHint_ arg).

Definition set_Iface (iface : IfaceRef) (arg : Argument) : Argument :=
  mkArgument (Variable_ arg) (Indices_ arg) (RelevantDims_ arg) (ResultingDim_ arg)
             (ErrorDesc_ arg) (Some iface) (BufferHint_ arg).

(** [if(dim < 0) dim = DerivedParams_[-dim-1];]; [None] is an index out of
    the vector. *)
Definition lookup_derived (derived : list Z) (dim : Z) : option Z :=
  if dim <? 0 then derived !! Z.to_nat (- dim - 1) else Some dim.

(** [indices[i].size()] *)
Definition size_at (indices : Space.t) (i : nat) : Z :=
  match indices !! i with
  | Some r => Range.size r
  | None => 0
  end.

(** [while(cursize == 1 && suppidx > 0) cursize = indices[--suppidx].size();] *)
Fixpoint skip_ones (indices : Space.t) (cursize : Z) (suppidx : nat) : Z * nat :=
  match suppidx with
  | O => (cursize, O)
  | S s => if cursize =? 1 then skip_ones indices (size_at indices s) s
           else (cursize, suppidx)
  end.

(** The loop [for(int i = argdims.size(); i-- > 0; )] of the constructor of
    [KernelCall].  [rev_dims] holds [argdims[i], argdims[i-1], ...]; the
    result holds [RelevantDims_[0..i]], [suppidx] after the loop and
    whether the loop ended without a description.  After a description the
    loop is left with [suppidx = 0], and the entries of [RelevantDims_] not
    yet written keep the 0 from [resize]. *)
Fixpoint match_dims (derived : list Z) (indices : Space.t) (rev_dims : list Z)
         (suppidx : nat) : option (list nat * nat * bool) :=
  match rev_dims with
  | [] => Some ([], suppidx, true)
  | dim :: rest =>
      match lookup_derived derived dim with
      | None => None
      | Some curargdim =>
          let '(cursize, suppidx1) :=
            match suppidx with
            | O => (-1, O)
            | S s => (size_at indices s, s)
            end in
          let '(cursize2, suppidx2) :=
            if cursize =? curargdim then (cursize, suppidx1)
            else skip_ones indices cursize suppidx1 in
          if cursize2 =? curargdim then
            match match_dims derived indices rest suppidx2 with
            | None => None
            | Some (rels, final, ok) => Some (rels ++ [suppidx2], final, ok)
            end
          else Some (repeat O (S (length rest)), O, false)
      end
  end.

(** The loop over the arguments in the constructor of [KernelCall]; it is
    left through [break] after the second kind of block-size description. *)
Fixpoint check_args (nparams : Z) (derived : list Z) (argidx : Z)
         (args : list Argument) (packets : list Packet.t)
  : option (list Argument * list call_error) :=
  match args, packets with
  | arg :: args', demand :: packets' =>
      match deref (Variable_ arg), mapM (lookup_derived derived) (Packet.ArrayDims_ demand) with
      | Some supply, Some argdims =>
          let e1 := if BaseType.IsCompatible (Packet.BaseType_ supply) (Packet.BaseType_ demand)
                    then []
                    else [IncompatibleBaseType (argidx + 1)
                            (BaseType.Name (Packet.BaseType_ supply))
                            (BaseType.Name (Packet.BaseType_ demand))] in
          let e2 := if bool_decide (Packet.Access_ supply = Packet.in_)
                       && negb (bool_decide (Packet.Access_ demand = Packet.in_))
                    then [IncompatibleAccessType (argidx + 1) (Packet.Access_ supply)
                                                 (Packet.Access_ demand)]
                    else [] in
          let indices := Indices_ arg in
          match match_dims derived indices (rev argdims) (length indices) with
          | None => None
          | Some (rels, suppidx, ok) =>
              let blockerr := IncompatibleBlockSize (nparams + argidx + 1)
                                                    (ResultingDim_ arg) argdims in
              let e3 := if ok then [] else [blockerr] in
              let arg' := set_RelevantDims rels arg in
              if existsb (fun r => negb (Range.size r =? 1)) (take suppidx indices)
              then Some (arg' :: args', e1 ++ e2 ++ e3 ++ [blockerr])
              else
                match check_args nparams derived (argidx + 1) args' packets' with
                | None => None
                | Some (rest, es) => Some (arg' :: rest, e1 ++ e2 ++ e3 ++ es)
                end
          end
      | _, _ => None
      end
  | _, _ => Some (args, [])
  end.

(** [KernelCall(callee, args, params, derivedparams)] *)
Definition KernelCall_ctor (callee : Kernel.t) (args : list Argument)
           (params derivedparams : list Z) : option KernelCall :=
  if negb (Nat.eqb (length args) (length (Kernel.Packets callee)))
  then Some (mkKernelCall callee args params derivedparams [WrongNumberOfArguments] false)
  else
    match check_args (Z.of_nat (length params)) derivedparams 0 args (Kernel.Packets callee) with
    | None => None
    | Some (args', es) =>
        Some (mkKernelCall callee args' params derivedparams es
                           (match es with
                            | [] => forallb IsValid args'
                            | _ => false
                            end))
    end.

(** How the front end makes an operation
    (src/parse/clanghandler-kernelcallparser.cpp): one [Argument] for every
    packet argument of the call, with [SetBufferHint] if the variable
    belongs to an interface of the parent, then the [KernelCall]. *)
Record raw_argument : Type := mkRawArgument {
  ra_variable : VarRef;
  ra_indices : Space.t;
  ra_ParentIfaceIndex : Z
}.

Record raw_call : Type := mkRawCall {
  rc_callee : Kernel.t;
  rc_arguments : list raw_argument;
  rc_parameters : list Z;
  rc_derivedparams : list Z
}.

Definition build_argument (ra : raw_argument) : option Argument :=
  match Argument_ctor (ra_variable ra) (ra_indices ra) with
  | None => None
  | Some arg =>
      Some (if 0 <=? ra_ParentIfaceIndex ra
            then SetBufferHint (ra_ParentIfaceIndex ra) arg else arg)
  end.

Definition build_call (rc : raw_call) : option KernelCall :=
  match mapM build_argument (rc_arguments rc) with
  | None => None
  | Some arguments =>
      KernelCall_ctor (rc_callee rc) arguments (rc_parameters rc) (rc_derivedparams rc)
  end.

(** [IndicesAbsToRel(abs, ref, relvdims)] *)
Definition IndicesAbsToRel (abs ref : Space.t) (relvdims : list nat) : option Space.t :=
  mapM (fun dim => match abs !! dim, ref !! dim with
                   | Some a, Some r => Some (Range.unshift a (Range.first r))
                   | _, _ => None
                   end)
       relvdims.

Abbreviation Division := (SpaceDivision.t (option ArgRef)).

(** The local state of [TranslateToMetaKernel] together with what it
    appends to: [defs] for the variables and for the packets of the
    meta-kernel, [mk.Dependencies], [errors], [mk.Tasks] and [instcounts]. *)
Record state : Type := mkState {
  defs_local : list Division;
  defs_packet : list Division;
  Dependencies : list Dependency;
  Errors : list error;
  Tasks : list Task;
  instcounts : gmap nat nat
}.

(** [defs.at(&var)] *)
Definition defs_at (st : state) (v : VarRef) : option Division :=
  match v with
  | LocalVar i => defs_local st !! i
  | KernelPacket i => defs_packet st !! i
  end.

Definition set_defs (v : VarRef) (d : Division) (st : state) : state :=
  match v with
  | LocalVar i =>
      mkState (<[i := d]> (defs_local st)) (defs_packet st) (Dependencies st)
              (Errors st) (Tasks st) (instcounts st)
  | KernelPacket i =>
      mkState (defs_local st) (<[i := d]> (defs_packet st)) (Dependencies st)
              (Errors st) (Tasks st) (instcounts st)
  end.

Definition add_dependency (d : Dependency) (st : state) : state :=
  mkState (defs_local st) (defs_packet st) (Dependencies st ++ [d])
          (Errors st) (Tasks st) (instcounts st).

Definition add_error (e : error) (st : state) : state :=
  mkState (defs_local st) (defs_packet st) (Dependencies st)
          (Errors st ++ [e]) (Tasks st) (instcounts st).

(** The division of a variable at the start: the whole space without a
    definition.  [None]: [Space(dims)] fails on a negative dimension. *)
Definition initial_division (dims : list Z) (label : option ArgRef) : option Division :=
  if existsb (fun d => d <? 0) dims then None
  else SpaceDivision.AssignSection (Space.of_dims dims) label
                                   (SpaceDivision.create (Space.of_dims dims)).

(** The dummy argument in [mkargs] for the packet [i] of the meta-kernel;
    [None] if [assert(arg.IsValid())] fails. *)
Definition input_arg (i : nat) : option Argument :=
  match KernelPackets !! i with
  | None => None
  | Some packet =>
      match Argument_ctor (KernelPacket i) (Space.of_dims (Packet.ArrayDims_ packet)) with
      | None => None
      | Some arg =>
          if IsValid arg
          then Some (set_Iface (mkIfaceRef Inputs i)
                       (set_RelevantDims (seq 0 (length (Packet.ArrayDims_ packet))) arg))
          else None
      end
  end.

Section Operations.

(** [Operations], with [Iface_] of every argument as the main loop sets it. *)
Variable Operations : list KernelCall.

(** [*pdef] *)
Definition get_arg (pdef : ArgRef) : option Argument :=
  match pdef with
  | MkArg i => input_arg i
  | OpArg k j =>
      match Operations !! k with
      | None => None
      | Some op => set_Iface (mkIfaceRef (OpTask k) j) <$> Args_ op !! j
      end
  end.

(** The anchor at the defining side of a dependency. *)
Definition def_anchor (pdef : ArgRef) (defrange : Space.t) : option Anchor :=
  match get_arg pdef with
  | None => None
  | Some a =>
      match Iface_ a, IndicesAbsToRel defrange (Indices_ a) (RelevantDims_ a) with
      | Some iface, Some index => Some (mkAnchor iface index)
      | _, _ => None
      end
  end.

(** The initialization of [defs]. *)
Definition init_defs : option (list Division * list Division) :=
  match mapM (fun uppacket => initial_division (Packet.ArrayDims_ uppacket) None) Variables,
        mapM (fun ip : nat * Packet.t =>
                let '(i, packet) := ip in
                if bool_decide (Packet.Access_ packet = Packet.out)
                then initial_division (Packet.ArrayDims_ packet) None
                else match input_arg i with
                     | None => None
                     | Some _ => initial_division (Packet.ArrayDims_ packet) (Some (MkArg i))
                     end)
             (imap (fun i packet => (i, packet)) KernelPackets) with
  | Some dl, Some dp => Some (dl, dp)
  | _, _ => None
  end.

(** [Task::FillIfaces] for the task of an operation, with the hints that
    the main loop writes into the interfaces. *)
Definition make_ifaces (op : KernelCall) : option (list Iface) :=
  mapM (fun pa : Packet.t * Argument =>
          let '(packet, arg) := pa in
          match mapM (lookup_derived (DerivedParams_ op)) (Packet.ArrayDims_ packet) with
          | None => None
          | Some dims => Some (mkIface packet dims (Indices_ arg) (BufferHint_ arg))
          end)
       (zip (Kernel.Packets (Callee_ op)) (Args_ op)).

(** [iface->GetPacket()]: [Task::FillIfaces] makes one interface for every
    packet of the kernel of the task; the kernel of [mk.Inputs] and
    [mk.Outputs] is the meta-kernel itself. *)
Definition iface_packet (iface : IfaceRef) : option Packet.t :=
  match IfTask iface with
  | Inputs | Outputs => KernelPackets !! IfIndex iface
  | OpTask k =>
      match Operations !! k with
      | None => None
      | Some op => Kernel.Packets (Callee_ op) !! IfIndex iface
      end
  end.

(** [arg.Iface_->GetPacket()->GetAccessType()] for the argument [j]. *)
Definition demand_access (op : KernelCall) (j : nat) : option Packet.AccessType :=
  Packet.Access_ <$> Kernel.Packets (Callee_ op) !! j.

(** The loop over [subdiv.GetSections()] for one argument that is read. *)
Fixpoint read_sections (taskname varname : string) (to_anchor : Space.t -> option Anchor)
         (sections : list (option ArgRef * Space.t)) (st : state) : option state :=
  match sections with
  | [] => Some st
  | (pdef, defrange) :: sections' =>
      match pdef with
      | None =>
          read_sections taskname varname to_anchor sections'
                        (add_error (UninitializedInput taskname varname defrange) st)
      | Some pd =>
          match def_anchor pd defrange, to_anchor defrange with
          | Some from, Some to =>
              read_sections taskname varname to_anchor sections'
                            (add_dependency (mkDependency from to) st)
          | _, _ => None
          end
      end
  end.

(** The first loop over the arguments of the operation [k]: the inputs. *)
Fixpoint read_args (k : nat) (op : KernelCall) (taskname : string) (j : nat)
         (args : list Argument) (st : state) : option state :=
  match args with
  | [] => Some st
  | arg :: args' =>
      match demand_access op j with
      | None => None
      | Some access =>
          if bool_decide (access = Packet.out)
          then read_args k op taskname (S j) args' st
          else
            match deref (Variable_ arg), defs_at st (Variable_ arg) with
            | Some var, Some vardefs =>
                match SpaceDivision.SubDivision (Indices_ arg) vardefs with
                | None => None
                | Some subdiv =>
                    match read_sections taskname (Packet.Name_ var)
                            (fun defrange =>
                               mkAnchor (mkIfaceRef (OpTask k) j)
                                 <$> IndicesAbsToRel defrange (Indices_ arg) (RelevantDims_ arg))
                            (SpaceDivision.Sections_ subdiv) st with
                    | None => None
                    | Some st' => read_args k op taskname (S j) args' st'
                    end
                end
            | _, _ => None
            end
      end
  end.

(** The second loop over the arguments: the outputs. *)
Fixpoint write_args (k : nat) (op : KernelCall) (j : nat)
         (args : list Argument) (st : state) : option state :=
  match args with
  | [] => Some st
  | arg :: args' =>
      match demand_access op j with
      | None => None
      | Some access =>
          if bool_decide (access = Packet.in_)
          then write_args k op (S j) args' st
          else
            match defs_at st (Variable_ arg) with
            | None => None
            | Some vardefs =>
                match SpaceDivision.AssignSection (Indices_ arg) (Some (OpArg k j)) vardefs with
                | None => None
                | Some vardefs' =>
                    write_args k op (S j) args' (set_defs (Variable_ arg) vardefs' st)
                end
            end
      end
  end.

(** [strprintf("%s[%d]", kernel->Name.c_str(), instcounts[kernel]++)] *)
Definition task_name (kernel : Kernel.t) (count : nat) : string :=
  (Kernel.Name kernel ++ "[" ++ pretty count ++ "]")%string.

(** The body of the main loop for the operation [k]. *)
Definition translate_op (k : nat) (op : KernelCall) (st : state) : option state :=
  let kernel := Callee_ op in
  let count := default O (instcounts st !! Kernel.Addr kernel) in
  let name := task_name kernel count in
  match make_ifaces op with
  | None => None
  | Some ifaces =>
      if negb (Nat.eqb (length (Args_ op)) (length (Kernel.Packets kernel))) then None
      else
        let st0 := mkState (defs_local st) (defs_packet st) (Dependencies st) (Errors st)
                           (Tasks st) (<[Kernel.Addr kernel := S count]> (instcounts st)) in
        match read_args k op name 0 (Args_ op) st0 with
        | None => None
        | Some st1 =>
            match write_args k op 0 (Args_ op) st1 with
            | None => None
            | Some st2 =>
                Some (mkState (defs_local st2) (defs_packet st2) (Dependencies st2)
                              (Errors st2)
                              (Tasks st2 ++ [mkTask kernel name (Params_ op)
                                                    (DerivedParams_ op) ifaces])
                              (instcounts st2))
            end
        end
  end.

Fixpoint translate_ops (k : nat) (ops : list KernelCall) (st : state) : option state :=
  match ops with
  | [] => Some st
  | op :: ops' =>
      match translate_op k op st with
      | None => None
      | Some st' => translate_ops (S k) ops' st'
      end
  end.

(** The loop over the sections of one packet of the meta-kernel at the
    end. *)
Fixpoint output_sections (i : nat) (packet : Packet.t)
         (sections : list (option ArgRef * Space.t)) (st : state) : option state :=
  match sections with
  | [] => Some st
  | (pdef, defrange) :: sections' =>
      match pdef with
      | Some pd =>
          match def_anchor pd defrange with
          | None => None
          | Some from =>
              output_sections i packet sections'
                (add_dependency
                   (mkDependency from (mkAnchor (mkIfaceRef Outputs i) defrange)) st)
          end
      | None =>
          output_sections i packet sections'
            (if bool_decide (Packet.Access_ packet = Packet.out)
             then add_error (UnspecifiedOutput (Packet.Name_ packet) defrange) st
             else st)
      end
  end.

Fixpoint check_outputs (i : nat) (packets : list Packet.t) (st : state) : option state :=
  match packets with
  | [] => Some st
  | packet :: packets' =>
      if bool_decide (Packet.Access_ packet = Packet.in_)
      then check_outputs (S i) packets' st
      else
        match defs_packet st !! i with
        | None => None
        | Some d =>
            match output_sections i packet (SpaceDivision.Sections_ d) st with
            | None => None
            | Some st' => check_outputs (S i) packets' st'
            end
        end
  end.

(** [TranslateToMetaKernel(errors)]: the value returned and the state at
    the end, which starts from [mk.Dependencies], [errors] and [mk.Tasks] as
    they are passed in. *)
Definition TranslateToMetaKernel (deps : list Dependency) (errors : list error)
           (tasks : list Task) : option (bool * state) :=
  if negb (forallb Valid_ Operations)
  then Some (false, mkState [] [] deps errors tasks ∅)
  else
    match init_defs with
    | None => None
    | Some (dl, dp) =>
        match translate_ops 0 Operations (mkState dl dp deps errors tasks ∅) with
        | None => None
        | Some st1 =>
            match check_outputs 0 KernelPackets st1 with
            | None => None
            | Some st2 =>
                Some (match Errors st2 with
                      | [] => true
                      | _ => false
                      end, st2)
            end
        end
    end.

End Operations.

End Resolution.

(** [Dependency::CheckCompatibility], given the packets of the two
    interfaces. *)
Definition CheckCompatibility (frompack topack : Packet.t) (d : Dependency) : bool :=
  BaseType.IsCompatible (Packet.BaseType_ frompack) (Packet.BaseType_ topack)
  && bool_decide (Space.GetEffectiveDimensions (Index (From d))
                  = Space.GetEffectiveDimensions (Index (To d))).

(** [Dependency::GetMemSize], given the packet of the interface at the
    [From] side. *)
Definition GetMemSize (frompack : Packet.t) (d : Dependency) : Z :=
  Space.GetVolume (Index (From d)) * BaseType.Size (Packet.BaseType_ frompack).



End MetaKernelSeq.

(* ===================================================================== *)
(** * Facts about ranges and spaces *)
(* ===================================================================== *)

Section RangeFacts.

Implicit Types (a r x y : Range.t) (z : Z).

Lemma Range_IsEmpty_spec r : Range.IsEmpty r = true <-> forall z, ~ Range.mem z r.
Proof.
  unfold Range.IsEmpty, Range.mem. rewrite Z.leb_le. split.
  - intros H z. lia.
  - intros H. destruct (Z_lt_le_dec (Range.Begin_ r) (Range.End_ r)) as [Hlt|]; [|done].
    exfalso. apply (H (Range.Begin_ r)). lia.
Qed.

Lemma Range_IsEmpty_false r :
  Range.IsEmpty r = false <-> Range.Begin_ r < Range.End_ r.
Proof. unfold Range.IsEmpty. rewrite Z.leb_gt. done. Qed.

Lemma Range_mem_inter a r z :
  Range.mem z (Range.inter a r) <-> Range.mem z a /\ Range.mem z r.
Proof. unfold Range.mem, Range.inter. simpl. lia. Qed.

Lemma Range_mem_union a r z :
  Range.mem z a \/ Range.mem z r -> Range.mem z (Range.union a r).
Proof.
  unfold Range.mem, Range.union, Range.IsEmpty.
  destruct (Z.leb_spec (Range.End_ a) (Range.Begin_ a));
    destruct (Z.leb_spec (Range.End_ r) (Range.Begin_ r)); simpl; lia.
Qed.

Lemma Range_Contains_spec a r :
  Range.Contains a r = true ->
  forall z, Range.mem z r -> Range.mem z a.
Proof.
  unfold Range.Contains, Range.mem. rewrite andb_true_iff, !Z.leb_le. lia.
Qed.

(** [Range::Remove] is the set difference whenever [r] reaches a border
    of [a]. *)
Lemma Range_Remove_border a r z :
  Range.Begin_ r <= Range.Begin_ a \/ Range.End_ a <= Range.End_ r ->
  Range.mem z (Range.Remove a r) <-> Range.mem z a /\ ~ Range.mem z r.
Proof.
  unfold Range.mem, Range.Remove.
  destruct (Z.leb_spec (Range.Begin_ r) (Range.Begin_ a));
    destruct (Z.leb_spec (Range.End_ a) (Range.End_ r)); simpl; lia.
Qed.

(** ... and does nothing when [r] lies strictly inside [a]. *)
Lemma Range_Remove_inside a r :
  Range.Begin_ a < Range.Begin_ r -> Range.End_ r < Range.End_ a ->
  Range.Remove a r = a.
Proof.
  intros H1 H2. unfold Range.Remove.
  destruct (Z.leb_spec (Range.Begin_ r) (Range.Begin_ a)); [lia|].
  destruct (Z.leb_spec (Range.End_ a) (Range.End_ r)); [lia|]. done.
Qed.

End RangeFacts.

(* ===================================================================== *)
(** * Points of spaces *)
(* ===================================================================== *)

Section SpaceFacts.

Implicit Types (a s : Space.t) (p : list Z).

Lemma Space_mem_length p s : Space.mem p s -> length p = length s.
Proof. apply Forall2_length. Qed.

Lemma Space_mem_app p1 p2 s1 s2 :
  Space.mem p1 s1 -> Space.mem p2 s2 -> Space.mem (p1 ++ p2) (s1 ++ s2).
Proof. apply Forall2_app. Qed.

(** A point of [s1 ++ s2] splits into a point of [s1] and a point of [s2]. *)
Lemma Space_mem_app_inv p s1 s2 :
  Space.mem p (s1 ++ s2) ->
  exists p1 p2, p = p1 ++ p2 /\ Space.mem p1 s1 /\ Space.mem p2 s2.
Proof.
  revert p. induction s1 as [|r s1 IH]; intros p H; simpl in *.
  - exists [], p. repeat split; [constructor | done].
  - inversion H as [|x r' p' s' Hx Hrest]; subst.
    destruct (IH _ Hrest) as (p1 & p2 & -> & H1 & H2).
    exists (x :: p1), p2. repeat split; [by constructor | done].
Qed.

Lemma Space_mem_app_inv_l p1 p2 s1 s2 :
  length p1 = length s1 -> Space.mem (p1 ++ p2) (s1 ++ s2) ->
  Space.mem p1 s1 /\ Space.mem p2 s2.
Proof.
  intros Hlen H. apply Space_mem_app_inv in H as (q1 & q2 & Heq & H1 & H2).
  pose proof (Space_mem_length _ _ H1) as Hl1.
  apply app_inj_1 in Heq as [-> ->]; [done | lia].
Qed.

Lemma Space_IsEmpty_no_points s p : Space.IsEmpty s = true -> ~ Space.mem p s.
Proof.
  intros He Hm. induction Hm as [|x r p s Hx Hm IH]; simpl in He; [done|].
  apply orb_true_iff in He as [He|He]; [|by apply IH].
  by apply (proj1 (Range_IsEmpty_spec r) He x).
Qed.

Lemma Space_IsEmpty_app s1 s2 :
  Space.IsEmpty (s1 ++ s2) = Space.IsEmpty s1 || Space.IsEmpty s2.
Proof. apply existsb_app. Qed.

Lemma Space_Clear_length s : length (Space.Clear s) = length s.
Proof. apply length_map. Qed.

Lemma Space_Clear_no_points s p : s <> [] -> ~ Space.mem p (Space.Clear s).
Proof.
  destruct s as [|r s]; [done|]. intros _ H. simpl in H.
  inversion H as [|x r' p' s' Hx Hrest]; subst.
  unfold Range.mem, Range.BeginCount in Hx. simpl in Hx. lia.
Qed.

Lemma Space_mem_zip_inter a s p :
  Space.mem p (zip_with Range.inter a s) -> Space.mem p a /\ Space.mem p s \/ length a <> length s.
Proof.
  revert s p. induction a as [|x a IH]; intros [|y s] p H; simpl in *;
    try (right; lia).
  - left. inversion H. split; constructor.
  - inversion H as [|z r' p' s' Hz Hrest]; subst.
    apply Range_mem_inter in Hz as [Hz1 Hz2].
    destruct (IH _ _ Hrest) as [[H1 H2]|Hne]; [|right; lia].
    left. split; by constructor.
Qed.

Lemma Space_mem_zip_inter_2 a s p :
  Space.mem p a -> Space.mem p s -> Space.mem p (zip_with Range.inter a s).
Proof.
  intros Ha. revert s. induction Ha as [|z x p a Hz Ha IH]; intros s Hs.
  - inversion Hs. constructor.
  - inversion Hs as [|z' y p' s' Hz' Hs']; subst. simpl. constructor.
    + by apply Range_mem_inter.
    + by apply IH.
Qed.

(** What the loop of [operator &=] returns. *)
Lemma Space_inter_loop_spec a s :
  length a = length s ->
  length (fst (Space.inter_loop a s)) = length a /\
  (snd (Space.inter_loop a s) = true ->
   fst (Space.inter_loop a s) = zip_with Range.inter a s /\
   Space.IsEmpty (zip_with Range.inter a s) = false) /\
  (snd (Space.inter_loop a s) = false ->
   a <> [] /\ Space.IsEmpty (zip_with Range.inter a s) = true).
Proof.
  revert s. induction a as [|x a IH]; intros [|y s] Hlen; simpl in *; try lia.
  - done.
  - destruct (Range.IsEmpty (Range.inter x y)) eqn:He; simpl.
    + repeat split; try done.
    + destruct (IH s ltac:(lia)) as (Hl & Ht & Hf).
      destruct (Space.inter_loop a s) as [r ok]. simpl in *.
      split; [lia|]. split.
      * intros ->. destruct (Ht eq_refl) as [-> Hne]. done.
      * intros ->. destruct (Hf eq_refl) as [_ Hemp]. done.
Qed.

Lemma Space_inter_length a s : length a = length s -> length (Space.inter a s) = length a.
Proof.
  intros Hlen. unfold Space.inter.
  destruct (Space_inter_loop_spec a s Hlen) as (Hl & _).
  destruct (Space.inter_loop a s) as [r [|]]; simpl in *; [done|].
  by rewrite Space_Clear_length.
Qed.

(** [operator &=] is the intersection of the point sets. *)
Lemma Space_mem_inter a s p :
  length a = length s ->
  Space.mem p (Space.inter a s) <-> Space.mem p a /\ Space.mem p s.
Proof.
  intros Hlen. unfold Space.inter.
  destruct (Space_inter_loop_spec a s Hlen) as (Hl & Ht & Hf).
  destruct (Space.inter_loop a s) as [r [|]]; simpl in *.
  - destruct (Ht eq_refl) as [-> _]. split.
    + intros H. by destruct (Space_mem_zip_inter _ _ _ H).
    + intros [H1 H2]. by apply Space_mem_zip_inter_2.
  - destruct (Hf eq_refl) as [Hne Hemp]. split.
    + intros H. exfalso. apply (Space_Clear_no_points r p); [|done].
      intros ->. by destruct a.
    + intros [H1 H2]. exfalso.
      apply (Space_IsEmpty_no_points _ p Hemp). by apply Space_mem_zip_inter_2.
Qed.

(** A space that [operator &=] leaves non-empty is the element-wise
    intersection. *)
Lemma Space_inter_nonempty a s :
  length a = length s -> Space.IsEmpty (Space.inter a s) = false ->
  Space.inter a s = zip_with Range.inter a s.
Proof.
  intros Hlen. unfold Space.inter.
  destruct (Space_inter_loop_spec a s Hlen) as (Hl & Ht & Hf).
  destruct (Space.inter_loop a s) as [r [|]]; simpl in *.
  - by destruct (Ht eq_refl) as [-> _].
  - destruct (Hf eq_refl) as [Hne _]. destruct r as [|x r]; [by destruct a|].
    simpl. unfold Range.IsEmpty at 1. simpl. rewrite Z.add_0_r, Z.leb_refl. done.
Qed.

Lemma Space_Overlaps_false a s p :
  Space.Overlaps a s = false -> Space.mem p a -> Space.mem p s -> False.
Proof.
  intros Ho Ha. revert s Ho. induction Ha as [|z x p a Hz Ha IH]; intros s Ho Hs.
  - inversion Hs; subst. done.
  - inversion Hs as [|z' y p' s' Hz' Hs']; subst. simpl in Ho.
    apply andb_false_iff in Ho as [Ho|Ho]; [|by apply (IH s')].
    unfold Range.Overlaps, Range.mem in *.
    apply andb_false_iff in Ho as [Ho|Ho]; apply Z.ltb_ge in Ho; lia.
Qed.

Lemma Space_mem_union a s p :
  length a = length s ->
  Space.mem p a \/ Space.mem p s -> Space.mem p (Space.union a s).
Proof.
  revert s p. induction a as [|x a IH]; intros [|y s] p Hlen H; simpl in *; try lia.
  - by destruct H.
  - assert (exists z p', p = z :: p' /\ (Range.mem z x \/ Range.mem z y) /\
                         (Space.mem p' a \/ Space.mem p' s)) as (z & p' & -> & Hz & Hp).
    { destruct H as [H|H]; inversion H; subst; eauto 10. }
    constructor; [by apply Range_mem_union | apply IH; [lia | done]].
Qed.

Lemma Space_union_length a s : length (Space.union a s) = length a.
Proof.
  revert s. induction a as [|x a IH]; intros [|y s]; simpl; try done. by rewrite IH.
Qed.

End SpaceFacts.

Section SpaceRemove.

Implicit Types (a s : Space.t).

(** [s] contains [a] in every dimension but [d]. *)
Definition contains_except (d : nat) a s : Prop :=
  forall j x y, j <> d -> a !! j = Some x -> s !! j = Some y ->
                Range.Contains y x = true.

(** [d] is the one dimension in which [s] does not contain [a]. *)
Definition sole_mismatch (d : nat) a s : Prop :=
  (exists x y, a !! d = Some x /\ s !! d = Some y /\ Range.Contains y x = false)
  /\ contains_except d a s.

Lemma all2_contained_lookup a s :
  length a = length s ->
  Space.all2 (fun u v => Range.Contains v u) a s = true <->
  (forall j x y, a !! j = Some x -> s !! j = Some y -> Range.Contains y x = true).
Proof.
  revert s. induction a as [|x a IH]; intros [|y s] Hlen; simpl in *; try lia.
  - split; [intros _ j ? ? Hj; by destruct j | done].
  - rewrite andb_true_iff, IH by lia. split.
    + intros [H0 H] [|j] x' y' Hx Hy; simpl in *; [congruence | eauto].
    + intros H. split; [apply (H 0%nat); done | intros j; apply (H (S j))].
Qed.

Lemma Remove_sole_mismatch a s d x y :
  length a = length s ->
  a !! d = Some x -> s !! d = Some y -> Range.Contains y x = false ->
  contains_except d a s ->
  Space.Remove a s = <[d := Range.Remove x y]> a.
Proof.
  revert s d. induction a as [|x0 a IH]; intros [|y0 s] d Hlen Hx Hy Hc Hex;
    simpl in *; try done.
  destruct d as [|d]; simpl in *.
  - injection Hx as ->. injection Hy as ->. rewrite Hc.
    replace (Space.all2 _ a s) with true; [done|].
    symmetry. apply all2_contained_lookup; [lia|].
    intros j x' y' Hx' Hy'. by apply (Hex (S j)).
  - rewrite (Hex 0%nat x0 y0) by done. f_equal.
    apply IH; [lia | done | done | done |].
    intros j x' y' Hj. apply (Hex (S j)). lia.
Qed.

Lemma Remove_no_sole_mismatch a s :
  length a = length s ->
  (forall d, ~ sole_mismatch d a s) ->
  Space.Remove a s = a.
Proof.
  revert s. induction a as [|x a IH]; intros [|y s] Hlen Hno; simpl in *; try done.
  destruct (Range.Contains y x) eqn:Hc.
  - f_equal. apply IH; [lia|]. intros d [(x' & y' & Hx & Hy & Hf) Hex].
    apply (Hno (S d)). split; [by exists x', y'|].
    intros [|j] x1 y1 Hj Hx1 Hy1; simpl in *; [congruence|].
    apply (Hex j); [lia | done | done].
  - destruct (Space.all2 _ a s) eqn:Hall; [|done].
    exfalso. apply (Hno 0%nat). split; [by exists x, y|].
    intros [|j] x1 y1 Hj Hx1 Hy1; [done|].
    simpl in *. eapply all2_contained_lookup; [| exact Hall | exact Hx1 | exact Hy1]. lia.
Qed.

(** C7, as the specification words it: in the one dimension that is not
    contained, the range of [a] loses exactly its intersection with the
    range of [s]; in every other case nothing changes. *)
Definition Remove_claim a s : Prop :=
  (forall d x y,
      a !! d = Some x -> s !! d = Some y -> sole_mismatch d a s ->
      exists x', Space.Remove a s = <[d := x']> a /\
                 forall z, Range.mem z x' <-> Range.mem z x /\ ~ Range.mem z y)
  /\ ((forall d, ~ sole_mismatch d a s) -> Space.Remove a s = a).

(** C7 fails where the range of [s] lies strictly inside the range of [a]:
    removing [3, 5) from [0, 10) leaves [0, 10) as it is, and 3 stays in. *)
Lemma Remove_claim_counterexample :
  ~ Remove_claim [Range.mk 0 10] [Range.mk 3 5].
Proof.
  intros [H _].
  destruct (H 0%nat (Range.mk 0 10) (Range.mk 3 5)) as (x' & Heq & Hmem); try done.
  - split; [by exists (Range.mk 0 10), (Range.mk 3 5)|].
    intros [|j] x y Hj Hx Hy; done.
  - simpl in Heq. injection Heq as <-.
    destruct (Hmem 3) as [Hm _]. unfold Range.mem in Hm. simpl in Hm. lia.
Qed.

(** C7 (amended): for spaces [a] and [s] of equal dimensionality, if [d] is
    the one dimension in which [s] does not contain [a], then [a.Remove(s)]
    replaces the range of that dimension by [Range::Remove] of it, which
    takes the intersection with [s] away whenever the range of [s] reaches a
    border of the range of [a], and changes nothing when the range of [s]
    lies strictly inside; in every other case [a] is left unchanged. *)
Theorem Space_Remove_spec a s :
  length a = length s ->
  (forall d x y,
      a !! d = Some x -> s !! d = Some y -> sole_mismatch d a s ->
      Space.Remove a s = <[d := Range.Remove x y]> a /\
      (Range.Begin_ y <= Range.Begin_ x \/ Range.End_ x <= Range.End_ y ->
       forall z, Range.mem z (Range.Remove x y) <-> Range.mem z x /\ ~ Range.mem z y) /\
      (Range.Begin_ x < Range.Begin_ y /\ Range.End_ y < Range.End_ x ->
       Range.Remove x y = x))
  /\ ((forall d, ~ sole_mismatch d a s) -> Space.Remove a s = a).
Proof.
  intros Hlen. split.
  - intros d x y Hx Hy [(x' & y' & Hx' & Hy' & Hc) Hex].
    assert (x' = x) as -> by congruence. assert (y' = y) as -> by congruence.
    split; [by apply Remove_sole_mismatch|]. split.
    + intros Hb z. by apply Range_Remove_border.
    + intros [H1 H2]. by apply Range_Remove_inside.
  - by apply Remove_no_sole_mismatch.
Qed.

Lemma Space_Remove_spec_witness :
  Space.Remove [Range.mk 0 10; Range.mk 0 4] [Range.mk 0 6; Range.mk 0 4]
  = [Range.mk 6 10; Range.mk 0 4].
Proof.
  pose proof (Space_Remove_spec [Range.mk 0 10; Range.mk 0 4]
                                [Range.mk 0 6; Range.mk 0 4] eq_refl) as [H _].
  destruct (H 0%nat (Range.mk 0 10) (Range.mk 0 6) eq_refl eq_refl) as [Heq _].
  - split; [by exists (Range.mk 0 10), (Range.mk 0 6)|].
    intros [|[|j]] x y Hj Hx Hy; simpl in *; try done.
    injection Hx as <-. by injection Hy as <-.
  - exact Heq.
Defined.

End SpaceRemove.


(* ===================================================================== *)
(** * Space divisions *)
(* ===================================================================== *)

Section RangeSubtractFacts.

Implicit Types (t r d : Range.t) (z : Z).

Lemma RangeSubtract_mem t r d z :
  Range.IsEmpty r = false ->
  d ∈ Range.RangeSubtract t r -> Range.mem z d -> Range.mem z t /\ ~ Range.mem z r.
Proof.
  rewrite Range_IsEmpty_false. intros Hr.
  unfold Range.RangeSubtract, Range.mem, Range.BeginEnd.
  destruct (Z.ltb_spec (Range.Begin_ t) (Range.Begin_ r));
    [destruct (Z.ltb_spec (Range.End_ r) (Range.End_ t));
       [|destruct (Z.leb_spec (Range.End_ t) (Range.Begin_ r))]
    |destruct (Z.leb_spec (Range.End_ t) (Range.End_ r));
       [|destruct (Z.leb_spec (Range.End_ r) (Range.Begin_ t))]];
    intros Hd; repeat (apply elem_of_cons in Hd as [->|Hd]);
    try (by apply elem_of_nil in Hd); simpl; lia.
Qed.

Lemma RangeSubtract_cover t r z :
  Range.mem z t -> ~ Range.mem z r ->
  exists d, d ∈ Range.RangeSubtract t r /\ Range.mem z d.
Proof.
  unfold Range.RangeSubtract, Range.mem, Range.BeginEnd. intros Ht Hr.
  destruct (Z.ltb_spec (Range.Begin_ t) (Range.Begin_ r));
    [destruct (Z.ltb_spec (Range.End_ r) (Range.End_ t));
       [|destruct (Z.leb_spec (Range.End_ t) (Range.Begin_ r))]
    |destruct (Z.leb_spec (Range.End_ t) (Range.End_ r));
       [|destruct (Z.leb_spec (Range.End_ r) (Range.Begin_ t))]].
  - destruct (Z_lt_le_dec z (Range.Begin_ r)).
    + eexists. split; [apply list_elem_of_here|]. simpl. lia.
    + eexists. split; [apply list_elem_of_further, list_elem_of_here|]. simpl. lia.
  - eexists. split; [apply list_elem_of_here|]. lia.
  - eexists. split; [apply list_elem_of_here|]. simpl. lia.
  - lia.
  - eexists. split; [apply list_elem_of_here|]. lia.
  - eexists. split; [apply list_elem_of_here|]. simpl. lia.
Qed.

Lemma RangeSubtract_nonempty t r d :
  Range.IsEmpty t = false -> d ∈ Range.RangeSubtract t r -> Range.IsEmpty d = false.
Proof.
  rewrite !Range_IsEmpty_false. unfold Range.RangeSubtract, Range.BeginEnd. intros Ht.
  destruct (Z.ltb_spec (Range.Begin_ t) (Range.Begin_ r));
    [destruct (Z.ltb_spec (Range.End_ r) (Range.End_ t));
       [|destruct (Z.leb_spec (Range.End_ t) (Range.Begin_ r))]
    |destruct (Z.leb_spec (Range.End_ t) (Range.End_ r));
       [|destruct (Z.leb_spec (Range.End_ r) (Range.Begin_ t))]];
    intros Hd; repeat (apply elem_of_cons in Hd as [->|Hd]);
    try (by apply elem_of_nil in Hd); simpl; lia.
Qed.

(** Two different results of one subtraction share no integer. *)
Lemma RangeSubtract_disjoint t r :
  Range.IsEmpty r = false ->
  ForallOrdPairs (fun d1 d2 => forall z, Range.mem z d1 -> Range.mem z d2 -> False)
                 (Range.RangeSubtract t r).
Proof.
  rewrite Range_IsEmpty_false. unfold Range.RangeSubtract, Range.BeginEnd. intros Hr.
  destruct (Z.ltb_spec (Range.Begin_ t) (Range.Begin_ r));
    [destruct (Z.ltb_spec (Range.End_ r) (Range.End_ t));
       [|destruct (Z.leb_spec (Range.End_ t) (Range.Begin_ r))]
    |destruct (Z.leb_spec (Range.End_ t) (Range.End_ r));
       [|destruct (Z.leb_spec (Range.End_ r) (Range.Begin_ t))]];
    repeat constructor.
  unfold Range.mem. simpl. lia.
Qed.

Lemma Range_Overlaps_inter_nonempty t r :
  Range.IsEmpty t = false -> Range.IsEmpty r = false -> Range.Overlaps t r = true ->
  Range.IsEmpty (Range.inter t r) = false.
Proof.
  rewrite !Range_IsEmpty_false. unfold Range.Overlaps, Range.inter. simpl.
  rewrite andb_true_iff, !Z.ltb_lt. lia.
Qed.

End RangeSubtractFacts.

Section DivisionFacts.

Context {A : Type} `{EqDecision A}.

Implicit Types (e : A * Space.t) (l : list (A * Space.t)) (d : SpaceDivision.t A)
         (p : list Z).

(** Two spaces without a common point. *)
Definition disjoint (s1 s2 : Space.t) : Prop :=
  forall p, Space.mem p s1 -> Space.mem p s2 -> False.

(** No two entries of the list share a point. *)
Definition pairwise_disjoint l : Prop :=
  ForallOrdPairs (fun e1 e2 => disjoint (snd e1) (snd e2)) l.

Lemma disjoint_sym s1 s2 : disjoint s1 s2 -> disjoint s2 s1.
Proof. intros H p H1 H2. exact (H p H2 H1). Qed.

Lemma pairwise_disjoint_app l1 l2 :
  pairwise_disjoint (l1 ++ l2) <->
  pairwise_disjoint l1 /\ pairwise_disjoint l2 /\
  (forall e1 e2, e1 ∈ l1 -> e2 ∈ l2 -> disjoint (snd e1) (snd e2)).
Proof.
  unfold pairwise_disjoint. induction l1 as [|e l1 IH]; simpl.
  - split.
    + intros H. repeat split; [constructor | done |]. intros e1 e2 He1. by apply elem_of_nil in He1.
    + by intros (_ & H & _).
  - split.
    + intros H. inversion H as [|e' l' Hfa Hrest]; subst.
      apply IH in Hrest as (H1 & H2 & H12). apply List.Forall_app in Hfa as [Hfa1 Hfa2].
      repeat split; [by constructor | done |].
      intros e1 e2 He1 He2. apply elem_of_cons in He1 as [->|He1]; [|by apply H12].
      rewrite List.Forall_forall in Hfa2. apply Hfa2. by apply list_elem_of_In.
    + intros (H1 & H2 & H12). inversion H1 as [|e' l' Hfa Hrest]; subst.
      constructor.
      * apply List.Forall_app. split; [done|]. apply List.Forall_forall.
        intros e2 He2. apply H12; [apply list_elem_of_here | by apply list_elem_of_In].
      * apply IH. repeat split; [done | done |].
        intros e1 e2 He1 He2. apply H12; [by apply list_elem_of_further | done].
Qed.

Lemma pairwise_disjoint_lookup l i j e1 e2 :
  pairwise_disjoint l -> i <> j -> l !! i = Some e1 -> l !! j = Some e2 ->
  disjoint (snd e1) (snd e2).
Proof.
  intros Hpd. revert i j. induction Hpd as [|e l Hfa Hpd IH]; intros i j Hij Hi Hj.
  - done.
  - rewrite List.Forall_forall in Hfa. destruct i as [|i], j as [|j]; simpl in *; try done.
    + injection Hi as <-. apply Hfa. eapply list_elem_of_In, list_elem_of_lookup_2, Hj.
    + injection Hj as <-. apply disjoint_sym, Hfa.
      eapply list_elem_of_In, list_elem_of_lookup_2, Hi.
    + apply (IH i j); [lia | done | done].
Qed.

(** Replacing every entry by pieces of itself keeps the entries apart. *)
Lemma pairwise_disjoint_flat_map (f : A * Space.t -> list (A * Space.t)) l :
  pairwise_disjoint l ->
  (forall e, e ∈ l -> pairwise_disjoint (f e)) ->
  (forall e e', e ∈ l -> e' ∈ f e -> forall p, Space.mem p (snd e') -> Space.mem p (snd e)) ->
  pairwise_disjoint (flat_map f l).
Proof.
  intros Hpd. induction Hpd as [|e l Hfa Hpd IH]; intros Hf Hsub; simpl.
  - constructor.
  - apply pairwise_disjoint_app. split; [apply Hf, list_elem_of_here|]. split.
    + apply IH.
      * intros e0 He0. by apply Hf, list_elem_of_further.
      * intros e0 e' He0. by apply Hsub, list_elem_of_further.
    + intros e1 e2 He1 He2 p Hp1 Hp2.
      apply list_elem_of_In, in_flat_map in He2 as (e0 & He0 & He2).
      rewrite List.Forall_forall in Hfa.
      apply (Hfa e0 He0 p).
      * by apply (Hsub e e1); [apply list_elem_of_here|..].
      * apply (Hsub e0 e2); [by apply list_elem_of_further, list_elem_of_In | by apply list_elem_of_In | done].
Qed.

Lemma pairwise_disjoint_filter (f : A * Space.t -> bool) l :
  pairwise_disjoint l -> pairwise_disjoint (List.filter f l).
Proof.
  intros Hpd. induction Hpd as [|e l Hfa Hpd IH]; simpl; [constructor|].
  destruct (f e); [|done]. constructor; [|done].
  rewrite List.Forall_forall in *. intros e' He'. apply filter_In in He' as [He' _]. by apply Hfa.
Qed.

(** A point of [done ++ x :: rest], taken apart. *)
Lemma Space_mem_middle p (done rest : Space.t) (x : Range.t) :
  Space.mem p (done ++ x :: rest) ->
  exists p1 z p2, p = p1 ++ z :: p2 /\ length p1 = length done /\
                  Space.mem p1 done /\ Range.mem z x /\ Space.mem p2 rest.
Proof.
  intros H. apply Space_mem_app_inv in H as (p1 & q & -> & H1 & H2).
  inversion H2 as [|z x' p2 rest' Hz Hrest]; subst.
  exists p1, z, p2. split; [done|]. split; [by apply Space_mem_length|]. done.
Qed.

Lemma middle_inj {B : Type} (p1 q1 p2 q2 : list B) (z w : B) :
  length p1 = length q1 -> p1 ++ z :: p2 = q1 ++ w :: q2 -> p1 = q1 /\ z = w /\ p2 = q2.
Proof.
  intros Hlen Heq. apply app_inj_1 in Heq as [-> Heq]; [|done].
  by injection Heq as -> ->.
Qed.

End DivisionFacts.

Section TrimFacts.

Context {A : Type} `{EqDecision A}.

Import SpaceDivision.

Implicit Types (e : A * Space.t) (l : list (A * Space.t)) (p : list Z)
         (done trim remove : Space.t).

Lemma TrimLoop_elem (assign : A) done trim remove e :
  e ∈ TrimLoop assign done trim remove ->
  fst e = assign /\ length (snd e) = (length done + length trim)%nat.
Proof.
  revert done remove. induction trim as [|t trim IH]; intros done [|r remove] He;
    simpl in He; try (by apply elem_of_nil in He).
  apply elem_of_app in He as [He|He].
  - apply list_elem_of_fmap in He as (d & -> & _). simpl. split; [done|].
    rewrite length_app. simpl. lia.
  - apply IH in He as [-> Hl]. split; [done|]. rewrite Hl, length_app. simpl. lia.
Qed.

(** A point of a fragment lies in the trimmed entry, and its coordinates
    from dimension [length done] on are not all in [remove]. *)
Lemma TrimLoop_mem (assign : A) done trim remove e p :
  Space.IsEmpty remove = false ->
  e ∈ TrimLoop assign done trim remove -> Space.mem p (snd e) ->
  exists p1 p2, p = p1 ++ p2 /\ length p1 = length done /\
                Space.mem p1 done /\ Space.mem p2 trim /\ ~ Space.mem p2 remove.
Proof.
  revert done remove. induction trim as [|t trim IH]; intros done [|r remove] Hne He Hp;
    simpl in He; try (by apply elem_of_nil in He).
  simpl in Hne. apply orb_false_iff in Hne as [Hr Hne].
  apply elem_of_app in He as [He|He].
  - apply list_elem_of_fmap in He as (d & -> & Hd). simpl in Hp.
    apply Space_mem_middle in Hp as (p1 & z & p2 & -> & Hl & H1 & Hz & H2).
    destruct (RangeSubtract_mem t r d z Hr Hd Hz) as [Hzt Hzr].
    exists p1, (z :: p2). repeat split; try done.
    + by constructor.
    + intros Hrem. inversion Hrem; subst. done.
  - destruct (IH _ _ Hne He Hp) as (q1 & q2 & -> & Hl & H1 & H2 & Hnot).
    apply Space_mem_app_inv in H1 as (p1 & pz & -> & H1 & Hz).
    inversion Hz as [|z x pz' s' Hzx Hnil]; subst. inversion Hnil; subst.
    apply Range_mem_inter in Hzx as [Hzt Hzr].
    exists p1, (z :: q2). rewrite <- app_assoc. simpl. repeat split; try done.
    + by apply Space_mem_length.
    + by constructor.
    + intros Hrem. inversion Hrem; subst. done.
Qed.

(** Every point of the entry outside [remove] is in some fragment. *)
Lemma TrimLoop_cover (assign : A) done trim remove p1 p2 :
  length trim = length remove ->
  Space.mem p1 done -> Space.mem p2 trim -> ~ Space.mem p2 remove ->
  exists s, (assign, s) ∈ TrimLoop assign done trim remove /\ Space.mem (p1 ++ p2) s.
Proof.
  revert done remove p1 p2.
  induction trim as [|t trim IH]; intros done [|r remove] p1 p2 Hlen H1 H2 Hnot;
    simpl in Hlen; try lia.
  - inversion H2; subst. exfalso. apply Hnot. constructor.
  - inversion H2 as [|z t' p2' trim' Hzt H2']; subst. simpl.
    destruct (decide (Range.Begin_ r <= z < Range.End_ r)) as [Hzr|Hzr].
    + destruct (IH (done ++ [Range.inter t r]) remove (p1 ++ [z]) p2') as (s & Hs & Hm).
      * lia.
      * apply Space_mem_app; [done|]. constructor; [|constructor].
        by apply Range_mem_inter.
      * done.
      * intros Hrem. apply Hnot. by constructor.
      * exists s. split; [apply elem_of_app; by right|].
        by rewrite <- app_assoc in Hm.
    + destruct (RangeSubtract_cover t r z Hzt Hzr) as (d & Hd & Hzd).
      exists (done ++ d :: trim). split.
      * apply elem_of_app. left. apply list_elem_of_fmap. by exists d.
      * apply Space_mem_app; [done|]. by constructor.
Qed.

Lemma TrimLoop_nonempty (assign : A) done trim remove e :
  Space.IsEmpty done = false -> Space.IsEmpty trim = false ->
  Space.IsEmpty remove = false -> Space.Overlaps trim remove = true ->
  e ∈ TrimLoop assign done trim remove -> Space.IsEmpty (snd e) = false.
Proof.
  revert done remove. induction trim as [|t trim IH]; intros done [|r remove] Hd Ht Hr Ho He;
    simpl in He; try (by apply elem_of_nil in He).
  simpl in Ht, Hr, Ho.
  apply orb_false_iff in Ht as [Ht Ht']. apply orb_false_iff in Hr as [Hr Hr'].
  apply andb_true_iff in Ho as [Ho Ho'].
  apply elem_of_app in He as [He|He].
  - apply list_elem_of_fmap in He as (d & -> & Hdd). simpl.
    rewrite Space_IsEmpty_app, Hd. simpl.
    by rewrite (RangeSubtract_nonempty t r d Ht Hdd).
  - apply (IH (done ++ [Range.inter t r]) remove); try done.
    rewrite Space_IsEmpty_app, Hd. simpl.
    by rewrite Range_Overlaps_inter_nonempty.
Qed.

Lemma TrimLoop_disjoint (assign : A) done trim remove :
  Space.IsEmpty remove = false ->
  pairwise_disjoint (TrimLoop assign done trim remove).
Proof.
  revert done remove. induction trim as [|t trim IH]; intros done [|r remove] Hne;
    simpl; try constructor.
  simpl in Hne. apply orb_false_iff in Hne as [Hr Hne].
  apply pairwise_disjoint_app. split; [|split].
  - pose proof (RangeSubtract_disjoint t r Hr) as Hpd.
    induction Hpd as [|d ds Hfa Hpd IHd]; simpl; [constructor|].
    constructor; [|done]. rewrite List.Forall_forall in *.
    intros e He. apply in_map_iff in He as (d' & <- & Hd'). simpl.
    intros p Hp1 Hp2.
    apply Space_mem_middle in Hp1 as (p1 & z & p2 & -> & Hl & _ & Hz & _).
    apply Space_mem_middle in Hp2 as (q1 & w & q2 & Heq & Hl' & _ & Hw & _).
    apply middle_inj in Heq as (_ & -> & _); [|lia].
    by apply (Hfa d' Hd' w).
  - by apply IH.
  - intros e1 e2 He1 He2 p Hp1 Hp2.
    apply list_elem_of_fmap in He1 as (d & -> & Hd). simpl in Hp1.
    apply Space_mem_middle in Hp1 as (p1 & z & p2 & -> & Hl & _ & Hz & _).
    destruct (TrimLoop_mem _ _ _ _ _ _ Hne He2 Hp2) as (q1 & q2 & Heq & Hl' & Hq1 & _).
    apply Space_mem_app_inv in Hq1 as (q1' & qz & -> & Hq1' & Hqz).
    inversion Hqz as [|w x pz' s' Hwx Hnil]; subst. inversion Hnil; subst.
    rewrite <- app_assoc in Heq. simpl in Heq.
    apply middle_inj in Heq as (_ & -> & _);
      [|rewrite Hl; by apply eq_sym, Space_mem_length].
    apply Range_mem_inter in Hwx as [_ Hwr].
    by destruct (RangeSubtract_mem t r d w Hr Hd Hz).
Qed.

End TrimFacts.

Section DivisionInvariant.

Context {A : Type} `{EqDecision A}.

Import SpaceDivision.

Implicit Types (e : A * Space.t) (l : list (A * Space.t)) (p : list Z)
         (d : SpaceDivision.t A) (sec full : Space.t).

(** What [AssignSection] does with one entry. *)
Definition trim_or_keep sec e : list (A * Space.t) :=
  if Space.Overlaps (snd e) sec then TrimSection e sec else [e].

(** An entry as the class keeps it: of the dimensionality of the bounding
    space, not empty, and inside the bounding space. *)
Definition entry_ok full e : Prop :=
  length (snd e) = length full /\
  Space.IsEmpty (snd e) = false /\
  forall p, Space.mem p (snd e) -> Space.mem p full.

Definition Inv d : Prop :=
  Forall (entry_ok (FullSpace_ d)) (Sections_ d) /\
  pairwise_disjoint (Sections_ d).

Lemma trim_or_keep_spec sec e e' :
  Space.IsEmpty (snd e) = false -> Space.IsEmpty sec = false ->
  e' ∈ trim_or_keep sec e ->
  fst e' = fst e /\ length (snd e') = length (snd e) /\
  Space.IsEmpty (snd e') = false /\
  forall p, Space.mem p (snd e') -> Space.mem p (snd e) /\ ~ Space.mem p sec.
Proof.
  intros Hne Hsec. unfold trim_or_keep, TrimSection.
  destruct (Space.Overlaps (snd e) sec) eqn:Ho; intros He'.
  - destruct (TrimLoop_elem _ _ _ _ _ He') as [Hl Hlen].
    split; [done|]. split; [done|]. split.
    + by apply (TrimLoop_nonempty (fst e) [] (snd e) sec).
    + intros p Hp.
      destruct (TrimLoop_mem _ _ _ _ _ _ Hsec He' Hp) as (p1 & p2 & -> & Hl1 & _ & H2 & Hnot).
      destruct p1; [|done]. done.
  - apply list_elem_of_singleton in He' as ->.
    split; [done|]. split; [done|]. split; [done|].
    intros p Hp. split; [done|]. intros Hs. by apply (Space_Overlaps_false _ _ _ Ho Hp).
Qed.

Lemma trim_or_keep_cover sec e p :
  length (snd e) = length sec ->
  Space.mem p (snd e) -> ~ Space.mem p sec ->
  exists s, (fst e, s) ∈ trim_or_keep sec e /\ Space.mem p s.
Proof.
  intros Hlen Hp Hnot. unfold trim_or_keep, TrimSection.
  destruct (Space.Overlaps (snd e) sec).
  - destruct (TrimLoop_cover (fst e) [] (snd e) sec [] p Hlen) as (s & Hs & Hm);
      [constructor | done | done |].
    by exists s.
  - exists (snd e). split; [|done]. destruct e. apply list_elem_of_here.
Qed.

Lemma trim_or_keep_disjoint sec e :
  Space.IsEmpty sec = false -> pairwise_disjoint (trim_or_keep sec e).
Proof.
  intros Hsec. unfold trim_or_keep, TrimSection.
  destruct (Space.Overlaps (snd e) sec); [by apply TrimLoop_disjoint|].
  repeat constructor.
Qed.

Lemma same_dims_ok full sec l :
  Forall (entry_ok full) l -> length sec = length full -> same_dims sec l = true.
Proof.
  intros Hall Hlen. unfold same_dims. apply forallb_forall. intros e He.
  rewrite Forall_forall in Hall. apply list_elem_of_In, Hall in He as (Hl & _).
  apply Nat.eqb_eq. lia.
Qed.

(** The two ways in which [AssignSection] returns. *)
Lemma AssignSection_Some sec (a : A) d d' :
  AssignSection sec a d = Some d' ->
  length sec = length (FullSpace_ d) /\
  (Space.IsEmpty (Space.inter sec (FullSpace_ d)) = true /\ d' = d \/
   Space.IsEmpty (Space.inter sec (FullSpace_ d)) = false /\
   d' = mk (FullSpace_ d)
           (flat_map (trim_or_keep (Space.inter sec (FullSpace_ d))) (Sections_ d)
            ++ [(a, Space.inter sec (FullSpace_ d))])).
Proof.
  unfold AssignSection.
  destruct (Nat.eqb_spec (length (FullSpace_ d)) (length sec)) as [Hlen|]; [|done]. simpl.
  destruct (Space.IsEmpty _) eqn:He.
  - intros [= <-]. split; [done|]. by left.
  - destruct (same_dims _ _); [|done]. simpl. intros [= <-]. split; [done|]. by right.
Qed.

(** [AssignSection] returns whenever the dimensions agree. *)
Lemma AssignSection_total sec (a : A) d :
  Inv d -> length sec = length (FullSpace_ d) ->
  exists d', AssignSection sec a d = Some d'.
Proof.
  intros [Hall _] Hlen. unfold AssignSection.
  rewrite (proj2 (Nat.eqb_eq _ _) (eq_sym Hlen)). simpl.
  destruct (Space.IsEmpty _); [by eexists|].
  rewrite (same_dims_ok (FullSpace_ d)); [by eexists | done |].
  by rewrite Space_inter_length.
Qed.

Lemma AssignSection_Inv sec (a : A) d d' :
  Inv d -> AssignSection sec a d = Some d' -> Inv d'.
Proof.
  intros [Hall Hpd] Hsome.
  apply AssignSection_Some in Hsome as [Hlen [[_ ->]|[Hne ->]]]; [done|].
  set (sec' := Space.inter sec (FullSpace_ d)) in *.
  assert (length sec' = length (FullSpace_ d)) as Hlen'
      by (unfold sec'; rewrite Space_inter_length; done).
  rewrite Forall_forall in Hall.
  assert (forall e e', e ∈ Sections_ d -> e' ∈ trim_or_keep sec' e ->
            entry_ok (FullSpace_ d) e' /\
            forall p, Space.mem p (snd e') -> Space.mem p (snd e) /\ ~ Space.mem p sec')
    as Hfrag.
  { intros e e' He He'. destruct (Hall e He) as (Hl & Hn & Hsub).
    destruct (trim_or_keep_spec sec' e e' Hn Hne He') as (_ & Hl' & Hn' & Hm).
    split; [|done]. split; [lia|]. split; [done|]. intros p Hp. by apply Hsub, Hm. }
  split; simpl.
  - apply Forall_app. split.
    + apply Forall_forall. intros e' He'.
      apply list_elem_of_In, in_flat_map in He' as (e & He & He').
      by apply (Hfrag e e'); apply list_elem_of_In.
    + constructor; [|constructor]. split; [done|]. split; [done|].
      intros p Hp. by apply Space_mem_inter in Hp as [_ Hp].
  - apply pairwise_disjoint_app. split; [|split].
    + apply pairwise_disjoint_flat_map; [done | |].
      * intros e _. by apply trim_or_keep_disjoint.
      * intros e e' He He' p Hp. by apply (Hfrag e e' He He').
    + repeat constructor.
    + intros e1 e2 He1 He2 p Hp1 Hp2.
      apply list_elem_of_singleton in He2 as ->. simpl in Hp2.
      apply list_elem_of_In, in_flat_map in He1 as (e & He & He1).
      apply list_elem_of_In in He, He1.
      by destruct (Hfrag e e1 He He1) as [_ Hm]; destruct (Hm p Hp1).
Qed.

Lemma Unassign_Inv (a : A) d : Inv d -> Inv (Unassign a d).
Proof.
  intros [Hall Hpd]. split; simpl.
  - rewrite Forall_forall in *. intros e He.
    apply list_elem_of_In, filter_In in He as [He _]. by apply Hall, list_elem_of_In.
  - by apply pairwise_disjoint_filter.
Qed.

Lemma SubDivision_Inv sub d d' :
  Inv d -> SubDivision sub d = Some d' -> Inv d'.
Proof.
  intros [Hall Hpd]. unfold SubDivision.
  destruct (Nat.eqb_spec (length sub) (length (FullSpace_ d))) as [Hlen|]; [|done]. simpl.
  destruct (same_dims _ _); [|done]. simpl. intros [= <-].
  rewrite Forall_forall in Hall.
  split; simpl.
  - apply Forall_forall. intros e' He'.
    apply list_elem_of_In, in_flat_map in He' as (e & He & He').
    apply list_elem_of_In, Hall in He as (Hl & _ & _).
    destruct (Space.IsEmpty _) eqn:Hemp; [done|]. destruct He' as [<-|[]].
    unfold entry_ok. simpl.
    split; [rewrite Space_inter_length; lia|]. split; [done|].
    intros p Hp. apply Space_mem_inter in Hp as [_ Hp]; [done | lia].
  - apply pairwise_disjoint_flat_map; [done | |].
    + intros e _. destruct (Space.IsEmpty _); repeat constructor.
    + intros e e' He He' p Hp. apply Hall in He as (Hl & _ & _).
      destruct (Space.IsEmpty _); [by apply elem_of_nil in He'|].
      apply list_elem_of_singleton in He' as ->. simpl in Hp.
      apply Space_mem_inter in Hp as [Hp _]; [done | lia].
Qed.

Lemma create_Inv full : Inv (@create A full).
Proof. split; simpl; constructor. Qed.

Lemma run_Inv (ops : list (op A)) d d' : Inv d -> run ops d = Some d' -> Inv d'.
Proof.
  revert d. induction ops as [|o ops IH]; intros d Hinv Hrun; simpl in Hrun.
  - by injection Hrun as <-.
  - destruct (apply o d) as [d1|] eqn:Hap; [|done].
    apply (IH d1); [|done]. destruct o; simpl in Hap.
    + by apply (AssignSection_Inv sec assign d).
    + injection Hap as <-. by apply Unassign_Inv.
    + by apply (SubDivision_Inv subspace d).
Qed.

Lemma fold_union_mem (rg : list (A * Space.t)) (acc : Space.t) p :
  (forall e, e ∈ rg -> length (snd e) = length acc) ->
  Space.mem p acc \/ (exists e, e ∈ rg /\ Space.mem p (snd e)) ->
  Space.mem p (fold_left (fun ret it => Space.union ret (snd it)) rg acc).
Proof.
  revert acc. induction rg as [|x rg IH]; intros acc Hlen Hp; simpl.
  - destruct Hp as [Hp|(e & He & _)]; [done | by apply elem_of_nil in He].
  - apply IH.
    + intros e He. rewrite Space_union_length. by apply Hlen, list_elem_of_further.
    + destruct Hp as [Hp|(e & He & Hp)].
      * left. apply Space_mem_union; [symmetry; apply Hlen, list_elem_of_here | by left].
      * apply elem_of_cons in He as [->|He]; [|right; by exists e].
        left. apply Space_mem_union; [symmetry; apply Hlen, list_elem_of_here | by right].
Qed.

(** The envelope of a label covers every entry of that label. *)
Lemma GetEnvelope_mem (a : A) d s p :
  Inv d -> (a, s) ∈ Sections_ d -> Space.mem p s -> Space.mem p (GetEnvelope a d).
Proof.
  intros [Hall _] Hin Hp. unfold GetEnvelope.
  assert ((a, s) ∈ List.filter (fun e => bool_decide (fst e = a)) (Sections_ d)) as Hf.
  { apply list_elem_of_In, filter_In. split; [by apply list_elem_of_In|].
    by apply bool_decide_eq_true. }
  assert (forall e, e ∈ List.filter (fun e => bool_decide (fst e = a)) (Sections_ d) ->
                    length (snd e) = length (FullSpace_ d)) as Hlen.
  { intros e He. apply list_elem_of_In, filter_In in He as [He _].
    rewrite Forall_forall in Hall. by apply list_elem_of_In, Hall in He as (Hl & _). }
  destruct (List.filter _ _) as [|e rg]; [by apply elem_of_nil in Hf|].
  apply fold_union_mem.
  - intros e' He'. rewrite (Hlen e'), (Hlen e); [done | apply list_elem_of_here |].
    by apply list_elem_of_further.
  - apply elem_of_cons in Hf as [<-|Hf]; [by left|]. right. by exists (a, s).
Qed.

(** C4: whatever sequence of [AssignSection], [Unassign] and [SubDivision]
    has led from a new division to [d], every stored space lies inside the
    bounding space of [d] and no two stored spaces share a point; and when
    [AssignSection(s, a)] is then applied, the envelope of [a] covers the
    intersection of [s] with the bounding space.  [AssignSection] returns
    for every [s] of the dimensionality of the bounding space. *)
Theorem SpaceDivision_invariants full (ops : list (op A)) d :
  run ops (create full) = Some d ->
  (forall e p, e ∈ Sections_ d -> Space.mem p (snd e) -> Space.mem p (FullSpace_ d)) /\
  (forall i j e1 e2 p,
      i <> j -> Sections_ d !! i = Some e1 -> Sections_ d !! j = Some e2 ->
      Space.mem p (snd e1) -> Space.mem p (snd e2) -> False) /\
  (forall s (a : A),
      length s = length (FullSpace_ d) ->
      exists d', AssignSection s a d = Some d' /\
                 forall p, Space.mem p (Space.inter s (FullSpace_ d)) ->
                           Space.mem p (GetEnvelope a d')).
Proof.
  intros Hrun. assert (Inv d) as Hinv by (eapply run_Inv, Hrun; apply create_Inv).
  split; [|split].
  - intros e p He Hp. destruct Hinv as [Hall _]. rewrite Forall_forall in Hall.
    by apply (Hall e He).
  - intros i j e1 e2 p Hij H1 H2. destruct Hinv as [_ Hpd].
    by apply (pairwise_disjoint_lookup _ i j e1 e2 Hpd).
  - intros s a Hlen. destruct (AssignSection_total s a d Hinv Hlen) as [d' Hd'].
    exists d'. split; [done|]. intros p Hp.
    pose proof (AssignSection_Inv _ _ _ _ Hinv Hd') as Hinv'.
    apply AssignSection_Some in Hd' as [_ [[Hemp _]|[_ ->]]].
    + by destruct (Space_IsEmpty_no_points _ p Hemp).
    + apply (GetEnvelope_mem a _ (Space.inter s (FullSpace_ d))); [done | | done].
      simpl. apply elem_of_app. right. apply list_elem_of_here.
Qed.

End DivisionInvariant.

Lemma SpaceDivision_invariants_witness :
  exists d', SpaceDivision.AssignSection [Range.mk 2 6] 7%nat
               (SpaceDivision.mk [Range.mk 0 10] [(3%nat, [Range.mk 0 4])]) = Some d' /\
             forall p, Space.mem p (Space.inter [Range.mk 2 6] [Range.mk 0 10]) ->
                       Space.mem p (SpaceDivision.GetEnvelope 7%nat d').
Proof.
  apply (proj2 (proj2 (SpaceDivision_invariants
                         [Range.mk 0 10]
                         [SpaceDivision.OpAssignSection [Range.mk 0 4] 3%nat]
                         (SpaceDivision.mk [Range.mk 0 10] [(3%nat, [Range.mk 0 4])])
                         eq_refl))).
  reflexivity.
Defined.

(* ===================================================================== *)
(** * Occupation charts *)
(* ===================================================================== *)

Section OccupationChartFacts.

Import OccupationChart.

(** The chart that holds 3 units during [0, 5) and nothing afterwards. *)
Definition chart_3_until_5 : OccupationChart.t := mk 10 [(0, 3); (5, 0)].

(** C1 is not what [Occupy] does.  On a new chart of capacity 10 the call
    [Occupy(5, 10, 1)] stops at [assert(itfrom != Entries_.end())].  On the
    chart with 3 units during [0, 5) the call [Occupy(2, 4, 1)] returns
    true, but the samples of [2, 4) become 1 instead of 4: the loop runs up
    to [upper_bound(from)] instead of [lower_bound(to)], and the new entry
    at [from] is computed from the entry behind [from]. *)
Theorem Occupy_wrong_samples :
  Occupy 5 10 1 (create 10) = None /\
  sample chart_3_until_5 2 = Some 3 /\
  sample chart_3_until_5 3 = Some 3 /\
  Occupy 2 4 1 chart_3_until_5
  = Some (true, mk 10 [(0, 3); (2, 1); (4, 3); (5, 0)]) /\
  sample (mk 10 [(0, 3); (2, 1); (4, 3); (5, 0)]) 2 = Some 1 /\
  sample (mk 10 [(0, 3); (2, 1); (4, 3); (5, 0)]) 3 = Some 1.
Proof. repeat split; reflexivity. Qed.

(** C2 is not what [Unoccupy] does.  On the chart with 3 units during
    [0, 5) no sample of [2, 4) would drop below zero when 1 is taken off,
    yet [Unoccupy(2, 4, 1)] returns false: the value for the new entry at
    [from] is read from the entry behind [from] and compared with the
    capacity instead of zero.  On a new chart [Unoccupy(5, 10, 0)] stops at
    the assertion. *)
Theorem Unoccupy_wrong_refusal :
  sample chart_3_until_5 2 = Some 3 /\
  sample chart_3_until_5 3 = Some 3 /\
  Unoccupy 2 4 1 chart_3_until_5 = Some (false, chart_3_until_5) /\
  Unoccupy 5 10 0 (create 10) = None.
Proof. repeat split; reflexivity. Qed.

End OccupationChartFacts.

(* ===================================================================== *)
(** * Reachability *)
(* ===================================================================== *)

Section ReachabilityFacts.

Import Graph.

(** The path 1 -> 3 -> 2 -> 4 in a graph whose nodes are listed as
    1, 2, 3, 4. *)
Definition zigzag : Graph.t := mk [1; 2; 3; 4]%nat [(1, 3); (3, 2); (2, 4)]%nat.

Lemma zigzag_wf : wf zigzag.
Proof.
  split.
  - apply (bool_decide_unpack _). by vm_compute.
  - intros e He. simpl in He.
    repeat (apply elem_of_cons in He as [->|He]);
      [| | | by apply elem_of_nil in He];
      split; apply (bool_decide_unpack _); by vm_compute.
Qed.

Lemma zigzag_reachable : reachable zigzag 1 4.
Proof.
  apply reach_step with 3%nat; [apply (bool_decide_unpack _); by vm_compute|].
  apply reach_step with 2%nat; [apply (bool_decide_unpack _); by vm_compute|].
  apply reach_edge. apply (bool_decide_unpack _). by vm_compute.
Qed.

(** C3 does not hold for [ReachabilityMatrix]: it runs the two inner loops
    of the Floyd-Warshall algorithm only.  In the graph above node 4 can be
    reached from node 1, but the set computed for node 1 is {2, 3}: when
    node 2 enters that set, the loop has already passed node 2. *)
Theorem ReachabilityMatrix_incomplete :
  wf zigzag /\
  reachable zigzag 1 4 /\
  at_ (ReachabilityMatrix zigzag) 1 = {[2; 3]}%nat /\
  4%nat ∉ at_ (ReachabilityMatrix zigzag) 1.
Proof.
  split; [exact zigzag_wf|]. split; [exact zigzag_reachable|].
  split; apply (bool_decide_unpack _); by vm_compute.
Qed.

End ReachabilityFacts.


(* ===================================================================== *)
(** * Passes *)
(* ===================================================================== *)

Section PassFacts.

Import Pass.

Context {Data : Type}.

Implicit Types (p : Pass.t Data) (prog : Program Data).

(** The pass [p] with another function. *)
Definition with_function p (f : Program Data -> bool * Program Data) : Pass.t Data :=
  mk (Name_ p) f (Requires_ p) (Destroys_ p).

Lemma first_missing_Some p prog req :
  first_missing p prog = Some req ->
  req ∈ Requires_ p /\ req ∉ PassesPerformed prog.
Proof.
  unfold first_missing. intros H. apply find_some in H as [Hin Hb].
  split; [by apply list_elem_of_In|].
  apply negb_true_iff, bool_decide_eq_false in Hb. done.
Qed.

Lemma first_missing_None p prog :
  first_missing p prog = None <->
  (forall req, req ∈ Requires_ p -> req ∈ PassesPerformed prog).
Proof.
  unfold first_missing. split.
  - intros H req Hin. apply list_elem_of_In in Hin.
    pose proof (find_none _ _ H _ Hin) as Hb. simpl in Hb.
    apply negb_false_iff, bool_decide_eq_true in Hb. done.
  - intros H. destruct (List.find _ _) as [req|] eqn:Hf; [|done].
    apply find_some in Hf as [Hin Hb]. apply list_elem_of_In, H in Hin.
    apply negb_true_iff, bool_decide_eq_false in Hb. done.
Qed.

Lemma erase_destroyed_spec p prog :
  ProgramData (erase_destroyed p prog) = ProgramData prog /\
  forall n, n ∈ PassesPerformed (erase_destroyed p prog) <->
            n ∈ PassesPerformed prog /\ n ∉ Destroys_ p.
Proof.
  unfold erase_destroyed. generalize (Destroys_ p) as l. intros l. revert prog.
  induction l as [|dest l IH]; intros prog; simpl.
  - split; [done|]. intros n. rewrite elem_of_nil. tauto.
  - destruct (IH (mkProgram (PassesPerformed prog ∖ {[dest]}) (ProgramData prog)))
      as [Hd Hn]. split; [done|].
    intros n. rewrite Hn. simpl. rewrite elem_of_difference, elem_of_singleton, elem_of_cons.
    tauto.
Qed.

(** C8: a pass with a requirement that is not in [PassesPerformed] ends in
    a Lua error that names the pass and the requirement, whatever its
    function is, and the program stays as it was; if all requirements are
    there, the function runs on the program without the names in
    [Destroys_], and afterwards the name of the pass is inserted exactly if
    the function returned true. *)
Theorem Pass_Run_spec p prog :
  ((exists req, req ∈ Requires_ p /\ req ∉ PassesPerformed prog) ->
   exists req, req ∈ Requires_ p /\ (req ∉ PassesPerformed prog) /\
     (forall f, Run (with_function p f) prog
                = LuaError (missing_message (Name_ p) req) prog))
  /\
  ((forall req, req ∈ Requires_ p -> req ∈ PassesPerformed prog) ->
   exists prog1,
     ProgramData prog1 = ProgramData prog /\
     (forall n, n ∈ PassesPerformed prog1 <->
                n ∈ PassesPerformed prog /\ n ∉ Destroys_ p) /\
     forall f,
       Run (with_function p f) prog
       = Returned (fst (f prog1))
           (mkProgram
              (if fst (f prog1)
               then PassesPerformed (snd (f prog1)) ∪ {[Name_ p]}
               else PassesPerformed (snd (f prog1)))
              (ProgramData (snd (f prog1))))).
Proof.
  split.
  - intros (req0 & Hin0 & Hnot0).
    destruct (first_missing p prog) as [req|] eqn:Hf.
    + exists req. destruct (first_missing_Some _ _ _ Hf) as [Hin Hnot].
      repeat split; try done. intros f.
      unfold Run, CheckDependencies, with_function, first_missing in *. simpl.
      by rewrite Hf.
    + exfalso. apply Hnot0. by apply (proj1 (first_missing_None p prog)).
  - intros Hall. exists (erase_destroyed p prog).
    destruct (erase_destroyed_spec p prog) as [Hd Hn]. repeat split; try done.
    + by apply Hn.
    + by apply Hn.
    + intros Hx. by apply Hn.
    + intros f. apply first_missing_None in Hall.
      unfold Run, CheckDependencies, with_function, first_missing, erase_destroyed in *.
      simpl. rewrite Hall. destruct (f _) as [[] prog2]; simpl; by destruct prog2.
Qed.

End PassFacts.

(* ===================================================================== *)
(** * Base types *)
(* ===================================================================== *)

Section BaseTypeFacts.

Import BaseType.















End BaseTypeFacts.


(* ===================================================================== *)
(** * Bank assignment *)
(* ===================================================================== *)

Section BankFacts.

Import BankAssignment.

Variable edges : list BufferEdge.
Variable nbanks : Z.

Implicit Types (nodes : list BufferNode) (st : state) (stack : list nat)
         (vout : list verbose).

Definition total_size nodes : Z := fold_right (fun nd s => Size nd + s) 0 nodes.

Definition oversize (nd : BufferNode) : bool := InitialBankCapacity <? Size nd.

Definition is_StartingOver (v : verbose) : bool :=
  match v with
  | StartingOver _ => true
  | _ => false
  end.

(** The number of times the assignment was started over. *)
Definition retries vout : nat := length (List.filter is_StartingOver vout).

Lemma retries_app v1 v2 : retries (v1 ++ v2) = (retries v1 + retries v2)%nat.
Proof. unfold retries. by rewrite List.filter_app, length_app. Qed.

(** The initialization loop. *)
Lemma clear_and_check_spec nodes ui r :
  clear_and_check nodes ui = Some r ->
  let '(cleared, ret, totalsize, ui') := r in
  cleared = map (set_MemBank (-1)) nodes /\
  ret = forallb (fun nd => negb (oversize nd)) nodes /\
  totalsize = total_size nodes /\
  MsgUI.Output_ ui'
  = MsgUI.Output_ ui
    ++ map (fun nd => (MsgUI.Error_, BufferTooBig (Size nd))) (List.filter oversize nodes).
Proof.
  revert ui r. induction nodes as [|nd nodes IH]; intros ui r; simpl.
  - intros [= <-]. by rewrite app_nil_r.
  - unfold oversize at 1 3. destruct (InitialBankCapacity <? Size nd) eqn:Hbig; simpl.
    + unfold MsgUI.Error. destruct (MsgUI.limit <? _); [done|].
      destruct (clear_and_check nodes _) as [[[[cl rt] tot] ui2]|] eqn:Hrec; [|done].
      intros [= <-]. apply IH in Hrec as (-> & -> & -> & ->). simpl.
      rewrite <- app_assoc. by rewrite andb_false_r.
    + destruct (clear_and_check nodes _) as [[[[cl rt] tot] ui2]|] eqn:Hrec; [|done].
      intros [= <-]. apply IH in Hrec as (-> & -> & -> & ->). simpl.
      by rewrite andb_true_r.
Qed.


Lemma forallb_oversize_false nodes :
  forallb (fun nd => negb (oversize nd)) nodes = false <->
  exists nd, nd ∈ nodes /\ InitialBankCapacity < Size nd.
Proof.
  split.
  - intros H. induction nodes as [|nd nodes IH]; simpl in H; [done|].
    apply andb_false_iff in H as [H|H].
    + exists nd. split; [apply list_elem_of_here|].
      apply negb_false_iff in H. by apply Z.ltb_lt in H.
    + destruct (IH H) as (nd' & Hin & Hbig). exists nd'. split; [by apply list_elem_of_further | done].
  - intros (nd & Hin & Hbig). destruct (forallb _ _) eqn:Hall; [|done].
    rewrite forallb_forall in Hall. apply list_elem_of_In, Hall in Hin.
    apply negb_true_iff, Z.ltb_ge in Hin. lia.
Qed.

(** A node found by [MinElementIf] passes the filter. *)
Lemma min_loop_filter (filter : nat -> bool) cmp rest b :
  filter b = true -> filter (min_loop filter cmp rest b) = true.
Proof.
  revert b. induction rest as [|k rest IH]; intros b Hb; simpl; [done|].
  destruct (filter k) eqn:Hk; simpl; [|by apply IH].
  destruct (cmp k b); by apply IH.
Qed.

Lemma MinElementIf_filter (filter : nat -> bool) cmp range k :
  MinElementIf filter cmp range = Some k -> filter k = true.
Proof.
  unfold MinElementIf.
  assert (forall l b rest, skip_to filter l = b :: rest -> filter b = true) as Hskip.
  { induction l as [|x l IH]; intros b rest; simpl; [done|].
    destruct (filter x) eqn:Hx; [by intros [= <- <-] | apply IH]. }
  destruct (skip_to filter range) as [|b rest] eqn:Hs; [done|].
  intros [= <-]. apply min_loop_filter. by apply (Hskip range b rest).
Qed.

Lemma map_alter_same {B C : Type} (f : B -> C) (g : B -> B) (i : nat) (l : list B) :
  (forall x, f (g x) = f x) -> map f (alter g i l) = map f l.
Proof.
  intros Hfg. revert i. induction l as [|x l IH]; intros [|i]; simpl; [done|done| |].
  - by rewrite Hfg.
  - f_equal. apply IH.
Qed.

Lemma ignored_alter_ne nodes f k j :
  k <> j -> ignored (alter f k nodes) j = ignored nodes j.
Proof. intros Hne. unfold ignored. by rewrite list_lookup_alter_ne. Qed.

Lemma ignored_alter_true nodes k :
  ignored (alter (set_Ignore true) k nodes) k = true.
Proof.
  unfold ignored. rewrite list_lookup_alter_eq. by destruct (nodes !! k).
Qed.

Lemma ignored_false_lt nodes k : ignored nodes k = false -> (k < length nodes)%nat.
Proof.
  unfold ignored. destruct (nodes !! k) eqn:Hk; [|done].
  intros _. by apply lookup_lt_Some in Hk.
Qed.

(** The first step: the stack holds different nodes, all of them ignored;
    sizes and banks stay as they are, and nothing is started over. *)
Lemma remove_nodes_spec correction count nodes stack vout nodes' stack' vout' :
  remove_nodes edges correction count nodes stack vout = Some (nodes', stack', vout') ->
  NoDup stack ->
  (forall k, k ∈ stack -> ignored nodes k = true /\ (k < length nodes)%nat) ->
  NoDup stack' /\ (forall k, k ∈ stack' -> (k < length nodes')%nat) /\
  map Size nodes' = map Size nodes /\ map MemBank nodes' = map MemBank nodes /\
  exists vs, vout' = vout ++ vs /\ retries vs = 0%nat.
Proof.
  revert nodes stack vout. induction count as [|count IH]; intros nodes stack vout; simpl.
  - intros [= <- <- <-] Hnd Hst. split; [done|]. split; [intros k Hk; by apply Hst|].
    split; [done|]. split; [done|]. exists []. by rewrite app_nil_r.
  - destruct (MinElementIf _ _ _) as [k|] eqn:Hmin; [|done].
    apply MinElementIf_filter in Hmin. apply negb_true_iff in Hmin.
    intros Hrec Hnd Hign.
    apply IH in Hrec as (Hnd' & Hlt & Hsz & Hmb & vs & -> & Hvs).
    + split; [done|]. split; [done|]. split; [|split].
      * rewrite Hsz. by apply map_alter_same.
      * rewrite Hmb. by apply map_alter_same.
      * eexists. rewrite <- app_assoc. split; [done|]. by rewrite retries_app, Hvs.
    + constructor; [|done]. intros Hin. apply Hign in Hin as [Hin _]. congruence.
    + intros j Hj. rewrite length_alter.
      apply elem_of_cons in Hj as [->|Hj].
      * split; [apply ignored_alter_true | by apply ignored_false_lt].
      * destruct (Hign j Hj) as [Hi Hl]. split; [|done].
        destruct (decide (k = j)) as [->|Hne]; [apply ignored_alter_true|].
        by rewrite ignored_alter_ne.
Qed.

(** The second step: sizes stay, nothing is started over, and a node
    whose assignment failed is left without a bank. *)
Lemma color_nodes_spec stack nodes banks vout ret nodes' banks' vout' ret' :
  color_nodes edges stack nodes banks vout ret = (nodes', banks', vout', ret') ->
  map Size nodes' = map Size nodes /\
  (exists vs, vout' = vout ++ vs /\ retries vs = 0%nat) /\
  (forall j, j ∉ stack -> nodes' !! j = nodes !! j) /\
  (NoDup stack -> (forall k, k ∈ stack -> (k < length nodes)%nat) ->
   ret' = false ->
   ret = false \/ exists k nd, nodes' !! k = Some nd /\ MemBank nd = -1).
Proof.
  revert nodes banks vout ret.
  induction stack as [|pn stack IH]; intros nodes banks vout ret; simpl.
  - intros [= <- <- <- <-]. split; [done|]. split; [exists []; by rewrite app_nil_r|].
    split; [done|]. intros _ _ ->. by left.
  - set (nodes1 := alter (set_Ignore false) pn nodes).
    assert (map Size nodes1 = map Size nodes) as Hsz1 by (by apply map_alter_same).
    destruct (MaxElementIf _ _ _) as [it|]; intros Hrec;
      apply IH in Hrec as (Hsz & (vs & -> & Hvs) & Hother & Hfail).
    + split; [|split; [|split]].
      * rewrite Hsz, <- Hsz1. by apply map_alter_same.
      * eexists. rewrite <- app_assoc. split; [done|]. by rewrite retries_app, Hvs.
      * intros j Hj. apply not_elem_of_cons in Hj as [Hne Hj].
        rewrite (Hother j Hj). unfold nodes1. by rewrite !list_lookup_alter_ne.
      * intros Hnd Hlt Hret. inversion Hnd as [|? ? Hnotin Hnd']; subst.
        apply Hfail; [done | | done].
        intros k Hk. unfold nodes1. rewrite !length_alter. apply Hlt. by apply list_elem_of_further.
    + split; [|split; [|split]].
      * rewrite Hsz, <- Hsz1. by apply map_alter_same.
      * eexists. rewrite <- app_assoc. split; [done|]. by rewrite retries_app, Hvs.
      * intros j Hj. apply not_elem_of_cons in Hj as [Hne Hj].
        rewrite (Hother j Hj). unfold nodes1. by rewrite !list_lookup_alter_ne.
      * intros Hnd Hlt _. right. inversion Hnd as [|? ? Hnotin Hnd']; subst.
        destruct (lookup_lt_is_Some_2 nodes pn) as [nd Hlk];
          [apply Hlt, list_elem_of_here|].
        exists pn, (set_MemBank (-1) (set_Ignore false nd)).
        split; [|done]. rewrite (Hother pn Hnotin). unfold nodes1.
        by rewrite !list_lookup_alter_eq, Hlk.
Qed.

(** The two reasons for which [AssignBanks] gives up at once: a buffer
    larger than a bank, or more bytes in total than all banks hold. *)
Definition too_big (sizes : list Z) : Prop :=
  (exists sz, sz ∈ sizes /\ InitialBankCapacity < sz) \/
  nbanks * InitialBankCapacity < fold_right Z.add 0 sizes.

Lemma total_size_map nodes : total_size nodes = fold_right Z.add 0 (map Size nodes).
Proof. induction nodes as [|nd nodes IH]; simpl; [done|]. by rewrite IH. Qed.

Lemma forallb_oversize_sizes nodes :
  forallb (fun nd => negb (oversize nd)) nodes = false <->
  exists sz, sz ∈ map Size nodes /\ InitialBankCapacity < sz.
Proof.
  rewrite forallb_oversize_false. split.
  - intros (nd & Hin & Hbig). exists (Size nd). split; [|done].
    apply list_elem_of_fmap. by exists nd.
  - intros (sz & Hin & Hbig). apply list_elem_of_fmap in Hin as (nd & -> & Hin). by exists nd.
Qed.

Lemma cleared_banks nodes :
  Forall (fun nd => MemBank nd = -1) (map (set_MemBank (-1)) nodes).
Proof. induction nodes; simpl; by constructor. Qed.

Lemma last_snoc {B : Type} (l : list B) (x : B) : last (l ++ [x]) = Some x.
Proof. induction l as [|y [|z l] IH]; done. Qed.

Lemma map_filter_last_oversize ui nodes :
  forallb (fun nd => negb (oversize nd)) nodes = false ->
  exists sz, last (MsgUI.Output_ ui
                   ++ map (fun nd => (MsgUI.Error_, BufferTooBig (Size nd)))
                          (List.filter oversize nodes))
             = Some (MsgUI.Error_, BufferTooBig sz) /\ InitialBankCapacity < sz.
Proof.
  intros Hall.
  assert (exists l nd, List.filter oversize nodes = l ++ [nd] /\ oversize nd = true)
    as (l & nd & -> & Hbig).
  { assert (List.filter oversize nodes <> []) as Hne.
    { apply forallb_oversize_false in Hall as (nd & Hin & Hbig).
      intros Hnil. assert (In nd (List.filter oversize nodes)) as Hf.
      { apply filter_In. split; [by apply list_elem_of_In|]. by apply Z.ltb_lt. }
      by rewrite Hnil in Hf. }
    destruct (exists_last Hne) as (l & nd & Heq). exists l, nd. split; [done|].
    assert (In nd (List.filter oversize nodes)) as Hf
        by (rewrite Heq; apply in_or_app; right; by left).
    by apply filter_In in Hf as [_ Hf]. }
  exists (Size nd). rewrite map_app, app_assoc. simpl. split; [apply last_snoc|].
  by apply Z.ltb_lt.
Qed.

(** One run through the body of [AssignBanks]. *)
Lemma attempt_spec c st ret again st' :
  attempt edges nbanks c st = Some (ret, again, st') ->
  map Size (Nodes st') = map Size (Nodes st) /\
  (too_big (map Size (Nodes st)) ->
   ret = false /\ again = false /\
   VerboseOut st' = VerboseOut st /\ Cerr st' = Cerr st /\
   Forall (fun nd => MemBank nd = -1) (Nodes st') /\
   exists m, last (MsgUI.Output_ (UI st')) = Some (MsgUI.Error_, m) /\
             ((exists sz, m = BufferTooBig sz /\ InitialBankCapacity < sz) \/
              m = InsufficientMemory (total_size (Nodes st)))) /\
  (~ too_big (map Size (Nodes st)) ->
   (again = true <-> ret = false /\ c < 10) /\
   (ret = false -> exists nd, nd ∈ Nodes st' /\ MemBank nd = -1) /\
   (exists vs, VerboseOut st' = VerboseOut st ++ vs /\
               retries vs = if again then 1%nat else 0%nat) /\
   (again = true -> Cerr st' = Cerr st) /\
   (again = false -> ret = false ->
    Cerr st' = Cerr st ++ [PrintAssignmentInfo nbanks (Nodes st')] /\
    last (MsgUI.Output_ (UI st')) = Some (MsgUI.Error_, NotAllMapped))).
Proof.
  unfold attempt.
  destruct (clear_and_check _ _) as [[[[nodes0 ret0] totalsize] ui0]|] eqn:Hcc; [|done].
  apply clear_and_check_spec in Hcc as (-> & -> & -> & Hout).
  assert (map Size (map (set_MemBank (-1)) (Nodes st)) = map Size (Nodes st)) as Hsz0.
  { rewrite map_map. by apply map_ext. }
  destruct (forallb _ _) eqn:Hall; simpl.
  - assert (~ exists sz, sz ∈ map Size (Nodes st) /\ InitialBankCapacity < sz) as Hnobig.
    { intros Hex. apply forallb_oversize_sizes in Hex. congruence. }
    destruct (Z.ltb_spec (nbanks * InitialBankCapacity) (total_size (Nodes st))) as [Htot|Htot].
    + unfold MsgUI.Error. destruct (MsgUI.limit <? _); [done|].
      intros [= <- <- <-]. simpl. split; [done|]. split.
      * intros _. repeat split; try done; [apply cleared_banks|].
        eexists. split; [apply last_snoc|]. by right.
      * intros Hnot. exfalso. apply Hnot. right. by rewrite <- total_size_map.
    + destruct (remove_nodes _ _ _ _ _ _) as [[[nodes1 stack] vout1]|] eqn:Hrm; [|done].
      apply remove_nodes_spec in Hrm as (Hnd & Hlt & Hsz1 & _ & vs1 & -> & Hvs1);
        [|constructor | intros k Hk; by apply elem_of_nil in Hk].
      destruct (nbanks <=? 0); [done|].
      destruct (color_nodes _ _ _ _ _ _) as [[[nodes2 banks] vout2] ret2] eqn:Hcol.
      apply color_nodes_spec in Hcol as (Hsz2 & (vs2 & -> & Hvs2) & _ & Hfail).
      assert (map Size nodes2 = map Size (Nodes st)) as Hsz by congruence.
      assert (ret2 = false -> exists nd, nd ∈ nodes2 /\ MemBank nd = -1) as Hun.
      { intros ->. destruct (Hfail Hnd Hlt eq_refl) as [|(k & nd & Hk & Hmb)]; [done|].
        exists nd. split; [|done]. by eapply list_elem_of_lookup_2. }
      assert (forall l, retries (BankUsageHeader :: map (fun b => BankUsage (BankID b)
                (Capacity b - FreeSpace b) (Capacity b)) l) = 0%nat) as Husage.
      { intros l. unfold retries. simpl. induction l; simpl; [done|]. done. }
      destruct ret2.
      * intros [= <- <- <-]. simpl. split; [done|]. split.
        -- intros [Hbig|Hbig]; [by destruct Hnobig|]. rewrite <- total_size_map in Hbig. lia.
        -- intros _. split; [split; [done | by intros [? _]]|]. split; [done|]. split.
           ++ eexists. rewrite <- !app_assoc. split; [done|].
              by rewrite !retries_app, Hvs1, Hvs2, Husage.
           ++ split; done.
      * destruct (Z.ltb_spec c 10) as [Hc|Hc].
        -- intros [= <- <- <-]. simpl. split; [done|]. split.
           ++ intros [Hbig|Hbig]; [by destruct Hnobig|]. rewrite <- total_size_map in Hbig. lia.
           ++ intros _. split; [done|]. split; [by intros _; apply Hun|]. split.
              ** eexists. rewrite <- !app_assoc. split; [done|].
                 by rewrite !retries_app, Hvs1, Hvs2.
              ** split; done.
        -- unfold MsgUI.Error. destruct (MsgUI.limit <? _); [done|].
           intros [= <- <- <-]. simpl. split; [done|]. split.
           ++ intros [Hbig|Hbig]; [by destruct Hnobig|]. rewrite <- total_size_map in Hbig. lia.
           ++ intros _. split; [split; [done | intros [_ ?]; lia]|].
              split; [by intros _; apply Hun|]. split.
              ** eexists. rewrite <- !app_assoc. split; [done|].
                 by rewrite !retries_app, Hvs1, Hvs2, Husage.
              ** split; [done|]. intros _ _. split; [done | apply last_snoc].
  - intros [= <- <- <-]. simpl. split; [done|]. split.
    + intros _. repeat split; try done; [apply cleared_banks|].
      rewrite Hout. destruct (map_filter_last_oversize (UI st) (Nodes st) Hall) as (sz & Hl & Hbig).
      eexists. split; [exact Hl|]. left. by exists sz.
    + intros Hnot. exfalso. apply Hnot. left. by apply forallb_oversize_sizes.
Qed.





End BankFacts.


(* ===================================================================== *)
(** * Dataflow resolution: arguments and their relevant dimensions *)
(* ===================================================================== *)

Section RelevantDims.

Import MetaKernelSeq.

Implicit Types (indices abs ref : Space.t) (rels : list nat).

(** [rels] picks dimensions of [indices] in increasing order, and every
    dimension it leaves out has size 1. *)
Definition rel_ok indices rels : Prop :=
  StronglySorted lt rels /\
  (forall t, t ∈ rels -> (t < length indices)%nat) /\
  (forall t, (t < length indices)%nat -> t ∉ rels -> size_at indices t = 1).

Lemma skip_ones_spec indices c s c2 s2 :
  skip_ones indices c s = (c2, s2) ->
  (s2 = s /\ c2 = c) \/
  ((s2 < s)%nat /\ c = 1 /\ c2 = size_at indices s2 /\
   forall t, (s2 < t < s)%nat -> size_at indices t = 1).
Proof.
  revert c. induction s as [|s IH]; intros c; simpl.
  - intros [= <- <-]. by left.
  - destruct (Z.eqb_spec c 1) as [->|Hc]; [|intros [= <- <-]; by left].
    intros Hrec. right. destruct (IH _ Hrec) as [[-> ->]|(Hlt & Hone & -> & Hskip)].
    + split; [lia|]. split; [done|]. split; [done|]. intros t Ht. lia.
    + split; [lia|]. split; [done|]. split; [done|]. intros t Ht.
      destruct (decide (t = s)) as [->|Hne]; [done | apply Hskip; lia].
Qed.

(** What the matching loop leaves behind when it ends without a
    description: the relevant dimensions lie in [final, suppidx), in
    increasing order, and the dimensions in between have size 1. *)
Lemma match_dims_spec derived indices rev_dims : forall suppidx rels final,
  Forall (fun d => 0 <= d) rev_dims ->
  match_dims derived indices rev_dims suppidx = Some (rels, final, true) ->
  (final <= suppidx)%nat /\
  StronglySorted lt rels /\
  (forall t, t ∈ rels -> (final <= t < suppidx)%nat) /\
  (forall t, (final <= t < suppidx)%nat -> t ∉ rels -> size_at indices t = 1).
Proof.
  induction rev_dims as [|dim rest IH]; intros suppidx rels final Hpos; simpl.
  - intros [= <- <-]. split; [done|]. split; [constructor|].
    split; [intros t Ht; by apply elem_of_nil in Ht | intros t Ht; lia].
  - inversion Hpos as [|? ? Hdim Hrest]; subst.
    unfold lookup_derived. destruct (Z.ltb_spec dim 0) as [|_]; [lia|].
    destruct suppidx as [|s].
    + destruct (Z.eqb_spec (-1) dim) as [|_]; [lia|].
      change (skip_ones indices (-1) 0) with (-1, 0%nat). cbv beta iota zeta.
      destruct (Z.eqb_spec (-1) dim) as [|_]; [lia|]. by intros [=].
    + destruct (Z.eqb_spec (size_at indices s) dim) as [Heq|Hne].
      * rewrite (proj2 (Z.eqb_eq _ _) Heq).
        destruct (match_dims derived indices rest s) as [[[rels' final'] ok]|] eqn:Hrec;
          [|done].
        intros [= <- <- ->]. destruct (IH _ _ _ Hrest Hrec) as (Hle & Hsort & Hin & Hskip).
        split; [lia|]. split; [|split].
        -- apply StronglySorted_app_2; [| done | repeat constructor].
           intros x y Hx Hy. apply list_elem_of_singleton in Hy as ->.
           by apply Hin in Hx as [_ ?].
        -- intros t Ht. apply elem_of_app in Ht as [Ht|Ht]; [apply Hin in Ht; lia|].
           apply list_elem_of_singleton in Ht as ->. lia.
        -- intros t Ht Hnot. apply Hskip; [|intros Hx; apply Hnot, elem_of_app; by left].
           destruct (decide (t = s)) as [->|]; [|lia]. exfalso.
           apply Hnot, elem_of_app. right. apply list_elem_of_here.
      * destruct (skip_ones indices (size_at indices s) s) as [c2 s2] eqn:Hskipones.
        destruct (Z.eqb_spec c2 dim) as [Heq|]; [|by intros [=]].
        destruct (match_dims derived indices rest s2) as [[[rels' final'] ok]|] eqn:Hrec;
          [|done].
        intros [= <- <- ->]. destruct (IH _ _ _ Hrest Hrec) as (Hle & Hsort & Hin & Hskip).
        destruct (skip_ones_spec _ _ _ _ _ Hskipones)
          as [[-> ->]|(Hlt & Hone & -> & Hones)]; [done|].
        split; [lia|]. split; [|split].
        -- apply StronglySorted_app_2; [| done | repeat constructor].
           intros x y Hx Hy. apply list_elem_of_singleton in Hy as ->.
           by apply Hin in Hx as [_ ?].
        -- intros t Ht. apply elem_of_app in Ht as [Ht|Ht]; [apply Hin in Ht; lia|].
           apply list_elem_of_singleton in Ht as ->. lia.
        -- intros t Ht Hnot.
           destruct (decide (t < s2)%nat) as [Hlow|Hhigh].
           ++ apply Hskip; [lia|]. intros Hx. apply Hnot, elem_of_app. by left.
           ++ destruct (decide (t = s2)) as [->|Hne2].
              ** exfalso. apply Hnot, elem_of_app. right. apply list_elem_of_here.
              ** destruct (decide (t = s)) as [->|Hnes]; [done | apply Hones; lia].
Qed.

End RelevantDims.

Section Construction.

Import MetaKernelSeq.

Variable Variables : list Packet.t.
Variable KernelPackets : list Packet.t.

Implicit Types (arg : Argument) (indices : Space.t) (op : KernelCall).

(** An argument whose indices are a non-empty part of its variable. *)
Definition arg_ok arg : Prop :=
  exists var,
    deref Variables KernelPackets (Variable_ arg) = Some var /\
    length (Indices_ arg) = length (Packet.ArrayDims_ var) /\
    Space.IsEmpty (Indices_ arg) = false /\
    Space.Contains (Space.of_dims (Packet.ArrayDims_ var)) (Indices_ arg) = true.

(** What a call without a description knows about the argument passed for
    the packet [demand]. *)
Definition fits (derived : list Z) arg (demand : Packet.t) : Prop :=
  rel_ok (Indices_ arg) (RelevantDims_ arg) /\
  (exists supply,
      deref Variables KernelPackets (Variable_ arg) = Some supply /\
      BaseType.IsCompatible (Packet.BaseType_ supply) (Packet.BaseType_ demand) = true) /\
  is_Some (mapM (lookup_derived derived) (Packet.ArrayDims_ demand)).

Definition passed_ok (derived : list Z) arg (demand : Packet.t) : Prop :=
  arg_ok arg /\ fits derived arg demand.

Definition op_ok op : Prop :=
  Forall2 (passed_ok (DerivedParams_ op)) (Args_ op) (Kernel.Packets (Callee_ op)).

Lemma check_indices_ok name i indices vdims res :
  check_indices name i indices vdims = ([], res) ->
  length indices = length vdims -> Forall Range.valid indices ->
  Space.IsEmpty indices = false /\
  Space.Contains (Space.of_dims vdims) indices = true.
Proof.
  revert i vdims res. induction indices as [|r indices IH]; intros i [|vd vdims] res;
    simpl; try done.
  destruct (check_indices name (i + 1) indices vdims) as [errs resdim] eqn:Hrec.
  intros [= Herr _] Hlen Hvalid. inversion Hvalid as [|? ? Hr Hvalid']; subst.
  destruct (Range.Contains _ r) eqn:Hc; [|done].
  destruct (Z.eqb_spec (Range.size r) 0) as [|Hsz]; [done|]. simpl in Herr. subst errs.
  destruct (IH _ _ _ Hrec) as [He Hcont]; [lia | done |].
  unfold Space.Contains in *. simpl. rewrite Hc, Hcont, He.
  split; [|done]. rewrite orb_false_r. apply Range_IsEmpty_false.
  unfold Range.valid, Range.size in *. lia.
Qed.

Lemma Argument_ctor_ok v indices arg :
  Argument_ctor Variables KernelPackets v indices = Some arg ->
  IsValid arg = true -> Forall Range.valid indices ->
  arg_ok arg /\ Variable_ arg = v.
Proof.
  unfold Argument_ctor. destruct (deref _ _ v) as [var|] eqn:Hv; [|done].
  destruct (existsb _ _) eqn:Hneg; [done|].
  destruct (Nat.ltb_spec (length (Packet.ArrayDims_ var)) (length indices)) as [Hlt|Hge].
  - destruct (check_indices _ _ _ _) as [errs resdim]. by intros [= <-].
  - destruct (check_indices _ _ _ _) as [errs resdim] eqn:Hck. intros [= <-].
    unfold IsValid. simpl. destruct errs; [|done]. intros _ Hvalid.
    split; [|done]. exists var. simpl. split; [done|].
    assert (length (indices ++ map (Range.BeginCount 0)
                      (drop (length indices) (Packet.ArrayDims_ var)))
            = length (Packet.ArrayDims_ var)) as Hlen.
    { rewrite length_app, length_map, length_drop. lia. }
    split; [done|]. apply (check_indices_ok _ _ _ _ _ Hck Hlen).
    apply Forall_app. split; [done|]. apply Forall_forall. intros r Hr.
    apply list_elem_of_fmap in Hr as (d & -> & Hd).
    unfold Range.valid, Range.BeginCount. simpl.
    assert (0 <= d); [|lia].
    destruct (Z.ltb_spec d 0) as [Hd0|]; [|done].
    assert (existsb (fun d => d <? 0) (Packet.ArrayDims_ var) = true); [|congruence].
    apply existsb_exists. exists d. split; [|by apply Z.ltb_lt].
    apply list_elem_of_In. apply list_elem_of_lookup_1 in Hd as [j Hj].
    rewrite lookup_drop in Hj. by eapply list_elem_of_lookup_2.
Qed.

Lemma build_argument_ok ra arg :
  build_argument Variables KernelPackets ra = Some arg ->
  IsValid arg = true -> Forall Range.valid (ra_indices ra) -> arg_ok arg.
Proof.
  unfold build_argument.
  destruct (Argument_ctor _ _ _ _) as [a|] eqn:Hctor; [|done].
  intros [= <-] Hv Hvalid.
  assert (arg_ok a) as Hok.
  { apply (Argument_ctor_ok _ _ _ Hctor); [|done]. by destruct (0 <=? _). }
  by destruct (0 <=? _).
Qed.

Lemma lookup_derived_nonneg derived dim v :
  Forall (fun d => 0 < d) derived -> lookup_derived derived dim = Some v -> 0 <= v.
Proof.
  intros Hpos. unfold lookup_derived. destruct (Z.ltb_spec dim 0).
  - intros Hl. rewrite Forall_forall in Hpos.
    assert (0 < v); [|lia]. by eapply Hpos, list_elem_of_lookup_2.
  - intros [= <-]. done.
Qed.

Lemma take_sizes_one indices n :
  existsb (fun r => negb (Range.size r =? 1)) (take n indices) = false ->
  forall t, (t < n)%nat -> (t < length indices)%nat -> size_at indices t = 1.
Proof.
  intros Hex t Ht Hlen. unfold size_at.
  destruct (lookup_lt_is_Some_2 indices t Hlen) as [r Hr]. rewrite Hr.
  destruct (Z.eqb_spec (Range.size r) 1) as [|Hne]; [done|].
  assert (existsb (fun r => negb (Range.size r =? 1)) (take n indices) = true); [|congruence].
  apply existsb_exists. exists r. split.
  - eapply list_elem_of_In, list_elem_of_lookup_2. by rewrite lookup_take_lt.
  - by apply negb_true_iff, Z.eqb_neq.
Qed.

(** The loop over the arguments, when it ends without a description: it
    has only written [RelevantDims_], and every argument fits its packet. *)
Lemma check_args_ok nparams derived : forall argidx args packets args',
  Forall (fun d => 0 < d) derived ->
  check_args Variables KernelPackets nparams derived argidx args packets = Some (args', []) ->
  length args = length packets ->
  Forall2 (fits derived) args' packets /\
  Forall2 (fun a a' => a' = set_RelevantDims (RelevantDims_ a') a) args args'.
Proof.
  intros argidx args. revert argidx.
  induction args as [|arg args IH]; intros argidx [|demand packets] args' Hpos; simpl;
    try done.
  - intros [= <-] _. split; constructor.
  - destruct (deref _ _ (Variable_ arg)) as [supply|] eqn:Hsup; [|done].
    destruct (mapM _ _) as [argdims|] eqn:Hdims; [|done].
    destruct (match_dims _ _ _ _) as [[[rels suppidx] ok]|] eqn:Hmatch; [|done].
    destruct (existsb _ (take suppidx _)) eqn:Hex.
    { intros [= _ Herr]. exfalso. apply app_eq_nil in Herr as [_ Herr].
      apply app_eq_nil in Herr as [_ Herr]. by apply app_eq_nil in Herr as [_ Herr]. }
    destruct (check_args _ _ _ _ _ _ _) as [[rest es]|] eqn:Hrec; [|done].
    intros [= <- Herr] Hlen.
    apply app_eq_nil in Herr as [He1 Herr]. apply app_eq_nil in Herr as [_ Herr].
    apply app_eq_nil in Herr as [He3 ->].
    destruct ok; [|done].
    destruct (BaseType.IsCompatible _ _) eqn:Hcompat; [|done].
    destruct (IH _ _ _ Hpos Hrec) as [Hrest Hshape]; [lia|].
    split; [|by constructor].
    constructor; [|done]. split; [|split].
    + simpl. apply match_dims_spec in Hmatch as (Hle & Hsort & Hin & Hskip).
      * split; [done|]. split; [intros t Ht; apply Hin in Ht; lia|].
        intros t Ht Hnot. destruct (decide (t < suppidx)%nat).
        -- by apply (take_sizes_one _ suppidx).
        -- apply Hskip; [lia | done].
      * apply Forall_rev, Forall_forall. intros v Hv.
        apply mapM_Some_1 in Hdims.
        apply list_elem_of_lookup_1 in Hv as [i Hi].
        destruct (Forall2_lookup_r _ _ _ _ _ Hdims Hi) as (dim & _ & Hlk).
        by apply (lookup_derived_nonneg derived dim).
    + exists supply. by split.
    + by rewrite Hdims.
Qed.

(** A valid call made by the front end. *)
Lemma build_call_ok rc op :
  Forall (fun ra => Forall Range.valid (ra_indices ra)) (rc_arguments rc) ->
  Forall (fun d => 0 < d) (rc_derivedparams rc) ->
  build_call Variables KernelPackets rc = Some op ->
  Valid_ op = true -> op_ok op.
Proof.
  intros Hvalid Hpos. unfold build_call, KernelCall_ctor.
  destruct (mapM _ _) as [arguments|] eqn:Hargs; [|done].
  destruct (Nat.eqb_spec (length arguments) (length (Kernel.Packets (rc_callee rc))))
    as [Hlen|]; simpl; [|by intros [= <-]].
  destruct (check_args _ _ _ _ _ _ _) as [[args' es]|] eqn:Hck; [|done].
  intros [= <-]. simpl. destruct es; [|done]. intros Hall.
  destruct (check_args_ok _ _ _ _ _ _ Hpos Hck Hlen) as [Hfits Hshape].
  unfold op_ok. simpl.
  apply mapM_Some_1 in Hargs. clear Hck Hlen.
  revert args' Hshape Hall Hfits. generalize (Kernel.Packets (rc_callee rc)) as packets.
  induction Hargs as [|ra a ras args Hb Hrest IHr]; intros packets args' Hshape Hall Hfits.
  - inversion Hshape; subst. inversion Hfits; subst. constructor.
  - inversion Hshape as [|? a' ? rest' Ha' Hshape']; subst.
    inversion Hfits as [|? demand ? packets' Hfit Hfits']; subst.
    inversion Hvalid as [|? ? Hva Hvalid']; subst.
    simpl in Hall. apply andb_true_iff in Hall as [Hv1 Hv2].
    constructor; [|by apply IHr].
    split; [|done].
    assert (arg_ok a) as (var & Hd & Hl & Hne & Hc).
    { apply (build_argument_ok ra a Hb); [|done]. by rewrite Ha' in Hv1. }
    rewrite Ha'. by exists var.
Qed.

End Construction.

Section AbsToRel.

Import MetaKernelSeq.

Implicit Types (abs ref : Space.t) (rels : list nat).

(** The product of the numbers of a list. *)
Definition product (l : list Z) : Z := fold_right Z.mul 1 l.

Lemma GetVolume_product (s : Space.t) : Space.GetVolume s = product (map Range.size s).
Proof.
  unfold Space.GetVolume.
  assert (forall acc, fold_left (fun i r => i * Range.size r) s acc
                      = acc * product (map Range.size s)) as H.
  { induction s as [|r s IH]; intros acc; simpl; [lia|]. rewrite IH. lia. }
  rewrite H. lia.
Qed.

Lemma size_unshift (r : Range.t) (o : Z) : Range.size (Range.unshift r o) = Range.size r.
Proof. unfold Range.unshift, Range.shift, Range.size. simpl. lia. Qed.

Lemma sizes_seq (s : Space.t) :
  map Range.size s = map (size_at s) (seq 0 (length s)).
Proof.
  induction s as [|r s IH] using rev_ind; [done|].
  rewrite length_app. simpl. rewrite seq_app, !map_app. simpl.
  f_equal.
  - rewrite IH. apply map_ext_in. intros t Ht. apply in_seq in Ht.
    unfold size_at. by rewrite lookup_app_l by lia.
  - unfold size_at. rewrite lookup_app_r by lia. by rewrite Nat.sub_diag.
Qed.

(** An increasing list of numbers of [a, a+n) is what membership in it
    filters out of [a, a+n). *)
Lemma sorted_filter_seq rels : forall n a,
  StronglySorted lt rels -> (forall t, t ∈ rels -> (a <= t < a + n)%nat) ->
  rels = List.filter (fun t => bool_decide (t ∈ rels)) (seq a n).
Proof.
  intros n. revert rels. induction n as [|n IH]; intros rels a Hsort Hin; simpl.
  - destruct rels as [|t rels]; [done|]. specialize (Hin t (list_elem_of_here _ _)). lia.
  - destruct rels as [|t rels].
    + rewrite bool_decide_eq_false_2 by apply not_elem_of_nil.
      apply (IH [] (S a)); [constructor | intros t Ht; by apply elem_of_nil in Ht].
    + apply StronglySorted_cons in Hsort as [Hall Hsort]. rewrite Forall_forall in Hall.
      destruct (decide (t = a)) as [->|Hne].
      * rewrite bool_decide_eq_true_2 by apply list_elem_of_here. f_equal.
        rewrite (IH rels (S a) Hsort) at 1.
        -- apply filter_ext_in. intros x Hx. apply in_seq in Hx.
           apply bool_decide_ext. rewrite elem_of_cons. split; [by right|].
           intros [->|]; [lia | done].
        -- intros x Hx. specialize (Hall x Hx).
           specialize (Hin x (list_elem_of_further _ _ _ Hx)). lia.
      * assert (a < t)%nat as Hlt
            by (specialize (Hin t (list_elem_of_here _ _)); lia).
        rewrite bool_decide_eq_false_2.
        -- apply (IH (t :: rels) (S a)).
           ++ apply StronglySorted_cons. split; [by apply Forall_forall | done].
           ++ intros x Hx. specialize (Hin x Hx).
              apply elem_of_cons in Hx as [->|Hx]; [lia|]. specialize (Hall x Hx). lia.
        -- intros Ha. apply elem_of_cons in Ha as [->|Ha]; [done|].
           specialize (Hall a Ha). lia.
Qed.

(** Leaving out numbers that are 1 changes neither the numbers above 1
    nor the product. *)
Lemma pick_ones (f : nat -> Z) (pick : nat -> bool) (l : list nat) :
  (forall t, t ∈ l -> pick t = false -> f t = 1) ->
  filter (fun sz => 1 < sz) (map f (List.filter pick l))
  = filter (fun sz => 1 < sz) (map f l) /\
  product (map f (List.filter pick l)) = product (map f l).
Proof.
  induction l as [|t l IH]; intros Hone; simpl; [done|].
  destruct IH as [IH1 IH2]; [intros x Hx; by apply Hone, list_elem_of_further|].
  destruct (pick t) eqn:Hp; simpl.
  - rewrite !filter_cons, IH1, IH2. done.
  - rewrite (Hone t (list_elem_of_here _ _) Hp), filter_cons.
    rewrite decide_False by lia. rewrite IH1, IH2. split; [done | lia].
Qed.

Lemma all2_lookup (p : Range.t -> Range.t -> bool) (a b : Space.t) t x y :
  Space.all2 p a b = true -> a !! t = Some x -> b !! t = Some y -> p x y = true.
Proof.
  revert b t. induction a as [|x0 a IH]; intros [|y0 b] [|t]; simpl; try done.
  - intros H [= <-] [= <-]. by apply andb_true_iff in H as [? _].
  - intros H. apply andb_true_iff in H as [_ H]. by apply IH.
Qed.

Lemma IsEmpty_lookup (s : Space.t) t r :
  Space.IsEmpty s = false -> s !! t = Some r -> Range.IsEmpty r = false.
Proof.
  intros He Hr. destruct (Range.IsEmpty r) eqn:Hre; [|done].
  assert (Space.IsEmpty s = true); [|congruence].
  apply existsb_exists. exists r. split; [|done].
  by eapply list_elem_of_In, list_elem_of_lookup_2.
Qed.

(** A dimension of size 1 keeps its size in every non-empty part. *)
Lemma part_size_one abs ref t :
  length abs = length ref -> Space.IsEmpty abs = false -> Space.Contains ref abs = true ->
  (t < length ref)%nat -> size_at ref t = 1 -> size_at abs t = 1.
Proof.
  intros Hlen Hne Hc Ht. unfold size_at.
  destruct (lookup_lt_is_Some_2 ref t Ht) as [rr Hrr].
  destruct (lookup_lt_is_Some_2 abs t) as [ra Hra]; [lia|]. rewrite Hrr, Hra.
  pose proof (all2_lookup _ _ _ _ _ _ Hc Hrr Hra) as Hcont.
  pose proof (IsEmpty_lookup _ _ _ Hne Hra) as Hnon.
  apply Range_IsEmpty_false in Hnon. unfold Range.Contains in Hcont.
  apply andb_true_iff in Hcont as [H1 H2]. apply Z.leb_le in H1, H2.
  unfold Range.size. lia.
Qed.

Lemma IndicesAbsToRel_sizes abs ref rels :
  (forall t, t ∈ rels -> (t < length abs)%nat /\ (t < length ref)%nat) ->
  exists r, IndicesAbsToRel abs ref rels = Some r /\
            map Range.size r = map (size_at abs) rels.
Proof.
  unfold IndicesAbsToRel. induction rels as [|t rels IH]; intros Hin.
  - by exists [].
  - destruct IH as (r & Hr & Hsz); [intros x Hx; by apply Hin, list_elem_of_further|].
    destruct (Hin t (list_elem_of_here _ _)) as [Ha Hr'].
    destruct (lookup_lt_is_Some_2 abs t Ha) as [ra Hra].
    destruct (lookup_lt_is_Some_2 ref t Hr') as [rr Hrr].
    exists (Range.unshift ra (Range.first rr) :: r).
    rewrite mapM_Some in Hr. split.
    + apply mapM_Some. constructor; [by rewrite Hra, Hrr | done].
    + simpl. rewrite size_unshift, Hsz. unfold size_at. by rewrite Hra.
Qed.

(** The anchor of a dependency has the effective dimensions and the volume
    of the absolute range it is made from. *)
Lemma IndicesAbsToRel_spec abs ref rels :
  length abs = length ref -> rel_ok ref rels ->
  Space.IsEmpty abs = false -> Space.Contains ref abs = true ->
  exists r, IndicesAbsToRel abs ref rels = Some r /\
            Space.GetEffectiveDimensions r = Space.GetEffectiveDimensions abs /\
            Space.GetVolume r = Space.GetVolume abs.
Proof.
  intros Hlen (Hsort & Hin & Hone) Hne Hc.
  destruct (IndicesAbsToRel_sizes abs ref rels) as (r & Hr & Hsz).
  { intros t Ht. specialize (Hin t Ht). lia. }
  exists r. split; [done|].
  unfold Space.GetEffectiveDimensions. rewrite !GetVolume_product, Hsz, (sizes_seq abs).
  assert (rels = List.filter (fun t => bool_decide (t ∈ rels)) (seq 0 (length abs))) as Hrels.
  { apply sorted_filter_seq; [done|]. intros t Ht. specialize (Hin t Ht). lia. }
  remember (fun t => bool_decide (t ∈ rels)) as pick eqn:Hpick. rewrite Hrels.
  apply pick_ones. intros t Ht Hp. apply list_elem_of_In, in_seq in Ht.
  rewrite Hpick in Hp. apply bool_decide_eq_false in Hp.
  apply (part_size_one abs ref); try done; [lia|]. apply Hone; [lia | done].
Qed.

(** A space that contains another one range by range contains its
    points. *)
Lemma Space_Contains_mem (a s : Space.t) p :
  Space.Contains a s = true -> Space.mem p s -> length a = length s -> Space.mem p a.
Proof.
  intros Hc Hp. revert a Hc. induction Hp as [|z r p s Hz Hp IH]; intros [|x a] Hc Hlen;
    simpl in *; try done; [constructor|].
  apply andb_true_iff in Hc as [Hc1 Hc2]. constructor.
  - by apply (Range_Contains_spec x r).
  - apply IH; [done | lia].
Qed.

(** Conversely, a non-empty space whose points all lie in [a] is contained
    in [a] range by range. *)
Lemma Space_mem_Contains (a s : Space.t) :
  length a = length s -> Space.IsEmpty s = false ->
  (forall p, Space.mem p s -> Space.mem p a) -> Space.Contains a s = true.
Proof.
  revert a. induction s as [|r s IH]; intros [|x a] Hlen Hne Hsub; simpl in *; try done.
  apply orb_false_iff in Hne as [Hr Hs]. apply Range_IsEmpty_false in Hr.
  assert (Space.mem (map Range.begin s) s) as Hpoint.
  { clear -Hs. induction s as [|r' s IH]; simpl in *; [constructor|].
    apply orb_false_iff in Hs as [Hr' Hs]. apply Range_IsEmpty_false in Hr'.
    constructor; [unfold Range.mem, Range.begin; lia | by apply IH]. }
  apply andb_true_iff. split.
  - assert (forall z, Range.mem z r -> Range.mem z x) as Hzx.
    { intros z Hz. specialize (Hsub (z :: map Range.begin s)).
      assert (Space.mem (z :: map Range.begin s) (x :: a)) as Hm
          by (apply Hsub; by constructor).
      by inversion Hm. }
    pose proof (Hzx (Range.Begin_ r)) as H1. pose proof (Hzx (Range.End_ r - 1)) as H2.
    unfold Range.Contains, Range.mem in *. apply andb_true_iff.
    split; apply Z.leb_le; lia.
  - apply IH; [lia | done |]. intros p Hp.
    assert (Space.mem (Range.Begin_ r :: p) (x :: a)) as Hm.
    { apply Hsub. constructor; [unfold Range.mem; lia | done]. }
    by inversion Hm.
Qed.

End AbsToRel.

(* ===================================================================== *)
(** * Dataflow resolution: the divisions of the variables *)
(* ===================================================================== *)

Lemma Space_mem_dec (p : list Z) (s : Space.t) : Space.mem p s \/ ~ Space.mem p s.
Proof.
  revert s. induction p as [|z p IH]; intros [|r s].
  - left. constructor.
  - right. intros H. inversion H.
  - right. intros H. inversion H.
  - destruct (decide (Range.Begin_ r <= z < Range.End_ r)) as [Hz|Hz].
    + destruct (IH s) as [Hs|Hs]; [left; by constructor|].
      right. intros H. inversion H. done.
    + right. intros H. inversion H. done.
Qed.

Section DivisionLabels.

Context {A : Type} `{EqDecision A}.

Import SpaceDivision.

Implicit Types (e : A * Space.t) (p : list Z) (d : SpaceDivision.t A) (sec sub : Space.t).

(** Every point of the bounding space lies in an entry. *)
Definition covered d : Prop :=
  forall p, Space.mem p (FullSpace_ d) -> exists e, e ∈ Sections_ d /\ Space.mem p (snd e).

Lemma AssignSection_FullSpace sec (a : A) d d' :
  AssignSection sec a d = Some d' -> FullSpace_ d' = FullSpace_ d.
Proof. intros H. by apply AssignSection_Some in H as [_ [[_ ->]|[_ ->]]]. Qed.

(** An entry after [AssignSection] is the new one, or a piece of an old
    one outside the assigned space that keeps its label. *)
Lemma AssignSection_sections sec (a : A) d d' e' :
  Inv d -> AssignSection sec a d = Some d' -> e' ∈ Sections_ d' ->
  (e' = (a, Space.inter sec (FullSpace_ d)) /\
   Space.IsEmpty (Space.inter sec (FullSpace_ d)) = false) \/
  (exists e, e ∈ Sections_ d /\ fst e' = fst e /\
             forall p, Space.mem p (snd e') -> Space.mem p (snd e) /\ ~ Space.mem p sec).
Proof.
  intros [Hall _] Hsome He'. rewrite Forall_forall in Hall.
  apply AssignSection_Some in Hsome as [Hlen [[Hemp ->]|[Hne ->]]].
  - right. exists e'. split; [done|]. split; [done|]. intros p Hp. split; [done|].
    intros Hsec. destruct (Hall e' He') as (_ & _ & Hsub).
    apply (Space_IsEmpty_no_points _ p Hemp). apply Space_mem_inter; [done|].
    split; [done | by apply Hsub].
  - simpl in He'. apply elem_of_app in He' as [He'|He'].
    + right. apply list_elem_of_In, in_flat_map in He' as (e & He & He').
      apply list_elem_of_In in He, He'. destruct (Hall e He) as (Hl & Hn & Hsub).
      destruct (trim_or_keep_spec _ e e' Hn Hne He') as (Hfst & _ & _ & Hm).
      exists e. split; [done|]. split; [done|]. intros p Hp.
      destruct (Hm p Hp) as [Hpe Hnot]. split; [done|]. intros Hsec. apply Hnot.
      apply Space_mem_inter; [done|]. split; [done | by apply Hsub].
    + left. by apply list_elem_of_singleton in He' as ->.
Qed.

(** After [AssignSection], a point of the bounding space lies in the new
    entry or in a piece of the entry it was in. *)
Lemma AssignSection_cover sec (a : A) d d' e p :
  Inv d -> AssignSection sec a d = Some d' -> e ∈ Sections_ d -> Space.mem p (snd e) ->
  exists e', e' ∈ Sections_ d' /\ Space.mem p (snd e') /\
             (fst e' = fst e \/ e' = (a, Space.inter sec (FullSpace_ d))).
Proof.
  intros [Hall _] Hsome He Hp. rewrite Forall_forall in Hall.
  destruct (Hall e He) as (Hl & Hn & Hsub).
  apply AssignSection_Some in Hsome as [Hlen [[Hemp ->]|[Hne ->]]].
  - exists e. split; [done|]. split; [done | by left].
  - set (sec' := Space.inter sec (FullSpace_ d)) in *.
    destruct (Space_mem_dec p sec') as [Hin|Hout].
    + exists (a, sec'). split; [|split; [done | by right]].
      simpl. apply elem_of_app. right. apply list_elem_of_here.
    + destruct (trim_or_keep_cover sec' e p) as (s & Hs & Hps); [|done|done|].
      { unfold sec'. rewrite Space_inter_length; lia. }
      exists (fst e, s). split; [|split; [done | by left]].
      simpl. apply elem_of_app. left. apply list_elem_of_In, in_flat_map.
      exists e. split; by apply list_elem_of_In.
Qed.

Lemma AssignSection_covered sec (a : A) d d' :
  Inv d -> covered d -> AssignSection sec a d = Some d' -> covered d'.
Proof.
  intros Hinv Hcov Hsome p Hp. rewrite (AssignSection_FullSpace _ _ _ _ Hsome) in Hp.
  destruct (Hcov p Hp) as (e & He & Hpe).
  destruct (AssignSection_cover sec a d d' e p Hinv Hsome He Hpe) as (e' & He' & Hpe' & _).
  by exists e'.
Qed.

Lemma SubDivision_total sub d :
  Inv d -> length sub = length (FullSpace_ d) -> is_Some (SubDivision sub d).
Proof.
  intros [Hall _] Hlen. unfold SubDivision.
  rewrite (proj2 (Nat.eqb_eq _ _) Hlen). simpl.
  by rewrite (same_dims_ok (FullSpace_ d)).
Qed.

(** The entries of a sub-division are the non-empty intersections of the
    entries with the sub-space. *)
Lemma SubDivision_sections sub d d' e' :
  SubDivision sub d = Some d' ->
  e' ∈ Sections_ d' <->
  exists e, e ∈ Sections_ d /\ e' = (fst e, Space.inter (snd e) sub) /\
            Space.IsEmpty (Space.inter (snd e) sub) = false.
Proof.
  unfold SubDivision. destruct (negb _); [done|]. destruct (negb _); [done|].
  intros [= <-]. simpl. rewrite list_elem_of_In, in_flat_map. split.
  - intros (e & He & He'). exists e. split; [by apply list_elem_of_In|].
    destruct (Space.IsEmpty _) eqn:Hemp; [done|]. destruct He' as [<-|[]]. done.
  - intros (e & He & -> & Hne). exists e. split; [by apply list_elem_of_In|].
    rewrite Hne. by left.
Qed.

End DivisionLabels.

Lemma Space_nonempty_point (s : Space.t) :
  Space.IsEmpty s = false -> Space.mem (map Range.begin s) s.
Proof.
  induction s as [|r s IH]; simpl; [constructor|]. intros Hs.
  apply orb_false_iff in Hs as [Hr Hs]. apply Range_IsEmpty_false in Hr.
  constructor; [unfold Range.mem, Range.begin; lia | by apply IH].
Qed.

Lemma StronglySorted_seq (a n : nat) : StronglySorted lt (seq a n).
Proof.
  revert a. induction n as [|n IH]; intros a; simpl; constructor; [done|].
  apply List.Forall_forall. intros x Hx. apply in_seq in Hx. lia.
Qed.

Lemma size_at_of_dims (dims : list Z) (t : nat) (d : Z) :
  dims !! t = Some d -> MetaKernelSeq.size_at (Space.of_dims dims) t = d.
Proof.
  intros Hd. unfold MetaKernelSeq.size_at, Space.of_dims.
  rewrite list_lookup_fmap, Hd. simpl. unfold Range.size. simpl. lia.
Qed.

Lemma Space_mem_of_dims_inter (dims : list Z) (p : list Z) :
  Space.mem p (Space.inter (Space.of_dims dims) (Space.of_dims dims)) <->
  Space.mem p (Space.of_dims dims).
Proof. rewrite Space_mem_inter by done. tauto. Qed.

Section Dataflow.

Import MetaKernelSeq.

Local Abbreviation Division := (SpaceDivision.t (option ArgRef)).

Variable Variables : list Packet.t.
Variable KernelPackets : list Packet.t.
Variable Operations : list KernelCall.

Implicit Types (v : VarRef) (pd : ArgRef) (p q : list Z) (st : state) (sd : Division)
         (arg : Argument) (op : KernelCall) (var pk : Packet.t) (k j : nat)
         (e : option ArgRef * Space.t) (d : Dependency).

(** The argument [j] of the operation [k] writes the point [p] of [v]. *)
Definition writes k j v p : Prop :=
  exists op arg access,
    Operations !! k = Some op /\ Args_ op !! j = Some arg /\
    demand_access op j = Some access /\ access <> Packet.in_ /\
    Variable_ arg = v /\ Space.mem p (Indices_ arg).

(** The meta-kernel receives the point [p] of [v], its packet [i], from
    outside. *)
Definition received (i : nat) v p : Prop :=
  v = KernelPacket i /\
  exists pk, KernelPackets !! i = Some pk /\ Packet.Access_ pk <> Packet.out /\
             Space.mem p (Space.of_dims (Packet.ArrayDims_ pk)).

(** The point [p] of [v] is defined when the argument [j] of the operation
    [k] is reached: it is an input of the meta-kernel, or an argument
    before has written it. *)
Definition initialized k j v p : Prop :=
  (exists i, received i v p) \/
  (exists k' j', ((k' < k)%nat \/ k' = k /\ (j' < j)%nat) /\ writes k' j' v p).

Definition defines pd v p : Prop :=
  match pd with
  | MkArg i => received i v p
  | OpArg k j => writes k j v p
  end.

Definition earlier k j pd : Prop :=
  match pd with
  | MkArg _ => True
  | OpArg k' j' => (k' < k)%nat \/ k' = k /\ (j' < j)%nat
  end.

(** An entry of the division of [v] when the argument [j] of the operation
    [k] is reached: its label defines all its points, and the points
    without a label are not defined. *)
Definition sec_ok k j v e : Prop :=
  match fst e with
  | Some pd => earlier k j pd /\ forall p, Space.mem p (snd e) -> defines pd v p
  | None => forall p, Space.mem p (snd e) -> ~ initialized k j v p
  end.

Definition div_ok k j v var sd : Prop :=
  Inv sd /\ SpaceDivision.FullSpace_ sd = Space.of_dims (Packet.ArrayDims_ var) /\
  covered sd /\ Forall (sec_ok k j v) (SpaceDivision.Sections_ sd).

Definition defs_ok k j st : Prop :=
  forall v var, deref Variables KernelPackets v = Some var ->
                exists sd, defs_at st v = Some sd /\ div_ok k j v var sd.

(** The dimensions that [Space(dims)] and the dummy arguments of the
    inputs accept. *)
Definition packet_ok pk : Prop :=
  Forall (fun dim => if bool_decide (Packet.Access_ pk = Packet.out)
                     then 0 <= dim else 0 < dim)
         (Packet.ArrayDims_ pk).

Definition variable_ok var : Prop := Forall (fun dim => 0 <= dim) (Packet.ArrayDims_ var).

(** What [Dependency::CheckCompatibility] and [GetMemSize] say about a
    dependency, with the byte size of the [To] side. *)
Definition dep_ok d : Prop :=
  exists frompack topack,
    iface_packet KernelPackets Operations (TheIface (From d)) = Some frompack /\
    iface_packet KernelPackets Operations (TheIface (To d)) = Some topack /\
    CheckCompatibility frompack topack d = true /\
    GetMemSize frompack d
    = Space.GetVolume (Index (To d)) * BaseType.Size (Packet.BaseType_ topack).

Hypothesis Hops : Forall (op_ok Variables KernelPackets) Operations.
Hypothesis Hvars : Forall variable_ok Variables.
Hypothesis Hpackets : Forall packet_ok KernelPackets.

Lemma earlier_defines_initialized k j pd v p :
  earlier k j pd -> defines pd v p -> initialized k j v p.
Proof.
  destruct pd as [i|k' j']; simpl; intros He Hd.
  - left. by exists i.
  - right. by exists k', j'.
Qed.

Lemma op_argument k op j arg :
  Operations !! k = Some op -> Args_ op !! j = Some arg ->
  exists demand, Kernel.Packets (Callee_ op) !! j = Some demand /\
                 passed_ok Variables KernelPackets (DerivedParams_ op) arg demand.
Proof.
  intros Hop Harg. pose proof (Forall_lookup_1 _ _ _ _ Hops Hop) as Hok.
  destruct (Forall2_lookup_l _ _ _ _ _ Hok Harg) as (demand & Hd & Hp). by exists demand.
Qed.

Lemma variable_dims_nonneg v var :
  deref Variables KernelPackets v = Some var -> variable_ok var.
Proof.
  destruct v as [i|i]; simpl; intros Hv.
  - by apply (Forall_lookup_1 _ _ _ _ Hvars Hv).
  - pose proof (Forall_lookup_1 _ _ _ _ Hpackets Hv) as Hpk.
    unfold packet_ok, variable_ok in *. eapply Forall_impl; [exact Hpk|].
    intros dim Hdim. simpl in Hdim. destruct (bool_decide _); lia.
Qed.

(** ** The dummy arguments of the inputs *)

Lemma check_indices_full name (dims : list Z) : forall i,
  Forall (fun dim => 0 < dim) dims ->
  fst (check_indices name i (Space.of_dims dims) dims) = [].
Proof.
  induction dims as [|dim dims IH]; intros i Hpos; simpl; [done|].
  inversion Hpos as [|? ? Hdim Hrest]; subst. specialize (IH (i + 1) Hrest).
  destruct (check_indices name (i + 1) (Space.of_dims dims) dims) as [errs resdim].
  simpl in *. subst errs. unfold Range.Contains, Range.size. simpl.
  rewrite (proj2 (Z.leb_le _ _)) by lia.
  replace (0 + dim - 0 =? 0) with false by (symmetry; apply Z.eqb_neq; lia).
  done.
Qed.

Lemma input_arg_spec (i : nat) pk :
  KernelPackets !! i = Some pk -> Packet.Access_ pk <> Packet.out ->
  exists a, input_arg Variables KernelPackets i = Some a /\
            Variable_ a = KernelPacket i /\
            Indices_ a = Space.of_dims (Packet.ArrayDims_ pk) /\
            RelevantDims_ a = seq 0 (length (Packet.ArrayDims_ pk)) /\
            Iface_ a = Some (mkIfaceRef Inputs i).
Proof.
  intros Hpk Hacc. pose proof (Forall_lookup_1 _ _ _ _ Hpackets Hpk) as Hdims.
  unfold packet_ok in Hdims. rewrite bool_decide_eq_false_2 in Hdims by done.
  unfold input_arg, Argument_ctor. simpl. rewrite Hpk.
  assert (existsb (fun dim => dim <? 0) (Packet.ArrayDims_ pk) = false) as ->.
  { apply not_true_is_false. intros Hex. apply existsb_exists in Hex as (dim & Hin & Hneg).
    apply list_elem_of_In in Hin. rewrite Forall_forall in Hdims.
    specialize (Hdims dim Hin). apply Z.ltb_lt in Hneg. lia. }
  assert (length (Space.of_dims (Packet.ArrayDims_ pk)) = length (Packet.ArrayDims_ pk))
    as Hlen by apply length_map.
  rewrite Hlen, Nat.ltb_irrefl, drop_all. simpl. rewrite app_nil_r.
  pose proof (check_indices_full (Packet.Name_ pk) (Packet.ArrayDims_ pk) 0 Hdims) as Hchk.
  destruct (check_indices _ _ _ _) as [errs resdim]. simpl in Hchk. subst errs.
  simpl. eexists. split; [done|]. done.
Qed.

(** ** What a definition provides to its readers *)

Definition source_ok v pd (a : Argument) : Prop :=
  get_arg Variables KernelPackets Operations pd = Some a /\
  rel_ok (Indices_ a) (RelevantDims_ a) /\
  exists var ifc pk,
    deref Variables KernelPackets v = Some var /\
    length (Indices_ a) = length (Packet.ArrayDims_ var) /\
    Iface_ a = Some ifc /\
    iface_packet KernelPackets Operations ifc = Some pk /\
    BaseType.Size (Packet.BaseType_ pk) = BaseType.Size (Packet.BaseType_ var).

Lemma defines_source pd v p :
  defines pd v p -> exists a, source_ok v pd a /\ Space.mem p (Indices_ a).
Proof.
  destruct pd as [i|k j]; simpl.
  - intros (-> & pk & Hpk & Hacc & Hp).
    destruct (input_arg_spec i pk Hpk Hacc) as (a & Ha & Hv & Hi & Hr & Hif).
    exists a. split; [|by rewrite Hi]. split; [done|]. split.
    + rewrite Hi, Hr. split; [apply StronglySorted_seq|]. split.
      * intros t Ht. apply elem_of_seq in Ht. unfold Space.of_dims. rewrite length_map. lia.
      * intros t Ht Hnot. exfalso. apply Hnot, elem_of_seq.
        unfold Space.of_dims in Ht. rewrite length_map in Ht. lia.
    + exists pk, (mkIfaceRef Inputs i), pk. simpl. rewrite Hi.
      split; [done|]. split; [apply length_map|]. done.
  - intros (op & arg & access & Hop & Harg & Hacc & Hne & Hv & Hp).
    destruct (op_argument k op j arg Hop Harg)
      as (demand & Hd & (var & Hvar & Hlen & _ & _) & Hrel & (supply & Hsup & Hcomp) & _).
    exists (set_Iface (mkIfaceRef (OpTask k) j) arg). split; [|done]. split.
    + simpl. by rewrite Hop, Harg.
    + split; [done|]. exists var, (mkIfaceRef (OpTask k) j), demand.
      unfold iface_packet. simpl. rewrite Hop. rewrite <- Hv. split; [done|]. split; [done|]. split; [done|].
      split; [done|]. rewrite Hvar in Hsup. injection Hsup as <-.
      unfold BaseType.IsCompatible in Hcomp. by apply Z.eqb_eq in Hcomp.
Qed.

(** An entry whose label defines all its points lies, range by range, in
    the indices of the defining argument; so the anchor at the defining
    side can be made, and it keeps the effective dimensions and the volume
    of the entry. *)
Lemma def_anchor_spec pd v var (s : Space.t) :
  deref Variables KernelPackets v = Some var ->
  Space.IsEmpty s = false -> length s = length (Packet.ArrayDims_ var) ->
  (forall p, Space.mem p s -> defines pd v p) ->
  exists from pk,
    def_anchor Variables KernelPackets Operations pd s = Some from /\
    iface_packet KernelPackets Operations (TheIface from) = Some pk /\
    BaseType.Size (Packet.BaseType_ pk) = BaseType.Size (Packet.BaseType_ var) /\
    Space.GetEffectiveDimensions (Index from) = Space.GetEffectiveDimensions s /\
    Space.GetVolume (Index from) = Space.GetVolume s.
Proof.
  intros Hvar Hne Hlen Hdef.
  destruct (defines_source pd v _ (Hdef _ (Space_nonempty_point s Hne)))
    as (a & (Ha & Hrel & var' & ifc & pk & Hvar' & Hla & Hif & Hpk & Hsize) & _).
  rewrite Hvar in Hvar'. injection Hvar' as <-.
  assert (Space.Contains (Indices_ a) s = true) as Hcont.
  { apply Space_mem_Contains; [lia | done |]. intros p Hp.
    destruct (defines_source pd v p (Hdef p Hp)) as (a' & (Ha' & _) & Hpa).
    rewrite Ha in Ha'. by injection Ha' as <-. }
  destruct (IndicesAbsToRel_spec s (Indices_ a) (RelevantDims_ a)) as (r & Hr & Heff & Hvol);
    [lia | done | done | done |].
  exists (mkAnchor ifc r), pk. unfold def_anchor. rewrite Ha, Hif, Hr. done.
Qed.

(** The same at the side of the reader. *)
Lemma to_anchor_spec k op j arg demand (s : Space.t) :
  Operations !! k = Some op -> Args_ op !! j = Some arg ->
  Kernel.Packets (Callee_ op) !! j = Some demand ->
  Space.IsEmpty s = false -> length s = length (Indices_ arg) ->
  (forall p, Space.mem p s -> Space.mem p (Indices_ arg)) ->
  exists r, IndicesAbsToRel s (Indices_ arg) (RelevantDims_ arg) = Some r /\
            Space.GetEffectiveDimensions r = Space.GetEffectiveDimensions s /\
            Space.GetVolume r = Space.GetVolume s.
Proof.
  intros Hop Harg Hd Hne Hlen Hsub.
  destruct (op_argument k op j arg Hop Harg) as (demand' & Hd' & _ & Hrel & _).
  apply IndicesAbsToRel_spec; [done | done | done |].
  apply Space_mem_Contains; [lia | done | done].
Qed.

(** ** The divisions along the writes *)

Lemma defs_at_set_defs_eq v (sd sd0 : Division) st :
  defs_at st v = Some sd0 -> defs_at (set_defs v sd st) v = Some sd.
Proof.
  destruct v as [i|i]; simpl; intros H; apply list_lookup_insert_eq;
    by eapply lookup_lt_Some.
Qed.

Lemma defs_at_set_defs_ne v v' (sd : Division) st :
  v <> v' -> defs_at (set_defs v sd st) v' = defs_at st v'.
Proof.
  destruct v as [i|i], v' as [i'|i']; simpl; intros Hne; try done;
    apply list_lookup_insert_ne; congruence.
Qed.

Lemma writes_argument k j op arg v p :
  Operations !! k = Some op -> Args_ op !! j = Some arg -> writes k j v p ->
  Variable_ arg = v /\ Space.mem p (Indices_ arg) /\
  exists access, demand_access op j = Some access /\ access <> Packet.in_.
Proof.
  intros Hop Harg (op' & arg' & access & Hop' & Harg' & Hacc & Hne & Hv & Hp).
  rewrite Hop in Hop'. injection Hop' as <-. rewrite Harg in Harg'. injection Harg' as <-.
  split; [done|]. split; [done|]. by exists access.
Qed.

(** Passing an argument that does not write [v]. *)
Lemma div_ok_next k j v var sd :
  (forall p, ~ writes k j v p) -> div_ok k j v var sd -> div_ok k (S j) v var sd.
Proof.
  intros Hnot (Hinv & Hfull & Hcov & Hsec). split; [done|]. split; [done|]. split; [done|].
  eapply Forall_impl; [exact Hsec|]. intros e. unfold sec_ok.
  destruct (fst e) as [pd|].
  - intros [Hearly Hdef]. split; [|done]. destruct pd as [|k' j']; simpl in *; [done | lia].
  - intros Hnone p Hp [Hrecv|(k' & j' & Hpos & Hw)].
    + apply (Hnone p Hp). by left.
    + destruct (decide (k' = k /\ j' = j)) as [[-> ->]|Hother]; [by apply (Hnot p)|].
      apply (Hnone p Hp). right. exists k', j'. split; [lia | done].
Qed.

(** Passing the last argument of the operation [k]. *)
Lemma div_ok_end k op v var sd :
  Operations !! k = Some op ->
  div_ok k (length (Args_ op)) v var sd -> div_ok (S k) 0 v var sd.
Proof.
  intros Hop (Hinv & Hfull & Hcov & Hsec). split; [done|]. split; [done|]. split; [done|].
  eapply Forall_impl; [exact Hsec|]. intros e. unfold sec_ok.
  destruct (fst e) as [pd|].
  - intros [Hearly Hdef]. split; [|done]. destruct pd as [|k' j']; simpl in *; [done | lia].
  - intros Hnone p Hp [Hrecv|(k' & j' & Hpos & Hw)].
    + apply (Hnone p Hp). by left.
    + apply (Hnone p Hp). right. exists k', j'. split; [|done].
      destruct (decide (k' = k)) as [->|]; [|lia]. right. split; [done|].
      destruct Hw as (op' & arg & _ & Hop' & Harg & _).
      rewrite Hop in Hop'. injection Hop' as <-. by eapply lookup_lt_Some.
Qed.

(** The argument [j] of the operation [k] writes [v]. *)
Lemma div_ok_write k j op arg access v var sd :
  Operations !! k = Some op -> Args_ op !! j = Some arg ->
  demand_access op j = Some access -> access <> Packet.in_ ->
  Variable_ arg = v -> deref Variables KernelPackets v = Some var ->
  div_ok k j v var sd ->
  exists sd', SpaceDivision.AssignSection (Indices_ arg) (Some (OpArg k j)) sd = Some sd' /\
              div_ok k (S j) v var sd'.
Proof.
  intros Hop Harg Hacc Hne Hv Hvar (Hinv & Hfull & Hcov & Hsec).
  destruct (op_argument k op j arg Hop Harg) as (demand & _ & (var' & Hvar' & Hlen & _) & _).
  rewrite Hv, Hvar in Hvar'. injection Hvar' as <-.
  assert (length (Indices_ arg) = length (SpaceDivision.FullSpace_ sd)) as Hlen'.
  { rewrite Hfull. unfold Space.of_dims. by rewrite length_map. }
  destruct (AssignSection_total (Indices_ arg) (Some (OpArg k j)) sd Hinv Hlen')
    as [sd' Hsd'].
  exists sd'. split; [done|]. split; [by eapply AssignSection_Inv|].
  split; [by rewrite (AssignSection_FullSpace _ _ _ _ Hsd')|].
  split; [by eapply AssignSection_covered|].
  apply Forall_forall. intros e' He'. rewrite Forall_forall in Hsec.
  destruct (AssignSection_sections _ _ _ _ _ Hinv Hsd' He') as [[-> _]|(e & He & Hfst & Hsub)].
  - split; simpl; [lia|]. intros p Hp. apply Space_mem_inter in Hp as [Hp _]; [|done].
    by exists op, arg, access.
  - specialize (Hsec e He). unfold sec_ok in *. rewrite Hfst.
    destruct (fst e) as [pd|].
    + destruct Hsec as [Hearly Hdef]. split.
      * destruct pd as [|k' j']; simpl in *; [done | lia].
      * intros p Hp. by apply Hdef, Hsub.
    + intros p Hp [Hrecv|(k' & j' & Hpos & Hw)].
      * apply (Hsec p); [by apply Hsub | by left].
      * destruct (decide (k' = k /\ j' = j)) as [[-> ->]|Hother].
        -- destruct (writes_argument _ _ _ _ _ _ Hop Harg Hw) as (_ & Hin & _).
           by apply (Hsub p Hp).
        -- apply (Hsec p); [by apply Hsub|]. right. exists k', j'. split; [lia | done].
Qed.

Lemma demand_access_Some k op j arg :
  Operations !! k = Some op -> Args_ op !! j = Some arg ->
  exists demand, Kernel.Packets (Callee_ op) !! j = Some demand /\
                 demand_access op j = Some (Packet.Access_ demand).
Proof.
  intros Hop Harg. destruct (op_argument k op j arg Hop Harg) as (demand & Hd & _).
  exists demand. split; [done|]. unfold demand_access. by rewrite Hd.
Qed.

Lemma argument_variable k op j arg :
  Operations !! k = Some op -> Args_ op !! j = Some arg ->
  exists var, deref Variables KernelPackets (Variable_ arg) = Some var /\
              length (Indices_ arg) = length (Packet.ArrayDims_ var) /\
              forall p, Space.mem p (Indices_ arg) ->
                        Space.mem p (Space.of_dims (Packet.ArrayDims_ var)).
Proof.
  intros Hop Harg.
  destruct (op_argument k op j arg Hop Harg) as (demand & _ & (var & Hvar & Hlen & _ & Hc) & _).
  exists var. split; [done|]. split; [done|]. intros p Hp.
  apply (Space_Contains_mem _ (Indices_ arg)); [done | done |].
  unfold Space.of_dims. rewrite length_map. lia.
Qed.

(** The second loop over the arguments returns and brings the divisions
    up to date; it leaves the rest of the state alone. *)
Lemma write_args_spec k op : forall args j st,
  Operations !! k = Some op ->
  (forall i arg, args !! i = Some arg -> Args_ op !! (j + i)%nat = Some arg) ->
  defs_ok k j st ->
  exists st', write_args k op j args st = Some st' /\
              defs_ok k (j + length args) st' /\
              Dependencies st' = Dependencies st /\ Errors st' = Errors st /\
              Tasks st' = Tasks st /\ instcounts st' = instcounts st.
Proof.
  induction args as [|arg args IH]; intros j st Hop Hargs Hdefs; simpl.
  - exists st. rewrite Nat.add_0_r. done.
  - assert (Args_ op !! j = Some arg) as Harg
        by (rewrite <- (Nat.add_0_r j); by apply Hargs).
    assert (forall i a, args !! i = Some a -> Args_ op !! (S j + i)%nat = Some a) as Hargs'.
    { intros i a Ha. replace (S j + i)%nat with (j + S i)%nat by lia. by apply Hargs. }
    destruct (demand_access_Some k op j arg Hop Harg) as (demand & Hd & Hacc).
    rewrite Hacc. replace (j + S (length args))%nat with (S j + length args)%nat by lia.
    destruct (bool_decide_reflect (Packet.Access_ demand = Packet.in_)) as [Hin|Hout].
    + apply IH; [done | done |]. intros v var Hvar.
      destruct (Hdefs v var Hvar) as (sd & Hsd & Hok). exists sd. split; [done|].
      apply div_ok_next; [|done]. intros p Hw.
      destruct (writes_argument _ _ _ _ _ _ Hop Harg Hw) as (_ & _ & access & Ha & Hne).
      rewrite Hacc in Ha. by injection Ha as <-.
    + destruct (argument_variable k op j arg Hop Harg) as (var & Hvar & _).
      destruct (Hdefs _ var Hvar) as (sd & Hsd & Hok). rewrite Hsd.
      destruct (div_ok_write k j op arg _ _ var sd Hop Harg Hacc Hout eq_refl Hvar Hok)
        as (sd' & Hsd' & Hok').
      rewrite Hsd'.
      destruct (IH (S j) (set_defs (Variable_ arg) sd' st) Hop Hargs') as (st' & Hst' & Hrest).
      * intros v var' Hvar'. destruct (decide (Variable_ arg = v)) as [<-|Hne].
        -- exists sd'. split; [by eapply defs_at_set_defs_eq|].
           rewrite Hvar in Hvar'. by injection Hvar' as <-.
        -- rewrite defs_at_set_defs_ne by done.
           destruct (Hdefs v var' Hvar') as (sd0 & Hsd0 & Hok0). exists sd0. split; [done|].
           apply div_ok_next; [|done]. intros p Hw.
           by destruct (writes_argument _ _ _ _ _ _ Hop Harg Hw) as (Hv & _).
      * exists st'. split; [done|]. destruct Hrest as (H1 & H2 & H3 & H4 & H5).
        split; [done|]. rewrite H2, H3, H4, H5. by destruct (Variable_ arg).
Qed.

(** ** The reads *)

(** What the loops over the sections do to the state: dependencies that
    pass the checks and errors are appended. *)
Definition reads st st' : Prop :=
  defs_local st' = defs_local st /\ defs_packet st' = defs_packet st /\
  Tasks st' = Tasks st /\ instcounts st' = instcounts st /\
  (exists deps, Dependencies st' = Dependencies st ++ deps /\ Forall dep_ok deps) /\
  (exists errs, Errors st' = Errors st ++ errs).

Lemma reads_refl st : reads st st.
Proof.
  repeat (split; [done|]). split; exists []; by rewrite app_nil_r.
Qed.

Lemma reads_trans st1 st2 st3 : reads st1 st2 -> reads st2 st3 -> reads st1 st3.
Proof.
  intros (A1 & A2 & A3 & A4 & (deps1 & A5 & A6) & (errs1 & A7))
         (B1 & B2 & B3 & B4 & (deps2 & B5 & B6) & (errs2 & B7)).
  split; [congruence|]. split; [congruence|]. split; [congruence|]. split; [congruence|].
  split.
  - exists (deps1 ++ deps2). rewrite B5, A5, app_assoc. split; [done|]. by apply Forall_app.
  - exists (errs1 ++ errs2). by rewrite B7, A7, app_assoc.
Qed.

Lemma reads_add_error (x : error) st : reads st (add_error x st).
Proof.
  repeat (split; [done|]). split; [exists []; by rewrite app_nil_r | by exists [x]].
Qed.

Lemma reads_add_dependency d st : dep_ok d -> reads st (add_dependency d st).
Proof.
  intros Hd. repeat (split; [done|]). split; [|exists []; by rewrite app_nil_r].
  exists [d]. split; [done|]. by constructor.
Qed.

Lemma reads_errors st st' (x : error) : reads st st' -> x ∈ Errors st -> x ∈ Errors st'.
Proof.
  intros (_ & _ & _ & _ & _ & errs & ->) Hx. apply elem_of_app. by left.
Qed.

Lemma reads_defs_ok k j st st' : reads st st' -> defs_ok k j st -> defs_ok k j st'.
Proof.
  intros (Hl & Hp & _) Hdefs v var Hvar. destruct (Hdefs v var Hvar) as (sd & Hsd & Hok).
  exists sd. split; [|done]. destruct v; simpl in *; congruence.
Qed.

(** A dependency between an entry and the argument that reads it. *)
Lemma read_dependency_ok k op j arg demand v var pd (s : Space.t) :
  Operations !! k = Some op -> Args_ op !! j = Some arg ->
  Kernel.Packets (Callee_ op) !! j = Some demand ->
  Variable_ arg = v -> deref Variables KernelPackets v = Some var ->
  Space.IsEmpty s = false -> length s = length (Indices_ arg) ->
  (forall p, Space.mem p s -> Space.mem p (Indices_ arg)) ->
  (forall p, Space.mem p s -> defines pd v p) ->
  exists from r,
    def_anchor Variables KernelPackets Operations pd s = Some from /\
    IndicesAbsToRel s (Indices_ arg) (RelevantDims_ arg) = Some r /\
    dep_ok (mkDependency from (mkAnchor (mkIfaceRef (OpTask k) j) r)).
Proof.
  intros Hop Harg Hd Hv Hvar Hne Hlen Hsub Hdef.
  destruct (op_argument k op j arg Hop Harg)
    as (demand' & Hd' & (var' & Hvar' & Hlen' & _) & _ & (supply & Hsup & Hcomp) & _).
  rewrite Hd in Hd'. injection Hd' as <-.
  rewrite Hv, Hvar in Hvar', Hsup. injection Hvar' as <-. injection Hsup as <-.
  destruct (def_anchor_spec pd v var s Hvar Hne) as (from & pk & Hfrom & Hpk & Hsize & Heff & Hvol);
    [lia | done |].
  destruct (to_anchor_spec k op j arg demand s Hop Harg Hd Hne Hlen Hsub) as (r & Hr & Heff' & Hvol').
  exists from, r. split; [done|]. split; [done|].
  unfold BaseType.IsCompatible in Hcomp. apply Z.eqb_eq in Hcomp.
  exists pk, demand. simpl. split; [done|]. split.
  { unfold iface_packet. simpl. by rewrite Hop. }
  unfold CheckCompatibility, GetMemSize, BaseType.IsCompatible. simpl. split.
  - apply andb_true_iff. split; [apply Z.eqb_eq; congruence|].
    apply bool_decide_eq_true. congruence.
  - rewrite Hvol, Hvol', Hsize, Hcomp. done.
Qed.

(** The loop over the sections of one argument returns; it appends a
    dependency for every entry with a label and an error for every entry
    without. *)
Lemma read_sections_spec k op j arg demand taskname v var :
  Operations !! k = Some op -> Args_ op !! j = Some arg ->
  Kernel.Packets (Callee_ op) !! j = Some demand ->
  Variable_ arg = v -> deref Variables KernelPackets v = Some var ->
  forall sections st,
    Forall (fun e => Space.IsEmpty (snd e) = false /\
                     length (snd e) = length (Indices_ arg) /\
                     (forall p, Space.mem p (snd e) -> Space.mem p (Indices_ arg)) /\
                     match fst e with
                     | Some pd => forall p, Space.mem p (snd e) -> defines pd v p
                     | None => True
                     end) sections ->
    exists st',
      read_sections Variables KernelPackets Operations taskname (Packet.Name_ var)
        (fun defrange =>
           mkAnchor (mkIfaceRef (OpTask k) j)
             <$> IndicesAbsToRel defrange (Indices_ arg) (RelevantDims_ arg))
        sections st = Some st' /\
      reads st st' /\
      forall s, (None, s) ∈ sections ->
                UninitializedInput taskname (Packet.Name_ var) s ∈ Errors st'.
Proof.
  intros Hop Harg Hd Hv Hvar. induction sections as [|[label s] sections IH]; intros st Hall.
  - exists st. split; [done|]. split; [apply reads_refl|]. intros s Hs.
    by apply elem_of_nil in Hs.
  - inversion Hall as [|? ? (Hne & Hlen & Hsub & Hlabel) Hrest]; subst. simpl in *.
    destruct label as [pd|].
    + destruct (read_dependency_ok k op j arg demand _ var pd s Hop Harg Hd eq_refl Hvar
                  Hne Hlen Hsub Hlabel) as (from & r & Hfrom & Hr & Hdep).
      rewrite Hfrom, Hr. simpl.
      destruct (IH (add_dependency
                      (mkDependency from (mkAnchor (mkIfaceRef (OpTask k) j) r)) st) Hrest)
        as (st' & Hst' & Hreads & Herr).
      exists st'. split; [done|]. split.
      * eapply reads_trans; [by apply reads_add_dependency | done].
      * intros s0 Hs0. apply elem_of_cons in Hs0 as [[=]|Hs0]. by apply Herr.
    + destruct (IH (add_error (UninitializedInput taskname (Packet.Name_ var) s) st) Hrest)
        as (st' & Hst' & Hreads & Herr).
      exists st'. split; [done|]. split.
      * eapply reads_trans; [apply reads_add_error | done].
      * intros s0 Hs0. apply elem_of_cons in Hs0 as [[= ->]|Hs0]; [|by apply Herr].
        apply (reads_errors _ _ _ Hreads). simpl. apply elem_of_app. right.
        apply list_elem_of_here.
Qed.

(** What is reported for a read of the operation [k]: the error names the
    task and the variable, and its region holds the point, lies in the
    indices of the argument and is not defined anywhere. *)
Definition read_reported k (taskname : string) arg var p st : Prop :=
  exists region,
    UninitializedInput taskname (Packet.Name_ var) region ∈ Errors st /\
    Space.mem p region /\
    forall q, Space.mem q region ->
              Space.mem q (Indices_ arg) /\ ~ initialized k 0 (Variable_ arg) q.

(** The entries of the sub-division that an argument reads. *)
Lemma subdivision_read k op j arg v var sd (subdiv : Division) :
  Operations !! k = Some op -> Args_ op !! j = Some arg ->
  Variable_ arg = v -> deref Variables KernelPackets v = Some var ->
  div_ok k 0 v var sd ->
  SpaceDivision.SubDivision (Indices_ arg) sd = Some subdiv ->
  Forall (fun e => Space.IsEmpty (snd e) = false /\
                   length (snd e) = length (Indices_ arg) /\
                   (forall p, Space.mem p (snd e) -> Space.mem p (Indices_ arg)) /\
                   match fst e with
                   | Some pd => forall p, Space.mem p (snd e) -> defines pd v p
                   | None => True
                   end) (SpaceDivision.Sections_ subdiv) /\
  forall p, Space.mem p (Indices_ arg) -> ~ initialized k 0 v p ->
            exists region, (None, region) ∈ SpaceDivision.Sections_ subdiv /\
                           Space.mem p region /\
                           forall q, Space.mem q region ->
                                     Space.mem q (Indices_ arg) /\ ~ initialized k 0 v q.
Proof.
  intros Hop Harg Hv Hvar ((Hall & Hpd) & Hfull & Hcov & Hsec) Hsub.
  destruct (argument_variable k op j arg Hop Harg) as (var' & Hvar' & Hlen & Hin).
  rewrite Hv, Hvar in Hvar'. injection Hvar' as <-.
  rewrite Forall_forall in Hall, Hsec.
  assert (forall e, e ∈ SpaceDivision.Sections_ sd -> length (snd e) = length (Indices_ arg))
    as Hlens.
  { intros e He. destruct (Hall e He) as (Hl & _). rewrite Hl, Hfull.
    unfold Space.of_dims. rewrite length_map. lia. }
  split.
  - apply Forall_forall. intros e' He'.
    apply (SubDivision_sections _ _ _ _ Hsub) in He' as (e & He & -> & Hne). simpl.
    split; [done|]. split; [rewrite Space_inter_length; by apply Hlens|].
    split; [intros p Hp; by apply Space_mem_inter in Hp as [_ Hp]; [|apply Hlens]|].
    specialize (Hsec e He). unfold sec_ok in Hsec. destruct (fst e) as [pd|]; [|done].
    intros p Hp. apply Space_mem_inter in Hp as [Hp _]; [|by apply Hlens].
    by apply Hsec.
  - intros p Hp Hnot. destruct (Hcov p) as (e & He & Hpe); [rewrite Hfull; by apply Hin|].
    specialize (Hsec e He). unfold sec_ok in Hsec. destruct e as [[pd|] s]; simpl in *.
    + destruct Hsec as [Hearly Hdef]. exfalso.
      by apply Hnot, (earlier_defines_initialized k 0 pd), Hdef.
    + exists (Space.inter s (Indices_ arg)).
      assert (Space.mem p (Space.inter s (Indices_ arg))) as Hpi.
      { apply Space_mem_inter; [by apply (Hlens _ He) | done]. }
      split; [|split; [done|]].
      * apply (SubDivision_sections _ _ _ _ Hsub). exists (None, s). split; [done|].
        split; [done|]. simpl. destruct (Space.IsEmpty _) eqn:Hemp; [|done].
        by destruct (Space_IsEmpty_no_points _ p Hemp).
      * intros q Hq. apply Space_mem_inter in Hq as [Hqs Hqa]; [|by apply (Hlens _ He)].
        split; [done | by apply Hsec].
Qed.

(** The first loop over the arguments returns; it leaves the divisions
    alone and reports every read of a point that is not defined. *)
Lemma read_args_spec k op taskname : forall args j st,
  Operations !! k = Some op ->
  (forall i arg, args !! i = Some arg -> Args_ op !! (j + i)%nat = Some arg) ->
  defs_ok k 0 st ->
  exists st',
    read_args Variables KernelPackets Operations k op taskname j args st = Some st' /\
    reads st st' /\
    forall i arg access var p,
      args !! i = Some arg -> demand_access op (j + i) = Some access ->
      access <> Packet.out ->
      deref Variables KernelPackets (Variable_ arg) = Some var ->
      Space.mem p (Indices_ arg) -> ~ initialized k 0 (Variable_ arg) p ->
      read_reported k taskname arg var p st'.
Proof.
  induction args as [|arg args IH]; intros j st Hop Hargs Hdefs; simpl.
  - exists st. split; [done|]. split; [apply reads_refl|]. intros i arg. by destruct i.
  - assert (Args_ op !! j = Some arg) as Harg
        by (rewrite <- (Nat.add_0_r j); by apply Hargs).
    assert (forall i a, args !! i = Some a -> Args_ op !! (S j + i)%nat = Some a) as Hargs'.
    { intros i a Ha. replace (S j + i)%nat with (j + S i)%nat by lia. by apply Hargs. }
    destruct (demand_access_Some k op j arg Hop Harg) as (demand & Hd & Hacc).
    rewrite Hacc.
    destruct (bool_decide_reflect (Packet.Access_ demand = Packet.out)) as [Hout|Hread].
    + destruct (IH (S j) st Hop Hargs' Hdefs) as (st' & Hst' & Hreads & Hrep).
      exists st'. split; [done|]. split; [done|].
      intros [|i] a access var p Ha Haccess Hne Hvar Hp Hnot; simpl in Ha.
      * rewrite Nat.add_0_r, Hacc in Haccess. injection Haccess as <-. done.
      * apply (Hrep i a access var p); try done.
        by replace (S j + i)%nat with (j + S i)%nat by lia.
    + destruct (argument_variable k op j arg Hop Harg) as (var & Hvar & _).
      destruct (Hdefs _ var Hvar) as (sd & Hsd & Hok). rewrite Hvar, Hsd.
      destruct (SubDivision_total (Indices_ arg) sd) as [subdiv Hsub]; [by destruct Hok|..].
      { destruct Hok as (_ & -> & _).
        destruct (argument_variable k op j arg Hop Harg) as (var' & Hvar' & Hlen & _).
        rewrite Hvar in Hvar'. injection Hvar' as <-. unfold Space.of_dims.
        by rewrite length_map. }
      rewrite Hsub.
      destruct (subdivision_read k op j arg _ var sd subdiv Hop Harg eq_refl Hvar Hok Hsub)
        as [Hsections Hfound].
      destruct (read_sections_spec k op j arg demand taskname _ var Hop Harg Hd eq_refl Hvar
                  (SpaceDivision.Sections_ subdiv) st Hsections) as (st1 & Hst1 & Hreads1 & Herr).
      rewrite Hst1.
      destruct (IH (S j) st1 Hop Hargs' (reads_defs_ok _ _ _ _ Hreads1 Hdefs))
        as (st' & Hst' & Hreads & Hrep).
      exists st'. split; [done|]. split; [by eapply reads_trans|].
      intros [|i] a access var' p Ha Haccess Hne Hvar' Hp Hnot; simpl in Ha.
      * injection Ha as <-. rewrite Hvar in Hvar'. injection Hvar' as <-.
        destruct (Hfound p Hp Hnot) as (region & Hregion & Hpr & Hall).
        exists region. split; [|done]. by apply (reads_errors _ _ _ Hreads), Herr.
      * apply (Hrep i a access var' p); try done.
        by replace (S j + i)%nat with (j + S i)%nat by lia.
Qed.

(** ** One operation *)

Lemma make_ifaces_total k op :
  Operations !! k = Some op -> is_Some (make_ifaces op).
Proof.
  intros Hop. pose proof (Forall_lookup_1 _ _ _ _ Hops Hop) as Hok. unfold op_ok in Hok.
  apply mapM_is_Some, Forall_forall. intros [packet arg] Hin.
  apply list_elem_of_lookup in Hin as (i & Hi). apply lookup_zip_Some in Hi as [Hp Ha].
  destruct (Forall2_lookup_lr _ _ _ _ _ _ Hok Ha Hp) as (_ & _ & _ & [dims Hdims]).
  simpl. by rewrite Hdims.
Qed.

(** What the body of the main loop does for the operation [k]: it returns,
    the divisions are those for the next operation, one task is appended,
    and every read of a point that is not defined is reported. *)
Lemma translate_op_spec k op st :
  Operations !! k = Some op -> defs_ok k 0 st ->
  exists st' task,
    translate_op Variables KernelPackets Operations k op st = Some st' /\
    defs_ok (S k) 0 st' /\
    Tasks st' = Tasks st ++ [task] /\ Kernel_ task = Callee_ op /\
    (exists deps, Dependencies st' = Dependencies st ++ deps /\ Forall dep_ok deps) /\
    (exists errs, Errors st' = Errors st ++ errs) /\
    forall j arg access var p,
      Args_ op !! j = Some arg -> demand_access op j = Some access ->
      access <> Packet.out ->
      deref Variables KernelPackets (Variable_ arg) = Some var ->
      Space.mem p (Indices_ arg) -> ~ initialized k 0 (Variable_ arg) p ->
      read_reported k (TaskName task) arg var p st'.
Proof.
  intros Hop Hdefs. unfold translate_op.
  destruct (make_ifaces_total k op Hop) as [ifaces ->].
  pose proof (Forall_lookup_1 _ _ _ _ Hops Hop) as Hok.
  rewrite (Forall2_length _ _ _ Hok), Nat.eqb_refl. simpl.
  set (name := task_name (Callee_ op) _).
  set (st0 := mkState _ _ _ _ _ _).
  assert (defs_ok k 0 st0) as Hdefs0 by done.
  destruct (read_args_spec k op name (Args_ op) 0 st0 Hop) as (st1 & Hst1 & Hreads & Hrep);
    [done | done |].
  rewrite Hst1.
  destruct (write_args_spec k op (Args_ op) 0 st1 Hop) as (st2 & Hst2 & Hdefs2 & Hd & He & Ht & Hi);
    [done | by apply (reads_defs_ok _ _ _ _ Hreads) |].
  rewrite Hst2.
  destruct Hreads as (_ & _ & Htasks & _ & Hdeps & Herrs).
  eexists _, _. split; [done|]. simpl. split.
  { intros v var Hvar. destruct (Hdefs2 v var Hvar) as (sd & Hsd & Hsdok).
    exists sd. split; [by destruct v|]. by apply (div_ok_end k op). }
  split; [by rewrite Ht, Htasks|]. split; [done|].
  split; [by rewrite Hd|]. split; [by rewrite He|].
  intros j arg access var p Harg Hacc Hne Hvar Hp Hnot.
  destruct (Hrep j arg access var p Harg Hacc Hne Hvar Hp Hnot) as (region & Hreg & Hrest).
  exists region. split; [|done]. simpl. by rewrite He.
Qed.

(** ** All operations *)

(** What the main loop does to the state from one operation to a later
    one. *)
Definition extends st st' : Prop :=
  (exists deps, Dependencies st' = Dependencies st ++ deps /\ Forall dep_ok deps) /\
  (exists errs, Errors st' = Errors st ++ errs) /\
  (exists tasks, Tasks st' = Tasks st ++ tasks).

Lemma extends_refl st : extends st st.
Proof. repeat split; exists []; by rewrite app_nil_r. Qed.

Lemma extends_trans st1 st2 st3 : extends st1 st2 -> extends st2 st3 -> extends st1 st3.
Proof.
  intros ((deps1 & A1 & A2) & (errs1 & A3) & (tasks1 & A4))
         ((deps2 & B1 & B2) & (errs2 & B3) & (tasks2 & B4)).
  split; [|split].
  - exists (deps1 ++ deps2). rewrite B1, A1, app_assoc. split; [done|]. by apply Forall_app.
  - exists (errs1 ++ errs2). by rewrite B3, A3, app_assoc.
  - exists (tasks1 ++ tasks2). by rewrite B4, A4, app_assoc.
Qed.

Lemma reads_extends st st' : reads st st' -> extends st st'.
Proof.
  intros (_ & _ & Ht & _ & Hd & He). split; [done|]. split; [done|].
  exists []. by rewrite app_nil_r.
Qed.

(** The reads of the operation [k], whose task is the one at position
    [n], are reported. *)
Definition op_reported k op (n : nat) st : Prop :=
  exists task,
    Tasks st !! n = Some task /\ Kernel_ task = Callee_ op /\
    forall j arg access var p,
      Args_ op !! j = Some arg -> demand_access op j = Some access ->
      access <> Packet.out ->
      deref Variables KernelPackets (Variable_ arg) = Some var ->
      Space.mem p (Indices_ arg) -> ~ initialized k 0 (Variable_ arg) p ->
      read_reported k (TaskName task) arg var p st.

Lemma op_reported_extends k op n st st' :
  extends st st' -> op_reported k op n st -> op_reported k op n st'.
Proof.
  intros (_ & (errs & He) & (tasks & Ht)) (task & Htask & Hkernel & Hrep).
  exists task. split; [rewrite Ht; by apply lookup_app_l_Some|]. split; [done|].
  intros j arg access var p Harg Hacc Hne Hvar Hp Hnot.
  destruct (Hrep j arg access var p Harg Hacc Hne Hvar Hp Hnot) as (region & Hreg & Hrest).
  exists region. split; [|done]. rewrite He. apply elem_of_app. by left.
Qed.

Lemma translate_ops_spec : forall ops k st,
  (forall i op, ops !! i = Some op -> Operations !! (k + i)%nat = Some op) ->
  defs_ok k 0 st ->
  exists st',
    translate_ops Variables KernelPackets Operations k ops st = Some st' /\
    defs_ok (k + length ops) 0 st' /\ extends st st' /\
    forall i op, ops !! i = Some op ->
                 op_reported (k + i) op (length (Tasks st) + i) st'.
Proof.
  induction ops as [|op ops IH]; intros k st Hops' Hdefs; simpl.
  - exists st. rewrite Nat.add_0_r. split; [done|]. split; [done|].
    split; [apply extends_refl|]. intros i op. by destruct i.
  - assert (Operations !! k = Some op) as Hop
        by (rewrite <- (Nat.add_0_r k); by apply Hops').
    destruct (translate_op_spec k op st Hop Hdefs)
      as (st1 & task & Hst1 & Hdefs1 & Htasks & Hkernel & Hdeps & Herrs & Hrep).
    rewrite Hst1.
    destruct (IH (S k) st1) as (st' & Hst' & Hdefs' & Hext & Hreps); [|done|].
    { intros i o Ho. replace (S k + i)%nat with (k + S i)%nat by lia. by apply Hops'. }
    assert (extends st st1) as Hext1.
    { split; [done|]. split; [done|]. by exists [task]. }
    exists st'. split; [done|].
    split; [by replace (k + S (length ops))%nat with (S k + length ops)%nat by lia|].
    split; [by eapply extends_trans|].
    intros [|i] o Ho; simpl in Ho.
    + injection Ho as <-. rewrite !Nat.add_0_r. apply (op_reported_extends _ _ _ st1); [done|].
      exists task. split; [|done]. rewrite Htasks.
      rewrite lookup_app_r by lia. by rewrite Nat.sub_diag.
    + specialize (Hreps i o Ho). rewrite Htasks, length_app in Hreps. simpl in Hreps.
      replace (k + S i)%nat with (S k + i)%nat by lia.
      by replace (length (Tasks st) + S i)%nat with (length (Tasks st) + 1 + i)%nat by lia.
Qed.

(** ** The outputs of the meta-kernel *)

Lemma output_dependency_ok (i : nat) packet pd (s : Space.t) :
  KernelPackets !! i = Some packet ->
  Space.IsEmpty s = false -> length s = length (Packet.ArrayDims_ packet) ->
  (forall p, Space.mem p s -> defines pd (KernelPacket i) p) ->
  exists from,
    def_anchor Variables KernelPackets Operations pd s = Some from /\
    dep_ok (mkDependency from (mkAnchor (mkIfaceRef Outputs i) s)).
Proof.
  intros Hpk Hne Hlen Hdef.
  destruct (def_anchor_spec pd (KernelPacket i) packet s Hpk Hne Hlen Hdef)
    as (from & pk & Hfrom & Hifc & Hsize & Heff & Hvol).
  exists from. split; [done|]. exists pk, packet. simpl. split; [done|]. split; [done|].
  unfold CheckCompatibility, GetMemSize, BaseType.IsCompatible. simpl. split.
  - apply andb_true_iff. split; [apply Z.eqb_eq; congruence|].
    by apply bool_decide_eq_true.
  - by rewrite Hvol, Hsize.
Qed.

Lemma output_sections_spec (i : nat) packet :
  KernelPackets !! i = Some packet ->
  forall sections st,
    Forall (fun e => Space.IsEmpty (snd e) = false /\
                     length (snd e) = length (Packet.ArrayDims_ packet) /\
                     match fst e with
                     | Some pd => forall p, Space.mem p (snd e) -> defines pd (KernelPacket i) p
                     | None => True
                     end) sections ->
    exists st',
      output_sections Variables KernelPackets Operations i packet sections st = Some st' /\
      reads st st' /\
      (Packet.Access_ packet = Packet.out ->
       forall s, (None, s) ∈ sections ->
                 UnspecifiedOutput (Packet.Name_ packet) s ∈ Errors st').
Proof.
  intros Hpk. induction sections as [|[label s] sections IH]; intros st Hall.
  - exists st. split; [done|]. split; [apply reads_refl|]. intros _ s Hs.
    by apply elem_of_nil in Hs.
  - inversion Hall as [|? ? (Hne & Hlen & Hlabel) Hrest]; subst. simpl in *.
    destruct label as [pd|].
    + destruct (output_dependency_ok i packet pd s Hpk Hne Hlen Hlabel) as (from & Hfrom & Hdep).
      rewrite Hfrom.
      destruct (IH (add_dependency
                      (mkDependency from (mkAnchor (mkIfaceRef Outputs i) s)) st) Hrest)
        as (st' & Hst' & Hreads & Herr).
      exists st'. split; [done|]. split.
      * eapply reads_trans; [by apply reads_add_dependency | done].
      * intros Hout s0 Hs0. apply elem_of_cons in Hs0 as [[=]|Hs0]. by apply Herr.
    + destruct (bool_decide_reflect (Packet.Access_ packet = Packet.out)) as [Hout|Hinout].
      * destruct (IH (add_error (UnspecifiedOutput (Packet.Name_ packet) s) st) Hrest)
          as (st' & Hst' & Hreads & Herr).
        exists st'. split; [done|]. split.
        -- eapply reads_trans; [apply reads_add_error | done].
        -- intros _ s0 Hs0. apply elem_of_cons in Hs0 as [[= ->]|Hs0]; [|by apply Herr].
           apply (reads_errors _ _ _ Hreads). simpl. apply elem_of_app. right.
           apply list_elem_of_here.
      * destruct (IH st Hrest) as (st' & Hst' & Hreads & Herr).
        exists st'. split; [done|]. split; [done|]. intros Hout. done.
Qed.

(** What is reported for the packet [i] of the meta-kernel at the end. *)
Definition output_reported k (i : nat) pk p st : Prop :=
  exists region,
    UnspecifiedOutput (Packet.Name_ pk) region ∈ Errors st /\
    Space.mem p region /\
    forall q, Space.mem q region -> ~ initialized k 0 (KernelPacket i) q.

Lemma check_outputs_spec k : forall packets (i : nat) st,
  (forall t pk, packets !! t = Some pk -> KernelPackets !! (i + t)%nat = Some pk) ->
  defs_ok k 0 st ->
  exists st',
    check_outputs Variables KernelPackets Operations i packets st = Some st' /\
    reads st st' /\
    forall t pk p,
      packets !! t = Some pk -> Packet.Access_ pk = Packet.out ->
      Space.mem p (Space.of_dims (Packet.ArrayDims_ pk)) ->
      ~ initialized k 0 (KernelPacket (i + t)) p ->
      output_reported k (i + t) pk p st'.
Proof.
  induction packets as [|packet packets IH]; intros i st Hpks Hdefs; simpl.
  - exists st. split; [done|]. split; [apply reads_refl|]. intros t pk. by destruct t.
  - assert (KernelPackets !! i = Some packet) as Hpk
        by (rewrite <- (Nat.add_0_r i); by apply Hpks).
    assert (forall t pk, packets !! t = Some pk -> KernelPackets !! (S i + t)%nat = Some pk)
      as Hpks'.
    { intros t pk Ht. replace (S i + t)%nat with (i + S t)%nat by lia. by apply Hpks. }
    destruct (bool_decide_reflect (Packet.Access_ packet = Packet.in_)) as [Hin|Hnotin].
    + destruct (IH (S i) st Hpks' Hdefs) as (st' & Hst' & Hreads & Hrep).
      exists st'. split; [done|]. split; [done|].
      intros [|t] pk p Ht Hout Hp Hnot; simpl in Ht.
      * injection Ht as <-. congruence.
      * replace (i + S t)%nat with (S i + t)%nat in * by lia. by apply Hrep.
    + destruct (Hdefs (KernelPacket i) packet Hpk) as (sd & Hsd & (Hall & Hpd) & Hfull & Hcov & Hsec).
      simpl in Hsd. rewrite Hsd. rewrite Forall_forall in Hall, Hsec.
      destruct (output_sections_spec i packet Hpk (SpaceDivision.Sections_ sd) st)
        as (st1 & Hst1 & Hreads1 & Herr).
      { apply Forall_forall. intros e He. destruct (Hall e He) as (Hl & Hn & _).
        split; [done|]. split; [rewrite Hl, Hfull; apply length_map|].
        specialize (Hsec e He). unfold sec_ok in Hsec. destruct (fst e); [|done].
        by destruct Hsec. }
      rewrite Hst1.
      destruct (IH (S i) st1 Hpks' (reads_defs_ok _ _ _ _ Hreads1 Hdefs))
        as (st' & Hst' & Hreads & Hrep).
      exists st'. split; [done|]. split; [by eapply reads_trans|].
      intros [|t] pk p Ht Hout Hp Hnot; simpl in Ht.
      * injection Ht as <-. rewrite Nat.add_0_r in *.
        destruct (Hcov p) as (e & He & Hpe); [by rewrite Hfull|].
        specialize (Hsec e He). unfold sec_ok in Hsec. destruct e as [[pd|] s]; simpl in *.
        -- destruct Hsec as [Hearly Hdef]. exfalso.
           by apply Hnot, (earlier_defines_initialized k 0 pd), Hdef.
        -- exists s. split; [|done]. by apply (reads_errors _ _ _ Hreads), Herr.
      * replace (i + S t)%nat with (S i + t)%nat in * by lia. by apply Hrep.
Qed.

(** ** The divisions at the start *)

Lemma initial_division_spec (dims : list Z) (label : option ArgRef) :
  Forall (fun dim => 0 <= dim) dims ->
  exists sd, initial_division dims label = Some sd /\
             Inv sd /\ SpaceDivision.FullSpace_ sd = Space.of_dims dims /\ covered sd /\
             Forall (fun e => fst e = label /\
                              forall p, Space.mem p (snd e) -> Space.mem p (Space.of_dims dims))
                    (SpaceDivision.Sections_ sd).
Proof.
  intros Hdims. unfold initial_division.
  assert (existsb (fun dim => dim <? 0) dims = false) as ->.
  { apply not_true_is_false. intros Hex. apply existsb_exists in Hex as (dim & Hin & Hneg).
    apply list_elem_of_In in Hin. rewrite Forall_forall in Hdims.
    specialize (Hdims dim Hin). apply Z.ltb_lt in Hneg. lia. }
  set (full := Space.of_dims dims).
  pose proof (create_Inv (A := option ArgRef) full) as Hinv.
  destruct (AssignSection_total full label (SpaceDivision.create full) Hinv eq_refl)
    as [sd Hsd].
  exists sd. split; [done|]. split; [by eapply AssignSection_Inv|].
  split; [by rewrite (AssignSection_FullSpace _ _ _ _ Hsd)|]. split.
  - intros p Hp. rewrite (AssignSection_FullSpace _ _ _ _ Hsd) in Hp. simpl in Hp.
    apply AssignSection_Some in Hsd as [_ [[Hemp _]|[_ ->]]]; simpl in *.
    + exfalso. apply (Space_IsEmpty_no_points _ p Hemp). by apply Space_mem_of_dims_inter.
    + exists (label, Space.inter full full). split; [apply list_elem_of_here|].
      by apply Space_mem_of_dims_inter.
  - apply Forall_forall. intros e He.
    destruct (AssignSection_sections _ _ _ _ _ Hinv Hsd He) as [[-> _]|(e0 & He0 & _)].
    + split; [done|]. simpl. intros p Hp. by apply Space_mem_of_dims_inter.
    + by apply elem_of_nil in He0.
Qed.

Lemma init_defs_spec (deps : list Dependency) (errors : list error) (tasks : list Task) :
  exists dl dp, init_defs Variables KernelPackets = Some (dl, dp) /\
                defs_ok 0 0 (mkState dl dp deps errors tasks ∅).
Proof.
  unfold init_defs.
  destruct (mapM_is_Some_2
              (fun uppacket => initial_division (Packet.ArrayDims_ uppacket) None) Variables)
    as [dl Hdl].
  { eapply Forall_impl; [exact Hvars|]. intros var Hvar. simpl.
    destruct (initial_division_spec _ None Hvar) as (sd & -> & _). done. }
  rewrite Hdl.
  match goal with |- context [mapM ?f (imap ?g KernelPackets)] =>
    destruct (mapM_is_Some_2 f (imap g KernelPackets)) as [dp Hdp] end.
  { apply Forall_forall. intros [i pk] Hin.
    apply list_elem_of_lookup in Hin as (t & Ht). rewrite list_lookup_imap in Ht.
    destruct (KernelPackets !! t) as [pk'|] eqn:Hpk; [|done]. simpl in Ht.
    injection Ht as -> ->.
    pose proof (variable_dims_nonneg (KernelPacket i) pk Hpk) as Hnn. simpl.
    destruct (bool_decide_reflect (Packet.Access_ pk = Packet.out)) as [Hout|Hnot].
    - destruct (initial_division_spec _ None Hnn) as (sd & -> & _). done.
    - destruct (input_arg_spec i pk Hpk Hnot) as (a & -> & _).
      destruct (initial_division_spec _ (Some (MkArg i)) Hnn) as (sd & -> & _). done. }
  rewrite Hdp. exists dl, dp. split; [done|].
  apply mapM_Some_1 in Hdl, Hdp. intros [i|i] var Hvar; simpl in *.
  - destruct (Forall2_lookup_l _ _ _ _ _ Hdl Hvar) as (sd & Hsd & Hinit).
    destruct (initial_division_spec _ None (variable_dims_nonneg (LocalVar i) var Hvar))
      as (sd' & Hinit' & Hinv & Hfull & Hcov & Hlabels).
    rewrite Hinit in Hinit'. injection Hinit' as <-.
    exists sd. split; [done|]. split; [done|]. split; [done|]. split; [done|].
    eapply Forall_impl; [exact Hlabels|]. intros e [Hl _]. unfold sec_ok. rewrite Hl.
    intros p _ [(i' & [=] & _)|(k' & j' & Hpos & _)]. lia.
  - assert (imap (fun i packet => (i, packet)) KernelPackets !! i = Some (i, var)) as Hi
        by (by rewrite list_lookup_imap, Hvar).
    destruct (Forall2_lookup_l _ _ _ _ _ Hdp Hi) as (sd & Hsd & Hinit). simpl in Hinit.
    pose proof (variable_dims_nonneg (KernelPacket i) var Hvar) as Hnn.
    exists sd. split; [done|].
    destruct (bool_decide_reflect (Packet.Access_ var = Packet.out)) as [Hout|Hnot].
    + destruct (initial_division_spec _ None Hnn) as (sd' & Hinit' & Hinv & Hfull & Hcov & Hlabels).
      rewrite Hinit in Hinit'. injection Hinit' as <-.
      split; [done|]. split; [done|]. split; [done|].
      eapply Forall_impl; [exact Hlabels|]. intros e [Hl _]. unfold sec_ok. rewrite Hl.
      intros p _ [(i' & [= <-] & pk & Hpk & Hacc & _)|(k' & j' & Hpos & _)]; [|lia].
      rewrite Hvar in Hpk. by injection Hpk as <-.
    + destruct (input_arg_spec i var Hvar Hnot) as (a & Ha & _). rewrite Ha in Hinit.
      destruct (initial_division_spec _ (Some (MkArg i)) Hnn)
        as (sd' & Hinit' & Hinv & Hfull & Hcov & Hlabels).
      rewrite Hinit in Hinit'. injection Hinit' as <-.
      split; [done|]. split; [done|]. split; [done|].
      eapply Forall_impl; [exact Hlabels|]. intros e [Hl Hsub]. unfold sec_ok. rewrite Hl.
      split; [done|]. intros p Hp. split; [done|]. exists var. by repeat split; [..|apply Hsub].
Qed.

(** ** The resolution as a whole *)

Lemma initialized_at_end (i : nat) pk p :
  KernelPackets !! i = Some pk -> Packet.Access_ pk = Packet.out ->
  initialized (length Operations) 0 (KernelPacket i) p ->
  exists k j, writes k j (KernelPacket i) p.
Proof.
  intros Hpk Hout [(i' & [= <-] & pk' & Hpk' & Hacc & _)|(k & j & _ & Hw)].
  - rewrite Hpk in Hpk'. by injection Hpk' as <-.
  - by exists k, j.
Qed.

Lemma TranslateToMetaKernel_spec (deps : list Dependency) (errors : list error)
      (tasks : list Task) :
  forallb Valid_ Operations = true ->
  exists ret st,
    TranslateToMetaKernel Variables KernelPackets Operations deps errors tasks
    = Some (ret, st) /\
    (Errors st <> [] -> ret = false) /\
    (exists added, Dependencies st = deps ++ added /\ Forall dep_ok added) /\
    (forall k op, Operations !! k = Some op -> op_reported k op (length tasks + k) st) /\
    (forall i pk p,
        KernelPackets !! i = Some pk -> Packet.Access_ pk = Packet.out ->
        Space.mem p (Space.of_dims (Packet.ArrayDims_ pk)) ->
        ~ initialized (length Operations) 0 (KernelPacket i) p ->
        output_reported (length Operations) i pk p st).
Proof.
  intros Hvalid. unfold TranslateToMetaKernel. rewrite Hvalid. simpl.
  destruct (init_defs_spec deps errors tasks) as (dl & dp & -> & Hdefs).
  destruct (translate_ops_spec Operations 0 _ (fun i op H => H) Hdefs)
    as (st1 & -> & Hdefs1 & Hext1 & Hreps).
  destruct (check_outputs_spec (length Operations) KernelPackets 0 st1 (fun t pk H => H) Hdefs1)
    as (st2 & -> & Hreads & Hout).
  pose proof (extends_trans _ _ _ Hext1 (reads_extends _ _ Hreads)) as (Hdeps & _ & _).
  eexists _, st2. split; [done|].
  split; [by destruct (Errors st2)|]. split; [done|]. split; [|done].
  intros k op Hop. apply (op_reported_extends _ _ _ st1); [by apply reads_extends|].
  by apply Hreps.
Qed.

End Dataflow.

(* ===================================================================== *)
(** * Dataflow resolution: the operations of the front end *)
(* ===================================================================== *)

(** What the front end hands over: ranges that satisfy the invariant of
    their class, and derived parameters that are strictly positive
    (src/parse/clanghandler-kernelcallparser.cpp rejects the others with
    "Expression must be strictly positive"). *)
Definition raw_call_ok (rc : MetaKernelSeq.raw_call) : Prop :=
  Forall (fun ra => Forall Range.valid (MetaKernelSeq.ra_indices ra))
         (MetaKernelSeq.rc_arguments rc) /\
  Forall (fun dim => 0 < dim) (MetaKernelSeq.rc_derivedparams rc).

Lemma build_calls_ok (Variables KernelPackets : list Packet.t)
      (raws : list MetaKernelSeq.raw_call) (ops : list MetaKernelSeq.KernelCall) :
  Forall raw_call_ok raws ->
  mapM (MetaKernelSeq.build_call Variables KernelPackets) raws = Some ops ->
  forallb MetaKernelSeq.Valid_ ops = true ->
  Forall (op_ok Variables KernelPackets) ops.
Proof.
  intros Hraws Hbuild Hvalid. apply mapM_Some_1 in Hbuild.
  apply Forall_lookup_2. intros k op Hop.
  destruct (Forall2_lookup_r _ _ _ _ _ Hbuild Hop) as (rc & Hrc & Hcall).
  destruct (Forall_lookup_1 _ _ _ _ Hraws Hrc) as [Hargs Hderived].
  apply (build_call_ok Variables KernelPackets rc op Hargs Hderived Hcall).
  rewrite forallb_forall in Hvalid. apply Hvalid.
  by eapply list_elem_of_In, list_elem_of_lookup_2.
Qed.

(** If an operation is not valid, nothing is resolved: the function
    returns false and appends nothing. *)
Lemma TranslateToMetaKernel_invalid (Variables KernelPackets : list Packet.t)
      (ops : list MetaKernelSeq.KernelCall) (deps : list MetaKernelSeq.Dependency)
      (errors : list MetaKernelSeq.error) (tasks : list MetaKernelSeq.Task) :
  forallb MetaKernelSeq.Valid_ ops = false ->
  MetaKernelSeq.TranslateToMetaKernel Variables KernelPackets ops deps errors tasks
  = Some (false, MetaKernelSeq.mkState [] [] deps errors tasks ∅).
Proof. intros Hinvalid. unfold MetaKernelSeq.TranslateToMetaKernel. by rewrite Hinvalid. Qed.

(** A meta-kernel with an input [x] and an output [y] of 10 cells each and
    the local variables [t] and [u]:
    [produce(x, t); halve(t[0,5), y[0,5)); halve(u[0,5), y[5,10));] *)
Module Example.

Import MetaKernelSeq.

Definition int_t : BaseType.t := BaseType.mk "int" 4.

Definition packets : list Packet.t :=
  [Packet.mk "x" Packet.in_ int_t [10]; Packet.mk "y" Packet.out int_t [10]].

Definition variables : list Packet.t :=
  [Packet.mk "t" Packet.inout int_t [10]; Packet.mk "u" Packet.inout int_t [10]].

Definition produce : Kernel.t :=
  Kernel.mk 1 "produce"
            [Packet.mk "a" Packet.in_ int_t [10]; Packet.mk "b" Packet.out int_t [10]].

Definition halve : Kernel.t :=
  Kernel.mk 2 "halve"
            [Packet.mk "a" Packet.in_ int_t [5]; Packet.mk "b" Packet.out int_t [5]].

Definition raws : list raw_call :=
  [mkRawCall produce
     [mkRawArgument (KernelPacket 0) [] 0; mkRawArgument (LocalVar 0) [] (-1)] [] [];
   mkRawCall halve
     [mkRawArgument (LocalVar 0) [Range.mk 0 5] (-1);
      mkRawArgument (KernelPacket 1) [Range.mk 0 5] 1] [] [];
   mkRawCall halve
     [mkRawArgument (LocalVar 1) [Range.mk 0 5] (-1);
      mkRawArgument (KernelPacket 1) [Range.mk 5 10] 1] [] []].

Definition operations : list KernelCall :=
  Eval vm_compute in default [] (mapM (build_call variables packets) raws).

(** The resolution of the example: the read of [u] is reported, and four
    dependencies are made. *)
Lemma resolution :
  (fun r => (fst r, Errors (snd r), length (Dependencies (snd r)),
             map TaskName (Tasks (snd r))))
    <$> TranslateToMetaKernel variables packets operations [] [] []
  = Some (false, [UninitializedInput "halve[1]" "u" [Range.mk 0 5]], 4%nat,
          ["produce[0]"; "halve[0]"; "halve[1]"]).
Proof. by vm_compute. Qed.

End Example.

Section Resolved.

Import MetaKernelSeq.

Variables (Variables KernelPackets : list Packet.t) (raws : list raw_call)
          (ops : list KernelCall).
Variables (deps : list Dependency) (errors : list error) (tasks : list Task).

Hypothesis Hvars : Forall variable_ok Variables.
Hypothesis Hpackets : Forall packet_ok KernelPackets.
Hypothesis Hraws : Forall raw_call_ok raws.
Hypothesis Hbuild : mapM (build_call Variables KernelPackets) raws = Some ops.

(** C5: for operations that the front end has built, the resolution
    returns, and every dependency it has appended (those to the outputs of
    the meta-kernel among them) has anchors with equal effective
    dimensions, compatible base types of the packets of its two interfaces,
    and the same number of bytes at both sides. *)
Theorem TranslateToMetaKernel_dependencies :
  exists ret st added,
    TranslateToMetaKernel Variables KernelPackets ops deps errors tasks = Some (ret, st) /\
    Dependencies st = deps ++ added /\
    Forall (fun d =>
              exists frompack topack,
                iface_packet KernelPackets ops (TheIface (From d)) = Some frompack /\
                iface_packet KernelPackets ops (TheIface (To d)) = Some topack /\
                Space.GetEffectiveDimensions (Index (From d))
                = Space.GetEffectiveDimensions (Index (To d)) /\
                BaseType.IsCompatible (Packet.BaseType_ frompack)
                                      (Packet.BaseType_ topack) = true /\
                CheckCompatibility frompack topack d = true /\
                GetMemSize frompack d
                = Space.GetVolume (Index (To d)) * BaseType.Size (Packet.BaseType_ topack))
           added.
Proof.
  destruct (forallb Valid_ ops) eqn:Hvalid.
  - destruct (TranslateToMetaKernel_spec Variables KernelPackets ops
                (build_calls_ok _ _ _ _ Hraws Hbuild Hvalid) Hvars Hpackets
                deps errors tasks Hvalid)
      as (ret & st & Hst & _ & (added & Hadded & Hok) & _).
    exists ret, st, added. split; [done|]. split; [done|].
    eapply Forall_impl; [exact Hok|]. intros d (frompack & topack & Hfrom & Hto & Hcheck & Hsize).
    exists frompack, topack. split; [done|]. split; [done|].
    pose proof Hcheck as Hboth. unfold CheckCompatibility in Hboth.
    apply andb_true_iff in Hboth as [Hcomp Heff]. apply bool_decide_eq_true in Heff.
    done.
  - exists false, (mkState [] [] deps errors tasks ∅), [].
    split; [by apply TranslateToMetaKernel_invalid|]. split; [by rewrite app_nil_r|].
    constructor.
Qed.

(** C6: for valid operations that the front end has built, the resolution
    returns; for every argument that is read and every point of its indices
    that is neither an input of the meta-kernel nor written by an operation
    before, the value returned is false and the errors hold one that names
    the task of the operation and the variable, with a region that holds the
    point and consists of such points of the argument only; and for every
    point of an out packet of the meta-kernel that no operation writes, the
    value returned is false and the errors hold one that names the packet,
    with a region that holds the point and consists of such points only. *)
Theorem TranslateToMetaKernel_uninitialized :
  forallb Valid_ ops = true ->
  exists ret st,
    TranslateToMetaKernel Variables KernelPackets ops deps errors tasks = Some (ret, st) /\
    (forall k op j arg access var p,
        ops !! k = Some op -> Args_ op !! j = Some arg ->
        demand_access op j = Some access -> access <> Packet.out ->
        deref Variables KernelPackets (Variable_ arg) = Some var ->
        Space.mem p (Indices_ arg) ->
        (forall i, ~ received KernelPackets i (Variable_ arg) p) ->
        (forall k' j', (k' < k)%nat -> ~ writes ops k' j' (Variable_ arg) p) ->
        ret = false /\
        exists task region,
          Tasks st !! (length tasks + k)%nat = Some task /\
          Kernel_ task = Callee_ op /\
          UninitializedInput (TaskName task) (Packet.Name_ var) region ∈ Errors st /\
          Space.mem p region /\
          forall q, Space.mem q region ->
                    Space.mem q (Indices_ arg) /\
                    (forall i, ~ received KernelPackets i (Variable_ arg) q) /\
                    (forall k' j', (k' < k)%nat -> ~ writes ops k' j' (Variable_ arg) q)) /\
    (forall i pk p,
        KernelPackets !! i = Some pk -> Packet.Access_ pk = Packet.out ->
        Space.mem p (Space.of_dims (Packet.ArrayDims_ pk)) ->
        (forall k j, ~ writes ops k j (KernelPacket i) p) ->
        ret = false /\
        exists region,
          UnspecifiedOutput (Packet.Name_ pk) region ∈ Errors st /\
          Space.mem p region /\
          forall q, Space.mem q region -> forall k j, ~ writes ops k j (KernelPacket i) q).
Proof.
  intros Hvalid.
  destruct (TranslateToMetaKernel_spec Variables KernelPackets ops
              (build_calls_ok _ _ _ _ Hraws Hbuild Hvalid) Hvars Hpackets
              deps errors tasks Hvalid)
    as (ret & st & Hst & Hret & _ & Hreads & Houts).
  assert (forall x : error, x ∈ Errors st -> ret = false) as Hfalse.
  { intros x Hx. apply Hret. intros Hnil. rewrite Hnil in Hx. by apply elem_of_nil in Hx. }
  exists ret, st. split; [done|]. split.
  - intros k op j arg access var p Hop Harg Hacc Hne Hvar Hp Hin Hbefore.
    destruct (Hreads k op Hop) as (task & Htask & Hkernel & Hrep).
    destruct (Hrep j arg access var p Harg Hacc Hne Hvar Hp) as (region & Herr & Hpr & Hall).
    { intros [(i & Hr)|(k' & j' & [Hlt|[_ Hlt]] & Hw)];
        [by apply (Hin i) | by apply (Hbefore k' j') | lia]. }
    split; [by eapply Hfalse|]. exists task, region. repeat (split; [done|]).
    intros q Hq. destruct (Hall q Hq) as [Hqa Hnot]. split; [done|]. split.
    + intros i Hr. apply Hnot. left. by exists i.
    + intros k' j' Hlt Hw. apply Hnot. right. exists k', j'. split; [by left | done].
  - intros i pk p Hpk Hout Hp Hnever.
    destruct (Houts i pk p Hpk Hout Hp) as (region & Herr & Hpr & Hall).
    { intros Hinit.
      destruct (initialized_at_end KernelPackets ops i pk p Hpk Hout Hinit) as (k & j & Hw).
      by apply (Hnever k j). }
    split; [by eapply Hfalse|]. exists region. repeat (split; [done|]).
    intros q Hq k j Hw. apply (Hall q Hq). right. exists k, j. split; [|done]. left.
    destruct Hw as (op & _ & _ & Hop & _). by eapply lookup_lt_Some.
Qed.

End Resolved.

Lemma TranslateToMetaKernel_dependencies_witness :
  exists ret st added,
    MetaKernelSeq.TranslateToMetaKernel Example.variables Example.packets
      Example.operations [] [] [] = Some (ret, st) /\
    MetaKernelSeq.Dependencies st = [] ++ added /\
    Forall (fun d =>
              exists frompack topack,
                MetaKernelSeq.iface_packet Example.packets Example.operations
                  (MetaKernelSeq.TheIface (MetaKernelSeq.From d)) = Some frompack /\
                MetaKernelSeq.iface_packet Example.packets Example.operations
                  (MetaKernelSeq.TheIface (MetaKernelSeq.To d)) = Some topack /\
                Space.GetEffectiveDimensions (MetaKernelSeq.Index (MetaKernelSeq.From d))
                = Space.GetEffectiveDimensions (MetaKernelSeq.Index (MetaKernelSeq.To d)) /\
                BaseType.IsCompatible (Packet.BaseType_ frompack)
                                      (Packet.BaseType_ topack) = true /\
                MetaKernelSeq.CheckCompatibility frompack topack d = true /\
                MetaKernelSeq.GetMemSize frompack d
                = Space.GetVolume (MetaKernelSeq.Index (MetaKernelSeq.To d))
                  * BaseType.Size (Packet.BaseType_ topack))
           added.
Proof.
  apply (TranslateToMetaKernel_dependencies Example.variables Example.packets
           Example.raws Example.operations [] [] []).
  - repeat constructor; done.
  - repeat constructor; done.
  - repeat constructor; unfold Range.valid; simpl; lia.
  - reflexivity.
Defined.

Lemma TranslateToMetaKernel_uninitialized_witness :
  exists ret st,
    MetaKernelSeq.TranslateToMetaKernel Example.variables Example.packets
      Example.operations [] [] [] = Some (ret, st) /\
    ret = false /\
    exists task region,
      MetaKernelSeq.Tasks st !! 2%nat = Some task /\
      MetaKernelSeq.Kernel_ task = Example.halve /\
      MetaKernelSeq.UninitializedInput (MetaKernelSeq.TaskName task) "u" region
        ∈ MetaKernelSeq.Errors st /\
      Space.mem [3] region.
Proof.
  assert (Forall variable_ok Example.variables) as Hvars by (repeat constructor; done).
  assert (Forall packet_ok Example.packets) as Hpackets by (repeat constructor; done).
  assert (Forall raw_call_ok Example.raws) as Hraws
      by (repeat constructor; unfold Range.valid; simpl; lia).
  destruct (TranslateToMetaKernel_uninitialized Example.variables Example.packets
              Example.raws Example.operations [] [] [] Hvars Hpackets Hraws eq_refl eq_refl)
    as (ret & st & Hst & Hreads & _).
  exists ret, st. split; [exact Hst|].
  epose proof (Hreads 2%nat _ 0%nat _ Packet.in_ _ [3] eq_refl eq_refl eq_refl) as Hread.
  destruct Hread as (Hret & task & region & Htask & Hkernel & Herr & Hp & _).
  - discriminate.
  - reflexivity.
  - repeat constructor; simpl; lia.
  - intros i (Heq & _). discriminate Heq.
  - intros k' j' Hlt (op & arg & access & Hop & Harg & Hacc & Hne & Hv & _).
    destruct k' as [|[|k']]; [| |lia]; injection Hop as <-;
      (destruct j' as [|[|j']]; [| |discriminate Harg]); injection Harg as <-;
        try discriminate Hv; injection Hacc as <-; by apply Hne.
  - split; [exact Hret|]. exists task, region. repeat split; try done.
Defined.

(* ===================================================================== *)
(** * Ranges and spaces as sets of points *)
(* ===================================================================== *)

Section RangeSets.

Implicit Types (a r d from sub : Range.t) (z : Z).

(** X1: for a [sub] that satisfies the invariant of the class,
    [RangeSubtract(from, sub, result)] writes at most two ranges; together
    they hold exactly the integers of [from] that are not in [sub]; no
    integer lies in two of them; and it writes none exactly if [sub]
    contains [from]. *)
Theorem RangeSubtract_difference from sub :
  Range.valid sub ->
  (length (Range.RangeSubtract from sub) <= 2)%nat /\
  (forall z, (exists d, d ∈ Range.RangeSubtract from sub /\ Range.mem z d)
             <-> Range.mem z from /\ ~ Range.mem z sub) /\
  (forall i j d1 d2 z,
     i <> j -> Range.RangeSubtract from sub !! i = Some d1 ->
     Range.RangeSubtract from sub !! j = Some d2 ->
     Range.mem z d1 -> Range.mem z d2 -> False) /\
  (Range.RangeSubtract from sub = [] <-> Range.Contains sub from = true).
Proof.
  unfold Range.valid. intros Hvalid. split; [|split; [|split]].
  - unfold Range.RangeSubtract.
    repeat match goal with |- context [if ?c then _ else _] => destruct c end; simpl; lia.
  - intros z. split; [|intros [Hz Hnot]; by apply RangeSubtract_cover].
    intros (d & Hd & Hz). revert Hd Hz.
    unfold Range.RangeSubtract, Range.mem, Range.BeginEnd.
    destruct (Z.ltb_spec (Range.Begin_ from) (Range.Begin_ sub));
      [destruct (Z.ltb_spec (Range.End_ sub) (Range.End_ from));
         [|destruct (Z.leb_spec (Range.End_ from) (Range.Begin_ sub))]
      |destruct (Z.leb_spec (Range.End_ from) (Range.End_ sub));
         [|destruct (Z.leb_spec (Range.End_ sub) (Range.Begin_ from))]];
      intros Hd; repeat (apply elem_of_cons in Hd as [->|Hd]);
      try (by apply elem_of_nil in Hd); simpl; lia.
  - intros i j d1 d2 z Hij.
    unfold Range.RangeSubtract, Range.mem, Range.BeginEnd.
    destruct (Z.ltb_spec (Range.Begin_ from) (Range.Begin_ sub));
      [destruct (Z.ltb_spec (Range.End_ sub) (Range.End_ from));
         [|destruct (Z.leb_spec (Range.End_ from) (Range.Begin_ sub))]
      |destruct (Z.leb_spec (Range.End_ from) (Range.End_ sub));
         [|destruct (Z.leb_spec (Range.End_ sub) (Range.Begin_ from))]];
      destruct i as [|[|i]], j as [|[|j]]; simpl; intros Hd1 Hd2; try done;
      injection Hd1 as <-; injection Hd2 as <-; simpl; lia.
  - unfold Range.RangeSubtract, Range.Contains. rewrite andb_true_iff, !Z.leb_le.
    destruct (Z.ltb_spec (Range.Begin_ from) (Range.Begin_ sub));
      [destruct (Z.ltb_spec (Range.End_ sub) (Range.End_ from));
         [|destruct (Z.leb_spec (Range.End_ from) (Range.Begin_ sub))]
      |destruct (Z.leb_spec (Range.End_ from) (Range.End_ sub));
         [|destruct (Z.leb_spec (Range.End_ sub) (Range.Begin_ from))]];
      (split; [intros Heq | intros [? ?]]); try done; try lia.
Qed.

Lemma RangeSubtract_difference_witness :
  (length (Range.RangeSubtract (Range.mk 0 10) (Range.mk 3 5)) <= 2)%nat /\
  (forall z, (exists d, d ∈ Range.RangeSubtract (Range.mk 0 10) (Range.mk 3 5)
                        /\ Range.mem z d)
             <-> Range.mem z (Range.mk 0 10) /\ ~ Range.mem z (Range.mk 3 5)) /\
  (forall i j d1 d2 z,
     i <> j -> Range.RangeSubtract (Range.mk 0 10) (Range.mk 3 5) !! i = Some d1 ->
     Range.RangeSubtract (Range.mk 0 10) (Range.mk 3 5) !! j = Some d2 ->
     Range.mem z d1 -> Range.mem z d2 -> False) /\
  (Range.RangeSubtract (Range.mk 0 10) (Range.mk 3 5) = []
   <-> Range.Contains (Range.mk 3 5) (Range.mk 0 10) = true).
Proof.
  apply (RangeSubtract_difference (Range.mk 0 10) (Range.mk 3 5)).
  unfold Range.valid. simpl. lia.
Defined.

(** X2: [operator |=] on ranges gives a range that holds both operands;
    when the operands overlap it holds nothing else, otherwise it also
    covers what lies between them. *)
Theorem Range_union_exact a r :
  (forall z, Range.mem z a \/ Range.mem z r -> Range.mem z (Range.union a r)) /\
  (Range.Overlaps a r = true ->
   forall z, Range.mem z (Range.union a r) -> Range.mem z a \/ Range.mem z r) /\
  (Range.IsEmpty a = false -> Range.IsEmpty r = false ->
   forall z, Range.mem z (Range.union a r)
             <-> Z.min (Range.Begin_ a) (Range.Begin_ r) <= z
                 < Z.max (Range.End_ a) (Range.End_ r)).
Proof.
  unfold Range.union, Range.Overlaps, Range.IsEmpty, Range.mem.
  destruct (Z.leb_spec (Range.End_ a) (Range.Begin_ a)) as [Ha|Ha];
    destruct (Z.leb_spec (Range.End_ r) (Range.Begin_ r)) as [Hr|Hr]; simpl;
    (split; [intros z; lia|]);
    (split; [rewrite andb_true_iff, !Z.ltb_lt; intros [H1 H2] z; lia|]);
    try done.
Qed.

End RangeSets.

Section SpaceSets.

Implicit Types (a s : Space.t) (p : list Z) (dims : list Z).

Lemma zip_inter_valid a s : Forall Range.valid (zip_with Range.inter a s).
Proof.
  revert s. induction a as [|x a IH]; intros [|y s]; simpl; try constructor; [|done].
  unfold Range.valid, Range.inter. simpl. lia.
Qed.

Lemma Space_Clear_zero s :
  Forall Range.valid (Space.Clear s) /\ Forall (fun r => Range.size r = 0) (Space.Clear s).
Proof.
  unfold Space.Clear. split; apply Forall_forall; intros r Hr;
    apply list_elem_of_fmap in Hr as (r0 & -> & _);
    unfold Range.valid, Range.size, Range.BeginCount; simpl; lia.
Qed.

(** X3: for spaces of the same number of dimensions, [operator &=] gives
    a space of that number of dimensions whose points are exactly the
    common points of the operands; its ranges satisfy the invariant of
    their class; and when there is no common point, every range of the
    result has size zero. *)
Theorem Space_inter_exact a s :
  length a = length s ->
  length (Space.inter a s) = length a /\
  (forall p, Space.mem p (Space.inter a s) <-> Space.mem p a /\ Space.mem p s) /\
  Forall Range.valid (Space.inter a s) /\
  (Space.IsEmpty (Space.inter a s) = true ->
   Forall (fun r => Range.size r = 0) (Space.inter a s)).
Proof.
  intros Hlen. split; [by apply Space_inter_length|].
  split; [intros p; by apply Space_mem_inter|].
  unfold Space.inter. destruct (Space_inter_loop_spec a s Hlen) as (Hl & Ht & Hf).
  destruct (Space.inter_loop a s) as [r [|]]; simpl in *.
  - destruct (Ht eq_refl) as [-> Hne]. split; [apply zip_inter_valid|]. congruence.
  - split; [|intros _]; apply Space_Clear_zero.
Qed.

Lemma Space_inter_exact_witness :
  length (Space.inter [Range.mk 0 4; Range.mk 0 4] [Range.mk 2 6; Range.mk 1 3]) = 2%nat /\
  (forall p, Space.mem p (Space.inter [Range.mk 0 4; Range.mk 0 4]
                                      [Range.mk 2 6; Range.mk 1 3])
             <-> Space.mem p [Range.mk 0 4; Range.mk 0 4]
                 /\ Space.mem p [Range.mk 2 6; Range.mk 1 3]) /\
  Forall Range.valid (Space.inter [Range.mk 0 4; Range.mk 0 4]
                                  [Range.mk 2 6; Range.mk 1 3]) /\
  (Space.IsEmpty (Space.inter [Range.mk 0 4; Range.mk 0 4]
                              [Range.mk 2 6; Range.mk 1 3]) = true ->
   Forall (fun r => Range.size r = 0)
          (Space.inter [Range.mk 0 4; Range.mk 0 4] [Range.mk 2 6; Range.mk 1 3])).
Proof.
  apply (Space_inter_exact [Range.mk 0 4; Range.mk 0 4] [Range.mk 2 6; Range.mk 1 3]).
  reflexivity.
Defined.

(** X4: for spaces of the same number of dimensions and a non-empty
    [other], [Contains(other)] tells exactly whether every point of
    [other] is a point of the space. *)
Theorem Space_Contains_inclusion a s :
  length a = length s -> Space.IsEmpty s = false ->
  (Space.Contains a s = true <-> forall p, Space.mem p s -> Space.mem p a).
Proof.
  intros Hlen Hne. split.
  - intros Hc p Hp. by apply (Space_Contains_mem a s).
  - intros Hsub. by apply Space_mem_Contains.
Qed.

Lemma Space_Contains_inclusion_witness :
  Space.Contains [Range.mk 0 10; Range.mk 0 5] [Range.mk 2 4; Range.mk 1 5] = true
  <-> forall p, Space.mem p [Range.mk 2 4; Range.mk 1 5]
                -> Space.mem p [Range.mk 0 10; Range.mk 0 5].
Proof.
  apply (Space_Contains_inclusion [Range.mk 0 10; Range.mk 0 5]
                                  [Range.mk 2 4; Range.mk 1 5]); reflexivity.
Defined.

Lemma Space_Overlaps_point a s :
  length a = length s -> Space.IsEmpty a = false -> Space.IsEmpty s = false ->
  Space.Overlaps a s = true -> exists p, Space.mem p a /\ Space.mem p s.
Proof.
  revert s. induction a as [|x a IH]; intros [|y s] Hlen Ha Hs Ho; simpl in *; try lia.
  - exists []. split; constructor.
  - apply orb_false_iff in Ha as [Hx Ha], Hs as [Hy Hs].
    apply andb_true_iff in Ho as [Hxy Ho].
    destruct (IH s) as (p & Hpa & Hps); [lia | done | done | done |].
    apply Range_IsEmpty_false in Hx, Hy. unfold Range.Overlaps in Hxy.
    apply andb_true_iff in Hxy as [H1 H2]. apply Z.ltb_lt in H1, H2.
    exists (Z.max (Range.Begin_ x) (Range.Begin_ y) :: p).
    split; constructor; try done; unfold Range.mem; lia.
Qed.

(** X5: for spaces of the same number of dimensions, [Overlaps] is true
    whenever the spaces share a point, and for non-empty spaces only then;
    an empty range that lies inside another range counts as overlapping
    it. *)
Theorem Space_Overlaps_common_point a s :
  length a = length s ->
  ((exists p, Space.mem p a /\ Space.mem p s) -> Space.Overlaps a s = true) /\
  (Space.IsEmpty a = false -> Space.IsEmpty s = false ->
   Space.Overlaps a s = true -> exists p, Space.mem p a /\ Space.mem p s) /\
  (forall x y : Range.t,
      Range.End_ x <= Range.Begin_ x -> Range.Begin_ y < Range.End_ x ->
      Range.Begin_ x < Range.End_ y ->
      Space.Overlaps [x] [y] = true /\ forall p, ~ Space.mem p [x]).
Proof.
  intros Hlen. split; [|split].
  - intros (p & Hpa & Hps). destruct (Space.Overlaps a s) eqn:Ho; [done|].
    by destruct (Space_Overlaps_false a s p Ho).
  - by apply Space_Overlaps_point.
  - intros x y Hx H1 H2. split.
    + unfold Space.Overlaps, Range.Overlaps. simpl. rewrite andb_true_r.
      apply andb_true_iff. split; apply Z.ltb_lt; lia.
    + intros p Hp. inversion Hp as [|z r p' s' Hz]; subst. unfold Range.mem in Hz. lia.
Qed.

Lemma Space_Overlaps_common_point_witness :
  ((exists p, Space.mem p [Range.mk 0 4] /\ Space.mem p [Range.mk 2 6])
   -> Space.Overlaps [Range.mk 0 4] [Range.mk 2 6] = true) /\
  (Space.IsEmpty [Range.mk 0 4] = false -> Space.IsEmpty [Range.mk 2 6] = false ->
   Space.Overlaps [Range.mk 0 4] [Range.mk 2 6] = true ->
   exists p, Space.mem p [Range.mk 0 4] /\ Space.mem p [Range.mk 2 6]) /\
  (forall x y : Range.t,
      Range.End_ x <= Range.Begin_ x -> Range.Begin_ y < Range.End_ x ->
      Range.Begin_ x < Range.End_ y ->
      Space.Overlaps [x] [y] = true /\ forall p, ~ Space.mem p [x]).
Proof.
  apply (Space_Overlaps_common_point [Range.mk 0 4] [Range.mk 2 6]). reflexivity.
Defined.

End SpaceSets.

Section SpaceMeasures.

Implicit Types (a s : Space.t) (p d dims : list Z).

Lemma Product_product (l : list Z) : Tools.Product l = product l.
Proof.
  unfold Tools.Product.
  assert (forall acc, fold_left Z.mul l acc = acc * product l) as H.
  { induction l as [|x l IH]; intros acc; simpl; [lia|]. rewrite IH. lia. }
  rewrite H. lia.
Qed.



Lemma product_nonneg (l : list Z) : Forall (fun x => 0 <= x) l -> 0 <= product l.
Proof. induction 1 as [|x l Hx Hl IH]; simpl; [lia | nia]. Qed.

(** X6: for a displacement with one entry for every dimension,
    [DisplaceNeg] undoes [Displace] and the other way round; [Displace]
    keeps the sizes of the ranges and the volume, adds the displacement to
    the origin, and moves every point by the displacement. *)
Theorem Space_Displace_roundtrip a d :
  length d = length a ->
  Space.DisplaceNeg (Space.Displace a d) d = a /\
  Space.Displace (Space.DisplaceNeg a d) d = a /\
  Space.GetDimensions (Space.Displace a d) = Space.GetDimensions a /\
  Space.GetVolume (Space.Displace a d) = Space.GetVolume a /\
  Space.GetOrigin (Space.Displace a d) = zip_with Z.add (Space.GetOrigin a) d /\
  forall p, length p = length a ->
            (Space.mem p a <-> Space.mem (zip_with Z.add p d) (Space.Displace a d)).
Proof.
  intros Hlen.
  assert (Space.GetDimensions (Space.Displace a d) = Space.GetDimensions a) as Hdims.
  { clear Hlen. unfold Space.GetDimensions. revert d.
    induction a as [|x a IH]; intros [|o d]; simpl; try done.
    f_equal; [unfold Range.size, Range.shift; simpl; lia | apply IH]. }
  split; [|split; [|split; [|split; [|split]]]]; try done.
  - clear. revert d. induction a as [|x a IH]; intros [|o d]; simpl; try done.
    rewrite IH. destruct x. unfold Range.unshift, Range.shift. simpl. f_equal. f_equal; lia.
  - clear. revert d. induction a as [|x a IH]; intros [|o d]; simpl; try done.
    rewrite IH. destruct x. unfold Range.unshift, Range.shift. simpl. f_equal. f_equal; lia.
  - rewrite !GetVolume_product. unfold Space.GetDimensions in Hdims. by rewrite Hdims.
  - clear Hdims. unfold Space.GetOrigin. revert d Hlen.
    induction a as [|x a IH]; intros [|o d] Hlen; simpl in *; try done.
    f_equal. apply IH. lia.
  - clear Hdims. revert d Hlen.
    induction a as [|x a IH]; intros [|o d] Hlen [|z p] Hp; simpl in *; try lia.
    + done.
    + split; intros Hm; inversion Hm as [|? ? ? ? Hz Hrest]; subst.
      * constructor; [unfold Range.mem, Range.shift in *; simpl; lia|].
        apply IH; [lia | lia | done].
      * constructor; [unfold Range.mem, Range.shift in *; simpl in *; lia|].
        apply (IH d); [lia | lia | done].
Qed.

Lemma Space_Displace_roundtrip_witness :
  Space.DisplaceNeg (Space.Displace [Range.mk 0 4; Range.mk 2 3] [10; -1]) [10; -1]
  = [Range.mk 0 4; Range.mk 2 3] /\
  Space.Displace (Space.DisplaceNeg [Range.mk 0 4; Range.mk 2 3] [10; -1]) [10; -1]
  = [Range.mk 0 4; Range.mk 2 3] /\
  Space.GetDimensions (Space.Displace [Range.mk 0 4; Range.mk 2 3] [10; -1])
  = Space.GetDimensions [Range.mk 0 4; Range.mk 2 3] /\
  Space.GetVolume (Space.Displace [Range.mk 0 4; Range.mk 2 3] [10; -1])
  = Space.GetVolume [Range.mk 0 4; Range.mk 2 3] /\
  Space.GetOrigin (Space.Displace [Range.mk 0 4; Range.mk 2 3] [10; -1])
  = zip_with Z.add (Space.GetOrigin [Range.mk 0 4; Range.mk 2 3]) [10; -1] /\
  forall p, length p = length [Range.mk 0 4; Range.mk 2 3] ->
            (Space.mem p [Range.mk 0 4; Range.mk 2 3]
             <-> Space.mem (zip_with Z.add p [10; -1])
                           (Space.Displace [Range.mk 0 4; Range.mk 2 3] [10; -1])).
Proof.
  apply (Space_Displace_roundtrip [Range.mk 0 4; Range.mk 2 3] [10; -1]). reflexivity.
Defined.

(** X7: for dimensions that are not negative, [Space(dimensions)] has
    these dimensions and the origin 0, its volume is
    [Product(dimensions)], it is empty exactly if a dimension is 0, and
    its points are the index vectors below the dimensions. *)
Theorem Space_of_dims_spec dims :
  Forall (fun dim => 0 <= dim) dims ->
  Space.Dimensions (Space.of_dims dims) = length dims /\
  Space.GetDimensions (Space.of_dims dims) = dims /\
  Space.GetOrigin (Space.of_dims dims) = map (fun _ => 0) dims /\
  Space.GetVolume (Space.of_dims dims) = Tools.Product dims /\
  (Space.IsEmpty (Space.of_dims dims) = true <-> 0 ∈ dims) /\
  forall p, Space.mem p (Space.of_dims dims)
            <-> Forall2 (fun z dim => 0 <= z < dim) p dims.
Proof.
  intros Hdims. unfold Space.of_dims, Space.Dimensions.
  split; [apply length_map|]. split; [|split; [|split; [|split]]].
  - unfold Space.GetDimensions. rewrite map_map. rewrite <- (map_id dims) at 2.
    apply map_ext. intros dim. unfold Range.size. simpl. lia.
  - unfold Space.GetOrigin. by rewrite map_map.
  - rewrite GetVolume_product, Product_product, map_map. f_equal.
    rewrite <- (map_id dims) at 2. apply map_ext. intros dim. unfold Range.size. simpl. lia.
  - unfold Space.IsEmpty. split.
    + intros Hex. apply existsb_exists in Hex as (r & Hin & Hr).
      apply in_map_iff in Hin as (dim & <- & Hin). apply list_elem_of_In in Hin.
      rewrite Forall_forall in Hdims. specialize (Hdims dim Hin).
      unfold Range.IsEmpty in Hr. simpl in Hr. apply Z.leb_le in Hr.
      by replace dim with 0 in Hin by lia.
    + intros Hin. apply existsb_exists. exists (Range.BeginCount 0 0).
      split; [|reflexivity]. apply in_map_iff. exists 0. split; [done|].
      by apply list_elem_of_In.
  - intros p. unfold Space.mem. clear Hdims. revert p.
    induction dims as [|dim dims IH]; intros p; simpl.
    + split; intros H; inversion H; constructor.
    + split; intros H; inversion H as [|z ? p' ? Hz Hrest]; subst;
        (constructor; [unfold Range.mem in *; simpl in *; lia | by apply IH]).
Qed.

Lemma Space_of_dims_spec_witness :
  Space.Dimensions (Space.of_dims [3; 0; 2]) = length [3; 0; 2] /\
  Space.GetDimensions (Space.of_dims [3; 0; 2]) = [3; 0; 2] /\
  Space.GetOrigin (Space.of_dims [3; 0; 2]) = map (fun _ => 0) [3; 0; 2] /\
  Space.GetVolume (Space.of_dims [3; 0; 2]) = Tools.Product [3; 0; 2] /\
  (Space.IsEmpty (Space.of_dims [3; 0; 2]) = true <-> 0 ∈ [3; 0; 2]) /\
  forall p, Space.mem p (Space.of_dims [3; 0; 2])
            <-> Forall2 (fun z dim => 0 <= z < dim) p [3; 0; 2].
Proof.
  apply (Space_of_dims_spec [3; 0; 2]). repeat constructor; lia.
Defined.



End SpaceMeasures.

(* ===================================================================== *)
(** * Space divisions as maps from points to labels *)
(* ===================================================================== *)

Section DivisionMaps.

Context {A : Type} `{EqDecision A}.

Import SpaceDivision.

Implicit Types (e : A * Space.t) (p : list Z) (d : SpaceDivision.t A) (sec sub s : Space.t).

(** X9: [AssignSection(sec, a)] on a division that satisfies the
    invariant of the class updates the labels of the points: afterwards a
    point of [sec] inside the bounding space lies in the new entry for [a]
    and in no other entry, and a point outside [sec] lies in an entry with
    label [l] exactly if it did before. *)
Theorem AssignSection_update sec (a : A) d d' :
  Inv d -> AssignSection sec a d = Some d' ->
  FullSpace_ d' = FullSpace_ d /\
  (forall p, Space.mem p sec -> Space.mem p (FullSpace_ d) ->
             (a, Space.inter sec (FullSpace_ d)) ∈ Sections_ d' /\
             Space.mem p (Space.inter sec (FullSpace_ d)) /\
             forall e', e' ∈ Sections_ d' -> Space.mem p (snd e') ->
                        e' = (a, Space.inter sec (FullSpace_ d))) /\
  (forall p (l : A), ~ Space.mem p sec ->
             (exists s', (l, s') ∈ Sections_ d' /\ Space.mem p s')
             <-> (exists s, (l, s) ∈ Sections_ d /\ Space.mem p s)).
Proof.
  intros Hinv Hsome. split; [by eapply AssignSection_FullSpace|]. split.
  - intros p Hsec Hfull.
    pose proof (AssignSection_Some _ _ _ _ Hsome) as [Hlen Hcases].
    assert (Space.mem p (Space.inter sec (FullSpace_ d))) as Hin
        by (by apply Space_mem_inter).
    split; [|split; [done|]].
    + destruct Hcases as [[Hemp _]|[_ ->]].
      * by destruct (Space_IsEmpty_no_points _ p Hemp).
      * simpl. apply elem_of_app. right. apply list_elem_of_here.
    + intros e' He' Hpe'.
      destruct (AssignSection_sections _ _ _ _ _ Hinv Hsome He')
        as [[-> _]|(e & _ & _ & Hfrag)]; [done|].
      by destruct (Hfrag p Hpe').
  - intros p l Hnot. split.
    + intros (s' & Hs' & Hp).
      destruct (AssignSection_sections _ _ _ _ _ Hinv Hsome Hs')
        as [[[= -> ->] _]|([l0 s0] & He & Hfst & Hfrag)].
      * pose proof (AssignSection_Some _ _ _ _ Hsome) as [Hlen _].
        apply Space_mem_inter in Hp as [Hp _]; done.
      * simpl in *. subst l0. exists s0. split; [done|]. by apply Hfrag.
    + intros (s & Hs & Hp).
      destruct (AssignSection_cover sec a d d' (l, s) p Hinv Hsome Hs Hp)
        as ([l' s'] & He' & Hp' & [Hl| [= -> ->]]); simpl in *.
      * subst l'. by exists s'.
      * pose proof (AssignSection_Some _ _ _ _ Hsome) as [Hlen _].
        apply Space_mem_inter in Hp' as [Hp' _]; done.
Qed.

(** X10: [SubDivision(subspace)] on a division that satisfies the
    invariant gives a division of [subspace] that satisfies it, with no
    more entries, in which a point lies in an entry with label [l] exactly
    if it is a point of [subspace] that lies in such an entry of the
    division. *)
Theorem SubDivision_points sub d d' :
  Inv d -> SubDivision sub d = Some d' ->
  FullSpace_ d' = sub /\ Inv d' /\
  (GetSectionCount d' <= GetSectionCount d)%nat /\
  forall p (l : A),
    (exists s', (l, s') ∈ Sections_ d' /\ Space.mem p s')
    <-> Space.mem p sub /\ exists s, (l, s) ∈ Sections_ d /\ Space.mem p s.
Proof.
  intros Hinv Hsome. pose proof (SubDivision_Inv _ _ _ Hinv Hsome) as Hinv'.
  pose proof (fun e' => SubDivision_sections sub d d' e' Hsome) as Hsections.
  assert (length sub = length (FullSpace_ d) /\ FullSpace_ d' = sub /\
          (GetSectionCount d' <= GetSectionCount d)%nat) as (Hlen & Hfull & Hcount).
  { revert Hsome. unfold SubDivision, GetSectionCount.
    destruct (Nat.eqb_spec (length sub) (length (FullSpace_ d))) as [Hlen|]; [|done].
    simpl. destruct (negb _); [done|]. intros [= <-]. simpl.
    split; [done|]. split; [done|]. clear.
    induction (Sections_ d) as [|e l IH]; simpl; [done|].
    rewrite length_app. destruct (Space.IsEmpty _); simpl; lia. }
  split; [done|]. split; [done|]. split; [done|].
  destruct Hinv as [Hall _]. rewrite Forall_forall in Hall.
  intros p l. split.
  - intros (s' & Hs' & Hp). apply Hsections in Hs' as ([l0 s0] & He & [= -> ->] & Hne).
    destruct (Hall _ He) as (Hl & _). simpl in *.
    apply Space_mem_inter in Hp as [Hp0 Hpsub]; [|lia].
    split; [done|]. by exists s0.
  - intros (Hpsub & s & Hs & Hp). destruct (Hall _ Hs) as (Hl & _). simpl in *.
    assert (Space.mem p (Space.inter s sub)) as Hin by (apply Space_mem_inter; [lia | done]).
    exists (Space.inter s sub). split; [|done]. apply Hsections. exists (l, s).
    split; [done|]. split; [done|]. simpl.
    destruct (Space.IsEmpty _) eqn:Hemp; [|done].
    by destruct (Space_IsEmpty_no_points _ p Hemp).
Qed.

Lemma filter_label_other (a b : A) (l : list (A * Space.t)) :
  b <> a ->
  List.filter (fun e => bool_decide (fst e = b))
              (List.filter (fun e => negb (bool_decide (fst e = a))) l)
  = List.filter (fun e => bool_decide (fst e = b)) l.
Proof.
  intros Hne. induction l as [|e l IH]; simpl; [done|].
  destruct (bool_decide_reflect (fst e = a)) as [Ha|Ha]; simpl.
  - rewrite bool_decide_eq_false_2 by congruence. done.
  - by rewrite IH.
Qed.

(** X11: [Unassign(a)] removes exactly the entries with the label [a]:
    afterwards the envelope of [a] is the bounding space set to size zero,
    the envelopes of the other labels are as before, and a second
    [Unassign(a)] changes nothing. *)
Theorem Unassign_spec (a : A) d :
  FullSpace_ (Unassign a d) = FullSpace_ d /\
  (forall e, e ∈ Sections_ (Unassign a d) <-> e ∈ Sections_ d /\ fst e <> a) /\
  GetEnvelope a (Unassign a d) = Space.Clear (FullSpace_ d) /\
  (forall b, b <> a -> GetEnvelope b (Unassign a d) = GetEnvelope b d) /\
  Unassign a (Unassign a d) = Unassign a d.
Proof.
  split; [done|]. split; [|split; [|split]].
  - intros e. unfold Unassign. simpl. rewrite list_elem_of_In, filter_In, <- list_elem_of_In.
    rewrite negb_true_iff, bool_decide_eq_false. done.
  - unfold GetEnvelope, Unassign. simpl.
    assert (List.filter (fun e => bool_decide (fst e = a))
              (List.filter (fun e => negb (bool_decide (fst e = a))) (Sections_ d)) = [])
      as ->; [|done].
    induction (Sections_ d) as [|e l IH]; simpl; [done|].
    destruct (bool_decide_reflect (fst e = a)) as [Ha|Ha]; simpl; [done|].
    by rewrite bool_decide_eq_false_2.
  - intros b Hb. unfold GetEnvelope, Unassign. simpl. by rewrite filter_label_other.
  - unfold Unassign. simpl. f_equal.
    induction (Sections_ d) as [|e l IH]; simpl; [done|].
    destruct (bool_decide_reflect (fst e = a)) as [Ha|Ha]; simpl; [done|].
    rewrite bool_decide_eq_false_2 by done. simpl. by rewrite IH.
Qed.

Lemma Range_union_Contains (full x y : Range.t) :
  Range.Contains full x = true -> Range.Contains full y = true ->
  Range.Contains full (Range.union x y) = true.
Proof.
  unfold Range.Contains, Range.union, Range.IsEmpty.
  rewrite !andb_true_iff, !Z.leb_le. intros [H1 H2] [H3 H4].
  destruct (Z.leb_spec (Range.End_ x) (Range.Begin_ x)); [done|].
  destruct (Z.leb_spec (Range.End_ y) (Range.Begin_ y)); simpl; [done|]. lia.
Qed.

Lemma Space_union_Contains (full x y : Space.t) :
  length x = length full -> length y = length full ->
  Space.Contains full x = true -> Space.Contains full y = true ->
  Space.Contains full (Space.union x y) = true.
Proof.
  unfold Space.Contains. revert x y.
  induction full as [|f full IH]; intros [|x0 x] [|y0 y] Hx Hy; simpl in *; try done.
  rewrite !andb_true_iff. intros [H1 H2] [H3 H4].
  split; [by apply Range_union_Contains | apply IH; [lia | lia | done | done]].
Qed.

(** X12: in a division that satisfies the invariant, the envelope of a
    label has the dimensions of the bounding space and lies inside it; for
    a label without an entry it is empty (if the space has a dimension at
    all). *)
Theorem GetEnvelope_bounds (a : A) d :
  Inv d ->
  length (GetEnvelope a d) = length (FullSpace_ d) /\
  (forall p, Space.mem p (GetEnvelope a d) -> Space.mem p (FullSpace_ d)) /\
  ((forall s, (a, s) ∉ Sections_ d) -> FullSpace_ d <> [] ->
   Space.IsEmpty (GetEnvelope a d) = true).
Proof.
  intros [Hall _]. rewrite Forall_forall in Hall. unfold GetEnvelope.
  assert (forall e, e ∈ List.filter (fun e => bool_decide (fst e = a)) (Sections_ d) ->
                    fst e = a /\ e ∈ Sections_ d /\ length (snd e) = length (FullSpace_ d) /\
                    Space.Contains (FullSpace_ d) (snd e) = true) as Hfilter.
  { intros e He. apply list_elem_of_In, filter_In in He as [He Ha].
    apply bool_decide_eq_true in Ha. apply list_elem_of_In in He.
    destruct (Hall e He) as (Hl & Hn & Hsub). repeat (split; [done|]).
    by apply Space_mem_Contains. }
  destruct (List.filter _ _) as [|e rg].
  - split; [apply Space_Clear_length|]. split.
    + intros p Hp. destruct (FullSpace_ d) as [|r full] eqn:Hfull; [done|].
      exfalso. by apply (Space_Clear_no_points (r :: full) p).
    + intros _ Hne. destruct (FullSpace_ d) as [|r full]; [done|]. simpl.
      unfold Range.IsEmpty at 1. simpl. rewrite Z.add_0_r, Z.leb_refl. done.
  - assert (forall (l : list (A * Space.t)) (acc : Space.t),
              (forall e', e' ∈ l -> length (snd e') = length (FullSpace_ d) /\
                                    Space.Contains (FullSpace_ d) (snd e') = true) ->
              length acc = length (FullSpace_ d) ->
              Space.Contains (FullSpace_ d) acc = true ->
              length (fold_left (fun ret it => Space.union ret (snd it)) l acc)
              = length (FullSpace_ d) /\
              Space.Contains (FullSpace_ d)
                (fold_left (fun ret it => Space.union ret (snd it)) l acc) = true) as Hfold.
    { induction l as [|e' l IH]; intros acc Hl Hacc Hc; simpl; [done|].
      destruct (Hl e' (list_elem_of_here _ _)) as [Hle Hce].
      apply IH.
      - intros e'' He''. by apply Hl, list_elem_of_further.
      - by rewrite Space_union_length.
      - by apply Space_union_Contains. }
    destruct (Hfilter e (list_elem_of_here _ _)) as (_ & _ & Hle & Hce).
    destruct (Hfold rg (snd e)) as [Hlen Hcont]; [|done|done|].
    { intros e' He'. by destruct (Hfilter e' (list_elem_of_further _ _ _ He')) as (_ & _ & ? & ?). }
    split; [done|]. split.
    + intros p Hp. by apply (Space_Contains_mem _ _ p Hcont).
    + intros Hnone _. exfalso. destruct (Hfilter e (list_elem_of_here _ _)) as (Ha & He & _).
      apply (Hnone (snd e)). rewrite <- Ha. by destruct e.
Qed.

(** X13: in a division that satisfies the invariant, [FindOverlaps(s)]
    for a non-empty [s] of the dimensions of the bounding space finds
    exactly the entries that share a point with [s]. *)
Theorem FindOverlaps_spec s d :
  Inv d -> length s = length (FullSpace_ d) -> Space.IsEmpty s = false ->
  exists l, FindOverlaps s d = Some l /\
            forall e, e ∈ l <-> e ∈ Sections_ d /\
                                exists p, Space.mem p (snd e) /\ Space.mem p s.
Proof.
  intros [Hall _] Hlen Hne. unfold FindOverlaps.
  rewrite (same_dims_ok (FullSpace_ d)) by done. eexists. split; [done|].
  rewrite Forall_forall in Hall.
  intros e. rewrite list_elem_of_In, filter_In, <- list_elem_of_In. split.
  - intros [He Ho]. split; [done|]. destruct (Hall e He) as (Hl & Hn & _).
    apply Space_Overlaps_point; [lia | done | done | done].
  - intros [He (p & Hpe & Hps)]. split; [done|].
    destruct (Space.Overlaps (snd e) s) eqn:Ho; [done|].
    by destruct (Space_Overlaps_false _ _ p Ho).
Qed.

End DivisionMaps.

Lemma AssignSection_update_witness :
  exists d',
    SpaceDivision.AssignSection [Range.mk 2 6] 7%nat
      (SpaceDivision.mk [Range.mk 0 10] [(3%nat, [Range.mk 0 4])]) = Some d' /\
    SpaceDivision.FullSpace_ d' = [Range.mk 0 10] /\
    (forall p, Space.mem p [Range.mk 2 6] -> Space.mem p [Range.mk 0 10] ->
               (7%nat, Space.inter [Range.mk 2 6] [Range.mk 0 10])
                 ∈ SpaceDivision.Sections_ d' /\
               Space.mem p (Space.inter [Range.mk 2 6] [Range.mk 0 10]) /\
               forall e', e' ∈ SpaceDivision.Sections_ d' -> Space.mem p (snd e') ->
                          e' = (7%nat, Space.inter [Range.mk 2 6] [Range.mk 0 10])) /\
    (forall p (l : nat), ~ Space.mem p [Range.mk 2 6] ->
               (exists s', (l, s') ∈ SpaceDivision.Sections_ d' /\ Space.mem p s')
               <-> (exists s, (l, s) ∈ [(3%nat, [Range.mk 0 4])] /\ Space.mem p s)).
Proof.
  eexists. split; [reflexivity|].
  apply (AssignSection_update [Range.mk 2 6] 7%nat
           (SpaceDivision.mk [Range.mk 0 10] [(3%nat, [Range.mk 0 4])])).
  - apply (run_Inv [SpaceDivision.OpAssignSection [Range.mk 0 4] 3%nat]
                   (SpaceDivision.create [Range.mk 0 10])); [apply create_Inv | reflexivity].
  - reflexivity.
Defined.

Lemma SubDivision_points_witness :
  exists d',
    SpaceDivision.SubDivision [Range.mk 2 6]
      (SpaceDivision.mk [Range.mk 0 10] [(3%nat, [Range.mk 0 4])]) = Some d' /\
    SpaceDivision.FullSpace_ d' = [Range.mk 2 6] /\ Inv d' /\
    (SpaceDivision.GetSectionCount d' <= 1)%nat /\
    forall p (l : nat),
      (exists s', (l, s') ∈ SpaceDivision.Sections_ d' /\ Space.mem p s')
      <-> Space.mem p [Range.mk 2 6]
          /\ exists s, (l, s) ∈ [(3%nat, [Range.mk 0 4])] /\ Space.mem p s.
Proof.
  eexists. split; [reflexivity|].
  apply (SubDivision_points [Range.mk 2 6]
           (SpaceDivision.mk [Range.mk 0 10] [(3%nat, [Range.mk 0 4])])).
  - apply (run_Inv [SpaceDivision.OpAssignSection [Range.mk 0 4] 3%nat]
                   (SpaceDivision.create [Range.mk 0 10])); [apply create_Inv | reflexivity].
  - reflexivity.
Defined.

Lemma GetEnvelope_bounds_witness :
  length (SpaceDivision.GetEnvelope 3%nat
            (SpaceDivision.mk [Range.mk 0 10] [(3%nat, [Range.mk 0 4])])) = 1%nat /\
  (forall p, Space.mem p (SpaceDivision.GetEnvelope 3%nat
                            (SpaceDivision.mk [Range.mk 0 10] [(3%nat, [Range.mk 0 4])]))
             -> Space.mem p [Range.mk 0 10]) /\
  ((forall s, (3%nat, s) ∉ [(3%nat, [Range.mk 0 4])]) -> [Range.mk 0 10] <> [] ->
   Space.IsEmpty (SpaceDivision.GetEnvelope 3%nat
                    (SpaceDivision.mk [Range.mk 0 10] [(3%nat, [Range.mk 0 4])])) = true).
Proof.
  apply (GetEnvelope_bounds 3%nat
           (SpaceDivision.mk [Range.mk 0 10] [(3%nat, [Range.mk 0 4])])).
  apply (run_Inv [SpaceDivision.OpAssignSection [Range.mk 0 4] 3%nat]
                 (SpaceDivision.create [Range.mk 0 10])); [apply create_Inv | reflexivity].
Defined.

Lemma FindOverlaps_spec_witness :
  exists l,
    SpaceDivision.FindOverlaps [Range.mk 2 6]
      (SpaceDivision.mk [Range.mk 0 10] [(3%nat, [Range.mk 0 4])]) = Some l /\
    forall e, e ∈ l <-> e ∈ [(3%nat, [Range.mk 0 4])] /\
                        exists p, Space.mem p (snd e) /\ Space.mem p [Range.mk 2 6].
Proof.
  apply (FindOverlaps_spec [Range.mk 2 6]
           (SpaceDivision.mk [Range.mk 0 10] [(3%nat, [Range.mk 0 4])])).
  - apply (run_Inv [SpaceDivision.OpAssignSection [Range.mk 0 4] 3%nat]
                   (SpaceDivision.create [Range.mk 0 10])); [apply create_Inv | reflexivity].
  - reflexivity.
  - reflexivity.
Defined.

(* ===================================================================== *)
(** * Adjacency and reachability *)
(* ===================================================================== *)

Section ReachabilitySound.

Import Graph.

Implicit Types (g : Graph.t) (ret : ItemMap) (n m : nat).

Lemma at_insert ret (k : nat) (v : gset nat) n :
  at_ (<[k := v]> ret) n = if decide (n = k) then v else at_ ret n.
Proof.
  unfold at_. destruct (decide (n = k)) as [->|Hne].
  - by rewrite lookup_insert_eq.
  - by rewrite lookup_insert_ne.
Qed.

Lemma at_GetNodeMap g n : at_ (GetNodeMap g) n = ∅.
Proof.
  unfold at_, GetNodeMap. destruct (list_to_map _ !! n) as [x|] eqn:Hx; [|done].
  apply elem_of_list_to_map_2, list_elem_of_fmap in Hx as (k & Heq & _).
  by injection Heq as _ ->.
Qed.

Lemma at_adjacency_fold (edges : list (nat * nat)) ret n m :
  m ∈ at_ (fold_left (fun ret edge => <[fst edge := at_ ret (fst edge) ∪ {[snd edge]}]> ret)
                     edges ret) n
  <-> m ∈ at_ ret n \/ (n, m) ∈ edges.
Proof.
  revert ret. induction edges as [|[u v] edges IH]; intros ret; simpl.
  - rewrite elem_of_nil. tauto.
  - rewrite IH, at_insert, elem_of_cons. destruct (decide (n = u)) as [->|Hne].
    + rewrite elem_of_union, elem_of_singleton. split.
      * intros [[H| ->]|H]; auto.
      * intros [H|[[= ->]|H]]; auto.
    + split; [intros [H|H]; auto|]. intros [H|[Heq|H]]; auto.
      by injection Heq as -> _.
Qed.

Lemma lookup_adjacency_fold (edges : list (nat * nat)) ret n :
  is_Some (fold_left (fun ret edge => <[fst edge := at_ ret (fst edge) ∪ {[snd edge]}]> ret)
                     edges ret !! n)
  <-> is_Some (ret !! n) \/ exists m, (n, m) ∈ edges.
Proof.
  revert ret. induction edges as [|[u v] edges IH]; intros ret; simpl.
  - split; [by left|]. intros [H|[m Hm]]; [done | by apply elem_of_nil in Hm].
  - rewrite IH. rewrite lookup_insert_is_Some. split.
    + intros [[->|[_ H]]|[m Hm]]; [right; exists v; apply list_elem_of_here | by left |].
      right. exists m. by apply list_elem_of_further.
    + intros [H|[m Hm]].
      * left. destruct (decide (u = n)); [by left | by right].
      * apply elem_of_cons in Hm as [[= -> ->]|Hm]; [left; by left|]. right. by exists m.
Qed.

Lemma AdjacencyMatrix_at g n m :
  m ∈ at_ (AdjacencyMatrix g) n <-> (n, m) ∈ Edges g.
Proof.
  unfold AdjacencyMatrix. rewrite at_adjacency_fold, at_GetNodeMap, elem_of_empty. tauto.
Qed.

(** X14: in the matrix of [AdjacencyMatrix], the set of a node holds
    exactly the targets of its edges, and the matrix has an entry for
    exactly the nodes of the graph. *)
Theorem AdjacencyMatrix_exact g n m :
  wf g ->
  (m ∈ at_ (AdjacencyMatrix g) n <-> (n, m) ∈ Edges g) /\
  (is_Some (AdjacencyMatrix g !! n) <-> n ∈ Nodes g).
Proof.
  intros [_ Hedges]. split; [apply AdjacencyMatrix_at|]. unfold AdjacencyMatrix.
  - rewrite lookup_adjacency_fold. unfold GetNodeMap. split.
    + intros [[x Hx]|[m' Hm']].
      * apply elem_of_list_to_map_2, list_elem_of_fmap in Hx as (k & Heq & Hk).
        by injection Heq as -> _.
      * by destruct (Hedges _ Hm') as [? _].
    + intros Hn. left. apply not_eq_None_Some. rewrite <- not_elem_of_list_to_map.
      intros Hnot. apply Hnot. apply list_elem_of_fmap. exists (n, ∅). split; [done|].
      apply list_elem_of_fmap. by exists n.
Qed.

Lemma AdjacencyMatrix_exact_witness :
  (3%nat ∈ at_ (AdjacencyMatrix zigzag) 1 <-> (1%nat, 3%nat) ∈ Edges zigzag) /\
  (is_Some (AdjacencyMatrix zigzag !! 1%nat) <-> 1%nat ∈ Nodes zigzag).
Proof. apply (AdjacencyMatrix_exact zigzag 1 3), zigzag_wf. Defined.

Lemma reachable_trans g n w m : reachable g n w -> reachable g w m -> reachable g n m.
Proof.
  induction 1 as [u v Huv|u x v Hux Hxv IH]; intros Hm.
  - by apply reach_step with v.
  - apply reach_step with x; [done | by apply IH].
Qed.

(** Every set holds only nodes that can be reached. *)
Definition sound g ret : Prop := forall n m, m ∈ at_ ret n -> reachable g n m.

Lemma reach_inner_sound g (nodes : list nat) (n1 : nat) ret :
  sound g ret -> sound g (reach_inner nodes n1 ret).
Proof.
  unfold reach_inner. revert ret. induction nodes as [|n2 nodes IH]; intros ret Hs; simpl.
  - done.
  - apply IH. destruct (bool_decide_reflect (n2 ∈ at_ ret n1)) as [Hin|]; [|done].
    intros n m. rewrite at_insert. destruct (decide (n = n1)) as [->|]; [|apply Hs].
    rewrite elem_of_union. intros [Hm|Hm]; [by apply Hs|].
    apply reachable_trans with n2; by apply Hs.
Qed.

Lemma reach_inner_grows (nodes : list nat) (n1 : nat) ret n m :
  m ∈ at_ ret n -> m ∈ at_ (reach_inner nodes n1 ret) n.
Proof.
  unfold reach_inner. revert ret. induction nodes as [|n2 nodes IH]; intros ret Hm; simpl.
  - done.
  - apply IH. destruct (bool_decide (n2 ∈ at_ ret n1)); [|done].
    rewrite at_insert. destruct (decide (n = n1)) as [->|]; [|done].
    apply elem_of_union. by left.
Qed.

Lemma fold_reach_sound g (outer : list nat) ret :
  sound g ret ->
  sound g (fold_left (fun ret n1 => reach_inner (Nodes g) n1 ret) outer ret).
Proof.
  revert ret. induction outer as [|n1 outer IH]; intros ret Hs; simpl; [done|].
  by apply IH, reach_inner_sound.
Qed.

Lemma fold_reach_grows g (outer : list nat) ret n m :
  m ∈ at_ ret n ->
  m ∈ at_ (fold_left (fun ret n1 => reach_inner (Nodes g) n1 ret) outer ret) n.
Proof.
  revert ret. induction outer as [|n1 outer IH]; intros ret Hm; simpl; [done|].
  by apply IH, reach_inner_grows.
Qed.

Lemma ReachabilityMatrix_only_reachable g n m :
  m ∈ at_ (ReachabilityMatrix g) n -> reachable g n m.
Proof.
  unfold ReachabilityMatrix. apply fold_reach_sound.
  intros n' m' Hm'. apply reach_edge. by apply AdjacencyMatrix_at.
Qed.

(** X15: every node in a set of the matrix of [ReachabilityMatrix] can be
    reached from the node of the set by following edges, and the set holds
    at least the targets of the edges of its node. *)
Theorem ReachabilityMatrix_sound g n m :
  (m ∈ at_ (ReachabilityMatrix g) n -> reachable g n m) /\
  ((n, m) ∈ Edges g -> m ∈ at_ (ReachabilityMatrix g) n).
Proof.
  split; [apply ReachabilityMatrix_only_reachable|].
  intros Hedge. unfold ReachabilityMatrix. by apply fold_reach_grows, AdjacencyMatrix_at.
Qed.

End ReachabilitySound.

Section ReachabilityComplete.

Import Graph.

Implicit Types (g : Graph.t) (ret : ItemMap) (n m : nat).

(** Every edge leads to a node that is listed before its source. *)
Definition edges_point_back g : Prop :=
  forall u v, (u, v) ∈ Edges g ->
              exists i j, Nodes g !! i = Some v /\ Nodes g !! j = Some u /\ (i < j)%nat.

Lemma reach_inner_absorb (nodes : list nat) (n1 n2 : nat) ret m :
  n2 ∈ nodes -> n2 ∈ at_ ret n1 -> m ∈ at_ ret n2 ->
  m ∈ at_ (reach_inner nodes n1 ret) n1.
Proof.
  revert ret. induction nodes as [|h nodes IH]; intros ret Hin H21 Hm.
  - by apply elem_of_nil in Hin.
  - apply elem_of_cons in Hin as [->|Hin].
    + change (reach_inner (h :: nodes) n1 ret)
        with (reach_inner nodes n1 (reach_inner [h] n1 ret)).
      apply reach_inner_grows. unfold reach_inner. simpl.
      rewrite bool_decide_eq_true_2 by done. rewrite at_insert, decide_True by done.
      apply elem_of_union. by right.
    + change (reach_inner (h :: nodes) n1 ret)
        with (reach_inner nodes n1 (reach_inner [h] n1 ret)).
      apply IH; [done | by apply reach_inner_grows..].
Qed.

(** X16: if the nodes are listed once each and every edge leads to a node
    listed before its source, the matrix of [ReachabilityMatrix] is exact:
    the set of a node holds exactly the nodes that can be reached from
    it. *)
Theorem ReachabilityMatrix_exact_if_ordered g n m :
  wf g -> edges_point_back g ->
  (m ∈ at_ (ReachabilityMatrix g) n <-> reachable g n m).
Proof.
  intros [Hnodup Hedges] Horder. split; [apply ReachabilityMatrix_only_reachable|].
  unfold ReachabilityMatrix.
  assert (forall (outer finished : list nat) ret,
             Nodes g = finished ++ outer ->
             (forall u v, (u, v) ∈ Edges g -> v ∈ at_ ret u) ->
             (forall u v, u ∈ finished -> reachable g u v -> v ∈ at_ ret u) ->
             forall u v, u ∈ finished ++ outer -> reachable g u v ->
                         v ∈ at_ (fold_left (fun ret n1 => reach_inner (Nodes g) n1 ret)
                                            outer ret) u) as Hfold.
  { induction outer as [|n1 outer IH]; intros finished ret Hnodes Hadj Hdone u v Hu Huv; simpl.
    - rewrite app_nil_r in Hu. by apply Hdone.
    - apply (IH (finished ++ [n1])).
      + by rewrite <- app_assoc.
      + intros u' v' He. by apply reach_inner_grows, Hadj.
      + intros u' v' Hu' Hreach. apply elem_of_app in Hu' as [Hu'|Hu'].
        { by apply reach_inner_grows, Hdone. }
        apply list_elem_of_singleton in Hu' as ->.
        destruct Hreach as [u' v' He|u' w v' He Hwv]; [by apply reach_inner_grows, Hadj|].
        apply (reach_inner_absorb _ _ w).
        * by destruct (Hedges _ He).
        * by apply Hadj.
        * apply Hdone; [|done].
          destruct (Horder _ _ He) as (i & j & Hi & Hj & Hij).
          assert (Nodes g !! length finished = Some u') as Hpos.
          { rewrite Hnodes, lookup_app_r by lia. by rewrite Nat.sub_diag. }
          assert (j = length finished) as -> by (by eapply NoDup_lookup).
          rewrite Hnodes, lookup_app_l in Hi by done.
          by eapply list_elem_of_lookup_2.
      + by rewrite <- app_assoc.
      + done. }
  intros Hreach. apply (Hfold (Nodes g) []); try done.
  - intros u v He. by apply AdjacencyMatrix_at.
  - intros u v Hu. by apply elem_of_nil in Hu.
  - simpl. destruct Hreach as [u v He|u w v He _]; by destruct (Hedges _ He).
Qed.

End ReachabilityComplete.

(** The path 1 -> 3 -> 2 -> 4 again, with the nodes listed from the end of
    the path to its start. *)
Definition zigzag_sorted : Graph.t :=
  Graph.mk [4; 2; 3; 1]%nat [(1, 3); (3, 2); (2, 4)]%nat.

Lemma ReachabilityMatrix_exact_if_ordered_witness :
  4%nat ∈ Graph.at_ (Graph.ReachabilityMatrix zigzag_sorted) 1
  <-> Graph.reachable zigzag_sorted 1 4.
Proof.
  apply (ReachabilityMatrix_exact_if_ordered zigzag_sorted 1 4).
  - split.
    + apply (bool_decide_unpack _). by vm_compute.
    + intros e He. simpl in He.
      repeat (apply elem_of_cons in He as [->|He]);
        [| | | by apply elem_of_nil in He];
        split; apply (bool_decide_unpack _); by vm_compute.
  - intros u v He. simpl in He.
    repeat (apply elem_of_cons in He as [Heq|He]);
      [| | | by apply elem_of_nil in He]; injection Heq as -> ->.
    + exists 2%nat, 3%nat. split; [reflexivity|]. split; [reflexivity | lia].
    + exists 1%nat, 2%nat. split; [reflexivity|]. split; [reflexivity | lia].
    + exists 0%nat, 1%nat. split; [reflexivity|]. split; [reflexivity | lia].
Defined.

(* ===================================================================== *)
(** * Flat indices *)
(* ===================================================================== *)

Section FlatIndices.

Import Tools.

Implicit Types (index dims acc : list Z) (f ret : Z).
















End FlatIndices.

(* ===================================================================== *)
(** * Periodic windows *)
(* ===================================================================== *)

Section PeriodicWindows.

Import Diophant.

Lemma Modulo_mod a b : 0 < b -> Modulo a b = Some (a mod b).
Proof.
  intros Hb. unfold Modulo. destruct (Z.eqb_spec b 0) as [|_]; [lia|]. f_equal.
  pose proof (Z.quot_rem' a b) as Hqr.
  destruct (Z.ltb_spec (Z.rem a b) 0) as [Hneg|Hpos].
  - apply (Z.mod_unique a b (a ÷ b - 1)); [|lia].
    left. destruct (Z.le_gt_cases 0 a) as [Ha|Ha].
    + pose proof (Z.rem_bound_pos a b Ha Hb). lia.
    + pose proof (Z.rem_bound_pos_neg a b Hb). lia.
  - apply (Z.mod_unique a b (a ÷ b)); [|lia].
    left. destruct (Z.le_gt_cases 0 a) as [Ha|Ha].
    + pose proof (Z.rem_bound_pos a b Ha Hb). lia.
    + pose proof (Z.rem_bound_pos_neg a b Hb). lia.
Qed.

Lemma Gcd_loop_gcd (fuel : nat) : forall i1 i2,
  0 <= i1 -> 0 < i2 -> i2 <= Z.of_nat fuel ->
  Gcd_loop fuel i1 i2 = Some (Z.gcd i1 i2).
Proof.
  induction fuel as [|fuel IH]; intros i1 i2 H1 H2 Hfuel; [lia|]. simpl.
  pose proof (Z.rem_bound_pos i1 i2 H1 H2) as Hr1.
  rewrite (Z.rem_mod_nonneg i1 i2) in * by lia.
  assert (Z.gcd (i1 mod i2) i2 = Z.gcd i1 i2) as Hg1 by apply Z.gcd_mod_l.
  destruct (Z.eqb_spec (i1 mod i2) 0) as [Hz|Hnz].
  - rewrite Hz, Z.gcd_0_l in Hg1. rewrite <- Hg1. f_equal. lia.
  - pose proof (Z.rem_bound_pos i2 (i1 mod i2)) as Hr2.
    rewrite (Z.rem_mod_nonneg i2 (i1 mod i2)) in * by lia.
    assert (Z.gcd (i1 mod i2) (i2 mod (i1 mod i2)) = Z.gcd i1 i2) as Hg2
        by (by rewrite Z.gcd_mod_r).
    destruct (Z.eqb_spec (i2 mod (i1 mod i2)) 0) as [Hz2|Hnz2].
    + rewrite Hz2, Z.gcd_0_r in Hg2. rewrite <- Hg2. f_equal. lia.
    + rewrite <- Hg2. apply IH; lia.
Qed.

Lemma Gcd_positive (i1 i2 : Z) :
  0 < i1 -> 0 < i2 -> Gcd i1 i2 = Some (Z.gcd i1 i2) /\ 0 < Z.gcd i1 i2.
Proof.
  intros H1 H2. unfold Gcd.
  destruct (Z.ltb_spec 0 i1); [|lia]. destruct (Z.ltb_spec 0 i2); [|lia]. simpl.
  rewrite Gcd_loop_gcd by lia. split; [done|].
  pose proof (Z.gcd_nonneg i1 i2).
  destruct (Z.eq_dec (Z.gcd i1 i2) 0) as [Hz|]; [|lia].
  apply Z.gcd_eq_0_l in Hz. lia.
Qed.

(** X20: for two positive numbers [Gcd] returns their greatest common
    divisor; for any other arguments it stops at its assertion. *)
Theorem Gcd_spec (i1 i2 g : Z) :
  Gcd i1 i2 = Some g <-> 0 < i1 /\ 0 < i2 /\ g = Z.gcd i1 i2.
Proof.
  unfold Gcd.
  destruct (Z.ltb_spec 0 i1) as [H1|H1], (Z.ltb_spec 0 i2) as [H2|H2]; simpl;
    try (split; [done | lia]).
  rewrite Gcd_loop_gcd by lia. split.
  - intros [= <-]. done.
  - intros (_ & _ & ->). done.
Qed.

(** The window [wnd] of a period of length [period], whose first period
    begins at [start], is open at the time [t]. *)
Definition open_at (wnd : Range.t) (period start t : Z) : Prop :=
  exists k, 0 <= k /\ Range.mem t (Range.shift wnd (start + k * period)).

Lemma multiple_between (g lb ub : Z) :
  0 < g ->
  (g < lb mod g + (ub - lb) <-> exists j, lb < g * j < ub).
Proof.
  intros Hg. pose proof (Z.mod_pos_bound lb g Hg) as Hm.
  pose proof (Z.div_mod lb g ltac:(lia)) as Hdm. split.
  - intros Hlt. exists (lb / g + 1). lia.
  - intros (j & Hlo & Hhi).
    assert (lb / g < j) as Hj by nia.
    assert (g * (lb / g + 1) <= g * j) by nia. lia.
Qed.

Lemma periods_reach (p1 p2 g j : Z) :
  0 < p1 -> 0 < p2 -> Z.gcd p1 p2 = g ->
  exists k1 k2, 0 <= k1 /\ 0 <= k2 /\ k2 * p2 - k1 * p1 = g * j.
Proof.
  intros H1 H2 Hg. destruct (Z.gcd_bezout _ _ _ Hg) as (u & v & Huv).
  set (n := Z.abs (j * u) + Z.abs (j * v)).
  assert (0 <= n) as Hn by lia.
  exists (n * p2 - j * u), (n * p1 + j * v).
  assert (n <= n * p2) by nia. assert (n <= n * p1) by nia.
  split; [lia|]. split; [lia|].
  rewrite <- Huv. ring.
Qed.

(** X21: for positive periods and windows that lie within their periods
    and are not empty, [PeriodicWindowOverlap] returns true exactly if at
    some time both windows are open, the periods of the first window
    beginning at 0 and those of the second at [offset]. *)
Theorem PeriodicWindowOverlap_spec (wnd1 : Range.t) (period1 : Z)
        (wnd2 : Range.t) (period2 offset : Z) :
  0 < period1 -> 0 < period2 ->
  Range.Contains (Range.BeginEnd 0 period1) wnd1 = true ->
  Range.Contains (Range.BeginEnd 0 period2) wnd2 = true ->
  Range.IsEmpty wnd1 = false -> Range.IsEmpty wnd2 = false ->
  exists b,
    PeriodicWindowOverlap wnd1 period1 wnd2 period2 offset = Some b /\
    (b = true <->
     exists t, open_at wnd1 period1 0 t /\ open_at wnd2 period2 offset t).
Proof.
  intros Hp1 Hp2 Hc1 Hc2 He1 He2. unfold PeriodicWindowOverlap.
  rewrite Hc1, Hc2.
  destruct (Z.leb_spec 0 period1); [|lia]. destruct (Z.leb_spec 0 period2); [|lia]. simpl.
  destruct (Gcd_positive period1 period2 Hp1 Hp2) as [-> Hgpos].
  remember (Z.gcd period1 period2) as g eqn:Hg.
  rewrite Modulo_mod by done. eexists. split; [done|].
  unfold Range.IsEmpty in He1, He2. apply Z.leb_gt in He1, He2.
  destruct wnd1 as [b1 e1], wnd2 as [b2 e2]. simpl in *.
  rewrite Z.ltb_lt, multiple_between by done.
  unfold open_at, Range.mem, Range.shift. simpl. split.
  - intros (j & Hlo & Hhi).
    destruct (periods_reach period1 period2 g j Hp1 Hp2 (eq_sym Hg))
      as (k1 & k2 & Hk1 & Hk2 & Hk).
    exists (Z.max (b1 + (0 + k1 * period1)) (b2 + (offset + k2 * period2))).
    split; [exists k1 | exists k2]; (split; [done|]); lia.
  - intros (t & (k1 & Hk1 & Ht1) & (k2 & Hk2 & Ht2)).
    destruct (Z.gcd_divide_l period1 period2) as [c1 Hc1'].
    destruct (Z.gcd_divide_r period1 period2) as [c2 Hc2'].
    rewrite <- Hg in Hc1', Hc2'.
    exists (k2 * c2 - k1 * c1).
    replace (g * (k2 * c2 - k1 * c1)) with (k2 * (c2 * g) - k1 * (c1 * g)) by ring.
    rewrite <- Hc1', <- Hc2'. lia.
Qed.

Lemma PeriodicWindowOverlap_spec_witness :
  exists b,
    PeriodicWindowOverlap (Range.mk 0 2) 4 (Range.mk 3 5) 6 0 = Some b /\
    (b = true <->
     exists t, open_at (Range.mk 0 2) 4 0 t /\ open_at (Range.mk 3 5) 6 0 t).
Proof.
  apply (PeriodicWindowOverlap_spec (Range.mk 0 2) 4 (Range.mk 3 5) 6 0);
    solve [lia | reflexivity].
Defined.

(** X22: an empty window is treated like a moment at which a window could
    open: with an empty first window [PeriodicWindowOverlap] still returns
    true as soon as the second window is longer than the greatest common
    divisor of the periods, although the first window is open at no
    time. *)
Theorem PeriodicWindowOverlap_empty_window (b1 : Z) (period1 : Z)
        (wnd2 : Range.t) (period2 offset : Z) :
  0 < period1 -> 0 < period2 -> 0 <= b1 <= period1 ->
  Range.Contains (Range.BeginEnd 0 period2) wnd2 = true ->
  Z.gcd period1 period2 < Range.size wnd2 ->
  PeriodicWindowOverlap (Range.BeginEnd b1 b1) period1 wnd2 period2 offset = Some true /\
  forall t, ~ open_at (Range.BeginEnd b1 b1) period1 0 t.
Proof.
  intros Hp1 Hp2 Hb1 Hc2 Hsize. split.
  - unfold PeriodicWindowOverlap. rewrite Hc2.
    unfold Range.Contains, Range.BeginEnd. simpl.
    destruct (Z.leb_spec 0 period1); [|lia]. destruct (Z.leb_spec 0 period2); [|lia].
    destruct (Z.leb_spec 0 b1); [|lia]. destruct (Z.leb_spec b1 period1); [|lia]. simpl.
    destruct (Gcd_positive period1 period2 Hp1 Hp2) as [-> Hgpos].
    remember (Z.gcd period1 period2) as g eqn:Hg.
    rewrite Modulo_mod by done. f_equal. apply Z.ltb_lt.
    pose proof (Z.mod_pos_bound (b1 - Range.End_ wnd2 - offset) g Hgpos).
    unfold Range.size in Hsize. lia.
  - intros t (k & _ & Ht). unfold Range.mem, Range.shift, Range.BeginEnd in Ht.
    simpl in Ht. lia.
Qed.

Lemma PeriodicWindowOverlap_empty_window_witness :
  PeriodicWindowOverlap (Range.BeginEnd 1 1) 2 (Range.mk 0 10) 10 0 = Some true /\
  forall t, ~ open_at (Range.BeginEnd 1 1) 2 0 t.
Proof.
  apply (PeriodicWindowOverlap_empty_window 1 2 (Range.mk 0 10) 10 0);
    solve [lia | reflexivity | vm_compute; lia].
Defined.

End PeriodicWindows.

(* ===================================================================== *)
(** * Selection by filter and comparison, and the capacity of the banks *)
(* ===================================================================== *)

Section Selection.

Import BankAssignment.

Lemma skip_to_spec {B : Type} (filter : B -> bool) (range : list B) :
  match skip_to filter range with
  | [] => forall k, k ∈ range -> filter k = false
  | b :: rest =>
      filter b = true /\
      exists skipped, range = skipped ++ b :: rest /\
                      forall k, k ∈ skipped -> filter k = false
  end.
Proof.
  induction range as [|x range IH]; simpl.
  - intros k Hk. by apply elem_of_nil in Hk.
  - destruct (filter x) eqn:Hx.
    + split; [done|]. exists []. split; [done|]. intros k Hk. by apply elem_of_nil in Hk.
    + destruct (skip_to filter range) as [|b rest].
      * intros k Hk. apply elem_of_cons in Hk as [->|Hk]; [done | by apply IH].
      * destruct IH as (Hb & skipped & -> & Hskipped). split; [done|].
        exists (x :: skipped). split; [done|].
        intros k Hk. apply elem_of_cons in Hk as [->|Hk]; [done | by apply Hskipped].
Qed.

Section Order.

Context {B : Type} (filter : B -> bool) (cmp : B -> B -> bool).
Hypothesis cmp_irrefl : forall a, cmp a a = false.
Hypothesis cmp_trans : forall a b c, cmp a b = true -> cmp b c = true -> cmp a c = true.

Lemma max_loop_spec (rest : list B) : forall (seen : list B) (g : B),
  g ∈ seen -> filter g = true ->
  (forall k, k ∈ seen -> filter k = true -> cmp g k = false) ->
  max_loop filter cmp rest g ∈ seen ++ rest /\
  filter (max_loop filter cmp rest g) = true /\
  forall k, k ∈ seen ++ rest -> filter k = true ->
            cmp (max_loop filter cmp rest g) k = false.
Proof.
  induction rest as [|x rest IH]; intros seen g Hg Hf Hmax; simpl.
  - rewrite app_nil_r. done.
  - replace (seen ++ x :: rest) with ((seen ++ [x]) ++ rest) by (by rewrite <- app_assoc).
    destruct (filter x) eqn:Hx; simpl; [destruct (cmp g x) eqn:Hgx|].
    + apply IH; [apply elem_of_app; right; apply list_elem_of_singleton; done | done |].
      intros k Hk Hfk. apply elem_of_app in Hk as [Hk|Hk].
      * destruct (cmp x k) eqn:Hxk; [|done].
        rewrite <- (Hmax k Hk Hfk). symmetry. by apply (cmp_trans g x k).
      * apply list_elem_of_singleton in Hk as ->. apply cmp_irrefl.
    + apply IH; [apply elem_of_app; by left | done |].
      intros k Hk Hfk. apply elem_of_app in Hk as [Hk|Hk]; [by apply Hmax|].
      by apply list_elem_of_singleton in Hk as ->.
    + apply IH; [apply elem_of_app; by left | done |].
      intros k Hk Hfk. apply elem_of_app in Hk as [Hk|Hk]; [by apply Hmax|].
      apply list_elem_of_singleton in Hk as ->. congruence.
Qed.

(** X23: [MaxElementIf] returns the end of the range exactly if no
    element passes the filter; otherwise, for a comparison that is
    irreflexive and transitive, it returns an element of the range that
    passes the filter and that no other such element is greater than. *)
Theorem MaxElementIf_greatest (range : list B) :
  match MaxElementIf filter cmp range with
  | None => forall k, k ∈ range -> filter k = false
  | Some g =>
      g ∈ range /\ filter g = true /\
      forall k, k ∈ range -> filter k = true -> cmp g k = false
  end.
Proof.
  unfold MaxElementIf. pose proof (skip_to_spec filter range) as Hskip.
  destruct (skip_to filter range) as [|b rest]; [done|].
  destruct Hskip as (Hb & skipped & -> & Hskipped).
  destruct (max_loop_spec rest [b] b) as (Hin & Hf & Hmax);
    [apply list_elem_of_here | done | |].
  { intros k Hk _. apply list_elem_of_singleton in Hk as ->. apply cmp_irrefl. }
  split; [apply elem_of_app; by right|]. split; [done|].
  intros k Hk Hfk. apply elem_of_app in Hk as [Hk|Hk]; [|by apply Hmax].
  apply Hskipped in Hk. congruence.
Qed.

End Order.

Section OrderOnPositions.

Context (filter : nat -> bool) (cmp : nat -> nat -> bool).
Hypothesis cmp_irrefl : forall a, cmp a a = false.
Hypothesis cmp_trans : forall a b c, cmp a b = true -> cmp b c = true -> cmp a c = true.

Lemma min_loop_spec (rest : list nat) : forall (seen : list nat) (s : nat),
  s ∈ seen -> filter s = true ->
  (forall k, k ∈ seen -> filter k = true -> cmp k s = false) ->
  min_loop filter cmp rest s ∈ seen ++ rest /\
  filter (min_loop filter cmp rest s) = true /\
  forall k, k ∈ seen ++ rest -> filter k = true ->
            cmp k (min_loop filter cmp rest s) = false.
Proof.
  induction rest as [|x rest IH]; intros seen s Hs Hf Hmin; simpl.
  - rewrite app_nil_r. done.
  - replace (seen ++ x :: rest) with ((seen ++ [x]) ++ rest) by (by rewrite <- app_assoc).
    destruct (filter x) eqn:Hx; simpl; [destruct (cmp x s) eqn:Hxs|].
    + apply IH; [apply elem_of_app; right; apply list_elem_of_singleton; done | done |].
      intros k Hk Hfk. apply elem_of_app in Hk as [Hk|Hk].
      * destruct (cmp k x) eqn:Hkx; [|done].
        rewrite <- (Hmin k Hk Hfk). symmetry. by apply (cmp_trans k x s).
      * apply list_elem_of_singleton in Hk as ->. apply cmp_irrefl.
    + apply IH; [apply elem_of_app; by left | done |].
      intros k Hk Hfk. apply elem_of_app in Hk as [Hk|Hk]; [by apply Hmin|].
      by apply list_elem_of_singleton in Hk as ->.
    + apply IH; [apply elem_of_app; by left | done |].
      intros k Hk Hfk. apply elem_of_app in Hk as [Hk|Hk]; [by apply Hmin|].
      apply list_elem_of_singleton in Hk as ->. congruence.
Qed.

(** X24: [MinElementIf] returns the end of the range exactly if no
    element passes the filter; otherwise, for a comparison that is
    irreflexive and transitive, it returns an element of the range that
    passes the filter and that no other such element is smaller than. *)
Theorem MinElementIf_least (range : list nat) :
  match MinElementIf filter cmp range with
  | None => forall k, k ∈ range -> filter k = false
  | Some s =>
      s ∈ range /\ filter s = true /\
      forall k, k ∈ range -> filter k = true -> cmp k s = false
  end.
Proof.
  unfold MinElementIf. pose proof (skip_to_spec filter range) as Hskip.
  destruct (skip_to filter range) as [|b rest]; [done|].
  destruct Hskip as (Hb & skipped & -> & Hskipped).
  destruct (min_loop_spec rest [b] b) as (Hin & Hf & Hmin);
    [apply list_elem_of_here | done | |].
  { intros k Hk _. apply list_elem_of_singleton in Hk as ->. apply cmp_irrefl. }
  split; [apply elem_of_app; by right|]. split; [done|].
  intros k Hk Hfk. apply elem_of_app in Hk as [Hk|Hk]; [|by apply Hmin].
  apply Hskipped in Hk. congruence.
Qed.

End OrderOnPositions.

Lemma ltb_irrefl (a : nat) : Nat.ltb a a = false.
Proof. apply Nat.ltb_irrefl. Qed.

Lemma ltb_trans (a b c : nat) : Nat.ltb a b = true -> Nat.ltb b c = true -> Nat.ltb a c = true.
Proof. rewrite !Nat.ltb_lt. lia. Qed.

Lemma MinElementIf_least_witness :
  match MinElementIf Nat.even Nat.ltb [5; 4; 2; 7; 2]%nat with
  | None => forall k, k ∈ [5; 4; 2; 7; 2]%nat -> Nat.even k = false
  | Some s =>
      s ∈ [5; 4; 2; 7; 2]%nat /\ Nat.even s = true /\
      forall k, k ∈ [5; 4; 2; 7; 2]%nat -> Nat.even k = true -> Nat.ltb k s = false
  end.
Proof.
  apply (MinElementIf_least Nat.even Nat.ltb ltb_irrefl ltb_trans).
Defined.

Lemma MaxElementIf_greatest_witness :
  match MaxElementIf Nat.even Nat.ltb [5; 4; 2; 8; 7]%nat with
  | None => forall k, k ∈ [5; 4; 2; 8; 7]%nat -> Nat.even k = false
  | Some g =>
      g ∈ [5; 4; 2; 8; 7]%nat /\ Nat.even g = true /\
      forall k, k ∈ [5; 4; 2; 8; 7]%nat -> Nat.even k = true -> Nat.ltb g k = false
  end.
Proof.
  apply (MaxElementIf_greatest Nat.even Nat.ltb ltb_irrefl ltb_trans).
Defined.

End Selection.

Section BankCapacity.

Import BankAssignment.

Variable edges : list BufferEdge.
Variable nbanks : Z.

(** The bytes of the buffers that are assigned to [bank]. *)
Definition bank_load (nodes : list BufferNode) (bank : Z) : Z :=
  fold_right (fun nd s => if MemBank nd =? bank then Size nd + s else s) 0 nodes.

(** The capacity that [AssignBanks] gives to [bank]. *)
Definition bank_capacity (bank : Z) : Z :=
  if bank =? 0 then 5 * 1024 else InitialBankCapacity.

Definition share (nd : BufferNode) (bank : Z) : Z :=
  if MemBank nd =? bank then Size nd else 0.

Lemma bank_load_alter (f : BufferNode -> BufferNode) nodes k nd bank :
  nodes !! k = Some nd ->
  bank_load (alter f k nodes) bank = bank_load nodes bank - share nd bank + share (f nd) bank.
Proof.
  revert k. induction nodes as [|x nodes IH]; intros [|k] Hk; try done.
  - injection Hk as ->. change (alter f 0%nat (nd :: nodes)) with (f nd :: nodes).
    unfold share. simpl.
    destruct (MemBank nd =? bank), (MemBank (f nd) =? bank); lia.
  - change (alter f (S k) (x :: nodes)) with (x :: alter f k nodes). simpl.
    rewrite (IH k Hk). destruct (MemBank x =? bank); lia.
Qed.

Lemma bank_load_unassigned nodes bank :
  Forall (fun nd => MemBank nd = -1) nodes -> 0 <= bank -> bank_load nodes bank = 0.
Proof.
  intros Hall Hbank. induction Hall as [|nd nodes Hnd Hall IH]; simpl; [done|].
  rewrite Hnd, IH. by destruct (Z.eqb_spec (-1) bank); [lia|].
Qed.

(** The banks while the nodes come back from the stack: bank [i] stands at
    position [i], and what is left of its capacity is what the buffers
    assigned to it do not use. *)
Definition banks_ok (nodes : list BufferNode) (banks : list BankCharacteristics) : Prop :=
  length banks = Z.to_nat nbanks /\
  forall (i : nat) b, banks !! i = Some b ->
    BankID b = Z.of_nat i /\ 0 <= FreeSpace b /\
    FreeSpace b + bank_load nodes (Z.of_nat i) = bank_capacity (Z.of_nat i).

Definition bank_key (b : BankCharacteristics) : Z * Z * Z :=
  (Capacity b, FreeSpace b, BankID b).

Lemma sum_up_keys nodes pn banks :
  map bank_key (sum_up edges nodes pn banks) = map bank_key banks.
Proof.
  unfold sum_up.
  assert (map bank_key (map (fun b => mkBank 0 0 0 (Capacity b) (FreeSpace b) (BankID b)) banks)
          = map bank_key banks) as Hstart by (rewrite map_map; by apply map_ext).
  revert Hstart. generalize (map (fun b => mkBank 0 0 0 (Capacity b) (FreeSpace b) (BankID b)) banks).
  generalize (incident edges pn). intros l. induction l as [|[e pn2] l IH]; intros bs Hbs; simpl;
    [done|].
  apply IH. destruct (ignored nodes pn2); [done|].
  destruct (_ <? 0); [done|]. rewrite <- Hbs. by apply map_alter_same.
Qed.

Lemma sum_up_lookup nodes pn banks (i : nat) b :
  sum_up edges nodes pn banks !! i = Some b ->
  exists b0, banks !! i = Some b0 /\ FreeSpace b = FreeSpace b0 /\ BankID b = BankID b0.
Proof.
  intros Hb. pose proof (sum_up_keys nodes pn banks) as Hkeys.
  assert (map bank_key banks !! i = Some (bank_key b)) as Hk
      by (rewrite <- Hkeys, list_lookup_fmap, Hb; done).
  rewrite list_lookup_fmap in Hk. destruct (banks !! i) as [b0|]; [|done].
  unfold bank_key in Hk. simpl in Hk. injection Hk as HC HF HI.
  exists b0. by repeat split.
Qed.

Lemma sum_up_length nodes pn banks : length (sum_up edges nodes pn banks) = length banks.
Proof.
  rewrite <- (length_map bank_key), sum_up_keys. apply length_map.
Qed.

Lemma color_nodes_failed stack : forall nodes banks vout nodes' banks' vout' ret',
  color_nodes edges stack nodes banks vout false = (nodes', banks', vout', ret') -> ret' = false.
Proof.
  induction stack as [|pn stack IH]; intros nodes banks vout nodes' banks' vout' ret'; simpl.
  - by intros [= _ _ _ <-].
  - destruct (MaxElementIf _ _ _); apply IH.
Qed.

Lemma MaxElementIf_found {B : Type} (filter : B -> bool) cmp range (g : B) :
  MaxElementIf filter cmp range = Some g -> g ∈ range /\ filter g = true.
Proof.
  unfold MaxElementIf. pose proof (skip_to_spec filter range) as Hskip.
  destruct (skip_to filter range) as [|b rest]; [done|].
  destruct Hskip as (Hb & skipped & -> & _). intros [= <-].
  assert (forall rest' g0, filter g0 = true ->
            (max_loop filter cmp rest' g0 = g0 \/ max_loop filter cmp rest' g0 ∈ rest') /\
            filter (max_loop filter cmp rest' g0) = true) as Hloop.
  { induction rest' as [|x rest' IH]; intros g0 Hg0; simpl; [by split; [left|]|].
    destruct (filter x) eqn:Hx; simpl; [destruct (cmp g0 x)|].
    - destruct (IH x Hx) as [[->|Hin] Hf]; (split; [right|done]);
        [apply list_elem_of_here | by apply list_elem_of_further].
    - destruct (IH g0 Hg0) as [[->|Hin] Hf]; (split; [|done]);
        [by left | right; by apply list_elem_of_further].
    - destruct (IH g0 Hg0) as [[->|Hin] Hf]; (split; [|done]);
        [by left | right; by apply list_elem_of_further]. }
  destruct (Hloop rest b Hb) as [[->|Hin] Hf]; (split; [|done]); apply elem_of_app; right;
    [apply list_elem_of_here | by apply list_elem_of_further].
Qed.

Lemma color_nodes_capacity stack : forall nodes banks vout nodes' banks' vout',
  color_nodes edges stack nodes banks vout true = (nodes', banks', vout', true) ->
  NoDup stack ->
  (forall k, k ∈ stack -> exists nd, nodes !! k = Some nd /\ MemBank nd = -1) ->
  (forall k nd, k ∉ stack -> nodes !! k = Some nd -> 0 <= MemBank nd < nbanks) ->
  banks_ok nodes banks ->
  banks_ok nodes' banks' /\ Forall (fun nd => 0 <= MemBank nd < nbanks) nodes'.
Proof.
  induction stack as [|pn stack IH]; intros nodes banks vout nodes' banks' vout'; simpl.
  - intros [= <- <- <-] _ _ Hrest Hbanks. split; [done|].
    apply Forall_lookup_2. intros k nd Hk. apply (Hrest k nd); [|done].
    intros Hin. by apply elem_of_nil in Hin.
  - intros Hcol Hnd Hstack Hrest [Hlen Hbanks].
    inversion Hnd as [|? ? Hnotin Hnd']; subst.
    destruct (Hstack pn) as (nd & Hpn & Hmb); [apply list_elem_of_here|].
    set (nodes1 := alter (set_Ignore false) pn nodes) in *.
    assert (nodes1 !! pn = Some (set_Ignore false nd)) as Hpn1
        by (unfold nodes1; by rewrite list_lookup_alter_eq, Hpn).
    assert (forall bank, bank_load nodes1 bank = bank_load nodes bank) as Hload1.
    { intros bank. unfold nodes1. rewrite (bank_load_alter _ _ _ _ _ Hpn). unfold share. simpl. lia. }
    assert (node_at nodes1 pn = set_Ignore false nd) as Hat
        by (unfold node_at; by rewrite Hpn1).
    rewrite Hat in Hcol. simpl in Hcol.
    destruct (MaxElementIf _ _ _) as [it|] eqn:Hmax;
      [|by apply color_nodes_failed in Hcol].
    apply MaxElementIf_found in Hmax as [Hin Hfit]. apply Z.leb_le in Hfit.
    apply list_elem_of_In in Hin. apply (proj2 (in_rev _ _)) in Hin.
    apply list_elem_of_In, list_elem_of_lookup in Hin as [i Hi].
    destruct (sum_up_lookup _ _ _ _ _ Hi) as (b0 & Hb0 & HF & HI).
    destruct (Hbanks i b0 Hb0) as (Hid & Hfree & Hsum).
    assert (BankID it = Z.of_nat i) as Hit by congruence.
    assert (Z.of_nat i < nbanks) as Hi_lt.
    { apply lookup_lt_Some in Hb0. lia. }
    rewrite Hit, Nat2Z.id in Hcol.
    apply IH in Hcol; [done | done | | |].
    + intros k Hk. destruct (Hstack k) as (nd' & Hk' & Hmb'); [by apply list_elem_of_further|].
      assert (pn <> k) as Hne by (intros ->; done).
      exists nd'. split; [|done]. unfold nodes1. by rewrite !list_lookup_alter_ne.
    + intros k nd' Hk Hlk. destruct (decide (pn = k)) as [<-|Hne].
      * rewrite list_lookup_alter_eq, Hpn1 in Hlk. injection Hlk as <-. simpl. lia.
      * unfold nodes1 in Hlk. rewrite !list_lookup_alter_ne in Hlk by done.
        apply (Hrest k nd'); [|done]. intros Hin. apply elem_of_cons in Hin as [->|Hin]; done.
    + split; [by rewrite length_alter, sum_up_length|].
      intros j b Hj.
      rewrite (bank_load_alter _ _ _ _ _ Hpn1). unfold share. simpl. rewrite Hmb, Hload1.
      destruct (Z.eqb_spec (-1) (Z.of_nat j)) as [|_]; [lia|].
      destruct (decide (i = j)) as [<-|Hne].
      * rewrite list_lookup_alter_eq, Hi in Hj. injection Hj as <-. simpl.
        rewrite Z.eqb_refl. split; [done|]. lia.
      * rewrite list_lookup_alter_ne in Hj by done.
        destruct (sum_up_lookup _ _ _ _ _ Hj) as (b1 & Hb1 & HF1 & HI1).
        destruct (Hbanks j b1 Hb1) as (Hid1 & Hfree1 & Hsum1).
        destruct (Z.eqb_spec (Z.of_nat i) (Z.of_nat j)) as [|_]; [lia|].
        split; [congruence|]. lia.
Qed.

Lemma remove_nodes_length correction count : forall nodes stack vout nodes' stack' vout',
  remove_nodes edges correction count nodes stack vout = Some (nodes', stack', vout') ->
  length stack' = (count + length stack)%nat /\ length nodes' = length nodes.
Proof.
  induction count as [|count IH]; intros nodes stack vout nodes' stack' vout'; simpl.
  - by intros [= <- <- <-].
  - destruct (MinElementIf _ _ _) as [k|]; [|done]. intros Hrec.
    apply IH in Hrec as [Hs Hn]. rewrite Hs, Hn, length_alter. simpl. lia.
Qed.

Lemma full_stack (stack : list nat) (n : nat) :
  NoDup stack -> (forall k, k ∈ stack -> (k < n)%nat) -> length stack = n ->
  forall k, (k < n)%nat -> k ∈ stack.
Proof.
  intros Hnd Hlt Hlen k Hk.
  assert (stack ⊆+ seq 0 n) as Hsub.
  { apply NoDup_submseteq; [done|]. intros x Hx. apply elem_of_seq. specialize (Hlt x Hx). lia. }
  apply submseteq_length_Permutation in Hsub; [|by rewrite length_seq, Hlen].
  rewrite Hsub. apply elem_of_seq. lia.
Qed.

Lemma initial_banks_ok nodes :
  Forall (fun nd => MemBank nd = -1) nodes -> banks_ok nodes (initial_banks nbanks).
Proof.
  intros Hall. unfold initial_banks. split; [by rewrite !length_map, length_seq|].
  intros i b. rewrite !list_lookup_fmap. intros Hb.
  destruct (seq 0 (Z.to_nat nbanks) !! i) as [x|] eqn:Hx; [|done].
  apply lookup_seq in Hx as [-> _]. simpl in Hb. injection Hb as <-. simpl.
  rewrite bank_load_unassigned by (done || lia). unfold bank_capacity.
  split; [done|]. destruct (Z.of_nat i =? 0); unfold InitialBankCapacity; lia.
Qed.

Lemma attempt_capacity c st st' :
  attempt edges nbanks c st = Some (true, false, st') ->
  Forall (fun nd => 0 <= MemBank nd < nbanks) (Nodes st') /\
  forall bank, 0 <= bank < nbanks -> bank_load (Nodes st') bank <= bank_capacity bank.
Proof.
  unfold attempt.
  destruct (clear_and_check _ _) as [[[[nodes0 ret0] totalsize] ui0]|] eqn:Hcc; [|done].
  apply clear_and_check_spec in Hcc as (-> & -> & -> & _).
  destruct (forallb _ _); simpl; [|done].
  destruct (_ <? _); [by destruct (MsgUI.Error _ _)|].
  destruct (remove_nodes _ _ _ _ _ _) as [[[nodes1 stack] vout1]|] eqn:Hrm; [|done].
  pose proof (remove_nodes_length _ _ _ _ _ _ _ _ Hrm) as [Hslen Hnlen].
  apply remove_nodes_spec in Hrm as (Hnd & Hlt & _ & Hmb & _);
    [|constructor | intros k Hk; by apply elem_of_nil in Hk].
  destruct (nbanks <=? 0); [done|].
  destruct (color_nodes _ _ _ _ _ _) as [[[nodes2 banks] vout2] ret2] eqn:Hcol.
  assert (Forall (fun nd => MemBank nd = -1) nodes1) as Hclear.
  { apply Forall_lookup_2. intros k nd Hk.
    assert (map MemBank nodes1 !! k = Some (MemBank nd)) as Hm
        by (by rewrite list_lookup_fmap, Hk).
    rewrite Hmb, !list_lookup_fmap in Hm. destruct (Nodes st !! k); [|done].
    simpl in Hm. by injection Hm as <-. }
  destruct ret2.
  - intros [= <-]. simpl.
    apply color_nodes_capacity in Hcol as [[Hlen Hbanks] Hall]; [|done| | |].
    + split; [done|]. intros bank Hbank.
      destruct (lookup_lt_is_Some_2 banks (Z.to_nat bank)) as [b Hb]; [lia|].
      destruct (Hbanks _ _ Hb) as (_ & Hfree & Hsum). rewrite Z2Nat.id in Hsum by lia. lia.
    + intros k Hk. destruct (lookup_lt_is_Some_2 nodes1 k) as [nd Hnode]; [by apply Hlt|].
      exists nd. split; [done|]. by apply (Forall_lookup_1 _ _ _ _ Hclear Hnode).
    + intros k nd Hk Hnode. exfalso. apply Hk.
      apply (full_stack stack (length nodes1)); [done | done | |].
      * rewrite Hslen, Hnlen. simpl. lia.
      * by apply lookup_lt_Some in Hnode.
    + by apply initial_banks_ok.
  - destruct (c <? 10); [done|]. by destruct (MsgUI.Error _ _).
Qed.

(** X25: when [AssignBanks] returns true, every buffer has the size it had
    and one of the banks [0 .. BankCount_ - 1], and the buffers of each
    bank together do not exceed its capacity: 5 KiB for bank 0 and
    [InitialBankCapacity] for the others. *)
Theorem AssignBanks_within_capacity (c : Z) (st st' : state) :
  AssignBanks edges nbanks c st = Some (true, st') ->
  map Size (Nodes st') = map Size (Nodes st) /\
  Forall (fun nd => 0 <= MemBank nd < nbanks) (Nodes st') /\
  forall bank, 0 <= bank < nbanks -> bank_load (Nodes st') bank <= bank_capacity bank.
Proof.
  unfold AssignBanks. generalize (Z.to_nat (10 - c)). intros fuel. revert c st.
  induction fuel as [|fuel IH]; intros c st; simpl;
    destruct (attempt edges nbanks c st) as [[[ret again] st1]|] eqn:Hat; try done;
    pose proof (attempt_spec edges nbanks _ _ _ _ _ Hat) as [Hsz _];
    destruct again; try done.
  - intros [= -> ->]. split; [done|]. by apply (attempt_capacity c st).
  - intros Hrec. apply IH in Hrec as (Hsz' & Hrest). split; [congruence | done].
  - intros [= -> ->]. split; [done|]. by apply (attempt_capacity c st).
Qed.

End BankCapacity.

Lemma AssignBanks_within_capacity_witness :
  exists st',
    BankAssignment.AssignBanks [BankAssignment.mkEdge 0 1 3 0 0] 2 0
      (BankAssignment.mkState
         [BankAssignment.mkNode 1 4096 (-1) false 1;
          BankAssignment.mkNode 2 2048 (-1) false 2]
         (MsgUI.mk 0 []) [] [])
    = Some (true, st') /\
    Forall (fun nd => 0 <= BankAssignment.MemBank nd < 2) (BankAssignment.Nodes st') /\
    forall bank, 0 <= bank < 2 ->
      bank_load (BankAssignment.Nodes st') bank <= bank_capacity bank.
Proof.
  eexists. split; [by vm_compute|].
  apply (AssignBanks_within_capacity [BankAssignment.mkEdge 0 1 3 0 0] 2 0
           (BankAssignment.mkState
              [BankAssignment.mkNode 1 4096 (-1) false 1;
               BankAssignment.mkNode 2 2048 (-1) false 2]
              (MsgUI.mk 0 []) [] [])).
  by vm_compute.
Defined.

(* ===================================================================== *)
(** * The order of requirements, the limit of errors, new charts *)
(* ===================================================================== *)

Section PassOrder.

Import Pass.

Context {Data : Type}.

Lemma first_missing_first (p : Pass.t Data) (prog : Program Data) before req after :
  Requires_ p = before ++ req :: after ->
  (forall r, r ∈ before -> r ∈ PassesPerformed prog) ->
  req ∉ PassesPerformed prog ->
  first_missing p prog = Some req.
Proof.
  unfold first_missing. intros -> Hbefore Hreq.
  induction before as [|r before IH]; simpl.
  - by rewrite bool_decide_eq_false_2.
  - rewrite bool_decide_eq_true_2 by (apply Hbefore, list_elem_of_here). simpl.
    apply IH. intros r' Hr'. by apply Hbefore, list_elem_of_further.
Qed.

(** X26: the error of a pass names the first of its requirements, in the
    order of [Requires_], that is not in [PassesPerformed]; requirements
    behind it are not looked at, the function does not run and the program
    is not changed. *)
Theorem Pass_Run_first_missing (p : Pass.t Data) (prog : Program Data) before req after :
  Requires_ p = before ++ req :: after ->
  (forall r, r ∈ before -> r ∈ PassesPerformed prog) ->
  req ∉ PassesPerformed prog ->
  Run p prog = LuaError (missing_message (Name_ p) req) prog.
Proof.
  intros Hreq Hbefore Hmissing. unfold Run, CheckDependencies.
  by rewrite (first_missing_first p prog before req after).
Qed.

End PassOrder.

Lemma Pass_Run_first_missing_witness :
  Pass.Run (Pass.mk "schedule" (fun prog => (true, prog)) ["parse"; "group"; "map"] [])%string
           (Pass.mkProgram {["parse"%string]} tt)
  = Pass.LuaError (Pass.missing_message "schedule" "group") (Pass.mkProgram {["parse"%string]} tt).
Proof.
  apply (Pass_Run_first_missing
           (Pass.mk "schedule" (fun prog => (true, prog)) ["parse"; "group"; "map"] [])%string
           (Pass.mkProgram {["parse"%string]} tt) ["parse"%string] "group"%string ["map"%string]).
  - reflexivity.
  - intros r Hr. apply list_elem_of_singleton in Hr as ->. simpl. set_solver.
  - simpl. set_solver.
Defined.

Section MessageLimit.

Context {M : Type}.

(** One message to the sink. *)
Definition send (cm : MsgUI.classification * M) (ui : MsgUI.t M) : option (MsgUI.t M) :=
  match fst cm with
  | MsgUI.Error_ => MsgUI.Error (snd cm) ui
  | MsgUI.Warning_ => Some (MsgUI.Warning (snd cm) ui)
  end.

(** The messages [msgs] one after the other; [None]: the process has
    exited. *)
Fixpoint send_all (msgs : list (MsgUI.classification * M)) (ui : MsgUI.t M)
  : option (MsgUI.t M) :=
  match msgs with
  | [] => Some ui
  | cm :: msgs' =>
      match send cm ui with
      | Some ui' => send_all msgs' ui'
      | None => None
      end
  end.

Definition errors_in (msgs : list (MsgUI.classification * M)) : Z :=
  Z.of_nat (length (List.filter (fun cm => bool_decide (fst cm = MsgUI.Error_)) msgs)).

(** X27: a sink that has counted no more than 1000 errors takes a
    sequence of errors and warnings exactly if this brings the count to no
    more than 1000; it has then printed all of them in their order, and
    [NumErrors_] has grown by the number of errors.  Otherwise the process
    exits.  Warnings do not count. *)
Theorem MsgUI_error_limit (msgs : list (MsgUI.classification * M)) (ui : MsgUI.t M) :
  MsgUI.NumErrors_ ui <= MsgUI.limit ->
  match send_all msgs ui with
  | Some ui' =>
      MsgUI.NumErrors_ ui + errors_in msgs <= MsgUI.limit /\
      MsgUI.NumErrors_ ui' = MsgUI.NumErrors_ ui + errors_in msgs /\
      MsgUI.Output_ ui' = MsgUI.Output_ ui ++ msgs
  | None => MsgUI.limit < MsgUI.NumErrors_ ui + errors_in msgs
  end.
Proof.
  revert ui. induction msgs as [|[[] m] msgs IH]; intros ui Hui; simpl.
  - unfold errors_in. simpl. rewrite app_nil_r. split; [lia|]. split; [lia | done].
  - unfold send, MsgUI.Error. simpl.
    assert (errors_in ((MsgUI.Error_, m) :: msgs) = 1 + errors_in msgs) as ->
        by (unfold errors_in; simpl; lia).
    assert (0 <= errors_in msgs) as Hnn by (unfold errors_in; lia).
    destruct (Z.ltb_spec MsgUI.limit (MsgUI.NumErrors_ ui + 1)) as [Hover|Hok]; [lia|].
    specialize (IH (MsgUI.mk (MsgUI.NumErrors_ ui + 1) (MsgUI.Output_ ui ++ [(MsgUI.Error_, m)])) Hok).
    destruct (send_all msgs _) as [ui'|]; simpl in IH.
    + destruct IH as (Hle & Hnum & Hout). rewrite Hout, <- app_assoc. simpl.
      split; [lia|]. split; [lia | done].
    + lia.
  - unfold send. simpl.
    assert (errors_in ((MsgUI.Warning_, m) :: msgs) = errors_in msgs) as ->
        by (unfold errors_in; simpl; lia).
    specialize (IH (MsgUI.Warning m ui) Hui).
    destruct (send_all msgs _) as [ui'|]; simpl in IH; [|done].
    destruct IH as (Hle & Hnum & Hout). rewrite Hout, <- app_assoc. done.
Qed.

End MessageLimit.

Lemma MsgUI_error_limit_witness :
  match send_all [(MsgUI.Error_, 1%nat); (MsgUI.Warning_, 2%nat)] (MsgUI.mk 999 []) with
  | Some ui' =>
      999 + errors_in [(MsgUI.Error_, 1%nat); (MsgUI.Warning_, 2%nat)] <= MsgUI.limit /\
      MsgUI.NumErrors_ ui' = 999 + errors_in [(MsgUI.Error_, 1%nat); (MsgUI.Warning_, 2%nat)] /\
      MsgUI.Output_ ui' = [] ++ [(MsgUI.Error_, 1%nat); (MsgUI.Warning_, 2%nat)]
  | None => MsgUI.limit < 999 + errors_in [(MsgUI.Error_, 1%nat); (MsgUI.Warning_, 2%nat)]
  end.
Proof.
  apply (MsgUI_error_limit [(MsgUI.Error_, 1%nat); (MsgUI.Warning_, 2%nat)] (MsgUI.mk 999 [])).
  unfold MsgUI.limit. simpl. lia.
Defined.

Section NewChart.

Import OccupationChart.


End NewChart.
